(** * eterna-backend: aggregation, pagination, retry and diff broadcasting

    A shallow embedding of the TypeScript services
    ([AggregationService], [CacheService], [retryWithBackoff],
    [RateLimiter], [SocketManager.checkForUpdates] and the [rateLimiter]
    middleware) together with the properties the specification states
    about them and further properties of the code.

    Modelling conventions.
    - A JavaScript [number] is an extended rational: [NaN], the two
      infinities, or an exact finite value.  Arithmetic is exact (the
      rounding of binary64 is not modelled) and the sign of zero is not
      tracked.
    - A JavaScript string is a [string] of bytes holding UTF-8.
    - Quantities that the program only ever produces as counters or through
      [parseInt] of configuration (request budgets, retry counts, clock
      readings in milliseconds) are integers.
    - [Map] is an insertion-ordered association list, as iteration order is
      observable in the program.
    - Redis holds, under a key, the JSON of what was written there, and
      takes a write only with a positive time-to-live; what is read back is
      JSON, in which [NaN] and the infinities have become [null].  An entry
      stays until it is overwritten or deleted: the expiry of pages is left
      to the environment.  A counter carries the clock reading at which its
      key expires.
    - Built-ins whose result is fixed by the engine rather than by this
      repository ([String.prototype.toLowerCase], the decimal rendering of a
      non-integral number) are fields of the [JSEngine] class. *)

From Stdlib Require Import ZArith QArith Qabs Qround List String Ascii Bool Lia Lqa.
From Stdlib Require Import DecimalString.
From Stdlib Require DecimalPos DecimalZ.
From Stdlib Require Import NArith Sorted Permutation.
Import ListNotations.

Local Open Scope string_scope.
Local Open Scope list_scope.
Local Open Scope Z_scope.

(* ================================================================= *)
(** ** JavaScript numbers *)

Module JSNum.

Inductive number : Type :=
| NaN
| NegInf
| Fin (q : Q)
| PosInf.

Definition of_Z (z : Z) : number := Fin (inject_Z z).
Definition of_nat (n : nat) : number := of_Z (Z.of_nat n).

Definition isNaN (x : number) : bool :=
  match x with NaN => true | _ => false end.

(** [x < y]; every comparison with [NaN] is false. *)
Definition lt (x y : number) : bool :=
  match x, y with
  | NaN, _ | _, NaN => false
  | _, NegInf => false
  | NegInf, _ => true
  | PosInf, _ => false
  | Fin _, PosInf => true
  | Fin a, Fin b => match Qcompare a b with Lt => true | _ => false end
  end.

Definition gt (x y : number) : bool := lt y x.

(** [x <= y]. *)
Definition le (x y : number) : bool :=
  match x, y with
  | NaN, _ | _, NaN => false
  | _, _ => negb (lt y x)
  end.

Definition ge (x y : number) : bool := le y x.

Definition neg (x : number) : number :=
  match x with
  | NaN => NaN
  | NegInf => PosInf
  | PosInf => NegInf
  | Fin q => Fin (- q)
  end.

Definition add (x y : number) : number :=
  match x, y with
  | NaN, _ | _, NaN => NaN
  | PosInf, NegInf | NegInf, PosInf => NaN
  | PosInf, _ | _, PosInf => PosInf
  | NegInf, _ | _, NegInf => NegInf
  | Fin a, Fin b => Fin (a + b)
  end.

Definition sub (x y : number) : number := add x (neg y).

(** Sign of a finite value, zero counting as positive. *)
Definition Qnegative (q : Q) : bool :=
  match Qcompare q 0 with Lt => true | _ => false end.

Definition Qzero (q : Q) : bool := Qeq_bool q 0.

Definition signed_inf (negative : bool) : number :=
  if negative then NegInf else PosInf.

Definition mul (x y : number) : number :=
  match x, y with
  | NaN, _ | _, NaN => NaN
  | Fin a, Fin b => Fin (a * b)
  | Fin a, PosInf | PosInf, Fin a =>
      if Qzero a then NaN else signed_inf (Qnegative a)
  | Fin a, NegInf | NegInf, Fin a =>
      if Qzero a then NaN else signed_inf (negb (Qnegative a))
  | PosInf, PosInf | NegInf, NegInf => PosInf
  | PosInf, NegInf | NegInf, PosInf => NegInf
  end.

Definition div (x y : number) : number :=
  match x, y with
  | NaN, _ | _, NaN => NaN
  | Fin a, Fin b =>
      if Qzero b then (if Qzero a then NaN else signed_inf (Qnegative a))
      else Fin (a / b)
  | Fin _, _ => Fin 0
  | PosInf, Fin b => signed_inf (Qnegative b)
  | NegInf, Fin b => signed_inf (negb (Qnegative b))
  | _, _ => NaN
  end.

(** [Math.abs]. *)
Definition Math_abs (x : number) : number :=
  match x with
  | NaN => NaN
  | NegInf | PosInf => PosInf
  | Fin q => Fin (Qabs q)
  end.

(** [Math.max] and [Math.min] of two arguments. *)
Definition Math_max (x y : number) : number :=
  match x, y with
  | NaN, _ | _, NaN => NaN
  | _, _ => if lt x y then y else x
  end.

Definition Math_min (x y : number) : number :=
  match x, y with
  | NaN, _ | _, NaN => NaN
  | _, _ => if lt y x then y else x
  end.

(** [Math.pow] with a loop counter as exponent. *)
Fixpoint Math_pow (base : number) (exponent : nat) : number :=
  match exponent with
  | O => Fin 1
  | S e => mul base (Math_pow base e)
  end.

(** ToBoolean on numbers: zero and [NaN] are falsy. *)
Definition truthy (x : number) : bool :=
  match x with
  | NaN => false
  | Fin q => negb (Qzero q)
  | _ => true
  end.

(** Truncation of a finite value towards zero. *)
Definition Qtrunc (q : Q) : Z := Z.quot (Qnum q) (Zpos (Qden q)).

Definition Qintegral (q : Q) : bool :=
  Z.eqb (Z.rem (Qnum q) (Zpos (Qden q))) 0.

(** Relative index resolution of [Array.prototype.slice]: the argument goes
    through ToIntegerOrInfinity, a negative index counts from the end, and
    the result is clamped to [0 .. len]. *)
Definition slice_index (len : Z) (x : number) : Z :=
  match x with
  | NaN => 0
  | NegInf => 0
  | PosInf => len
  | Fin q =>
      let i := Qtrunc q in
      if i <? 0 then Z.max (len + i) 0 else Z.min i len
  end.

End JSNum.

(* ================================================================= *)
(** ** JavaScript strings, truthiness and the built-ins the services call *)

Module JSString.
Import JSNum.

(** Built-ins whose result the engine fixes. *)
Class JSEngine : Type := {
  toLowerCase : string -> string;
  fracToString : Q -> string
}.

(** ToBoolean. *)
Class ToBoolean (A : Type) : Type := truthy : A -> bool.

#[export] Instance string_truthy : ToBoolean string :=
  fun s => match s with EmptyString => false | _ => true end.
#[export] Instance number_truthy : ToBoolean number := JSNum.truthy.
#[export] Instance option_truthy {A : Type} `{ToBoolean A} : ToBoolean (option A) :=
  fun o => match o with Some a => truthy a | None => false end.

(** [a || b] on two values of one type. *)
Definition or_else {A : Type} `{ToBoolean A} (a b : A) : A :=
  if truthy a then a else b.

(** [a || d] where [a] may be [undefined] and [d] is a default. *)
Definition or_default {A : Type} `{ToBoolean A} (a : option A) (d : A) : A :=
  match a with
  | Some v => if truthy v then v else d
  | None => d
  end.

Definition code (c : ascii) : N := N_of_ascii c.

Local Open Scope N_scope.

Definition is_ascii_whitespace (c : ascii) : bool :=
  let n := code c in
  (n =? 9) || (n =? 10) || (n =? 11) || (n =? 12) || (n =? 13) || (n =? 32).

(** U+00A0 in UTF-8. *)
Definition is_whitespace2 (c1 c2 : ascii) : bool :=
  (code c1 =? 194) && (code c2 =? 160).

(** U+1680, U+2000..U+200A, U+2028, U+2029, U+202F, U+205F, U+3000 and
    U+FEFF in UTF-8. *)
Definition is_whitespace3 (c1 c2 c3 : ascii) : bool :=
  let a := code c1 in
  let b := code c2 in
  let c := code c3 in
  ((a =? 225) && (b =? 154) && (c =? 128))
  || ((a =? 226) && (b =? 128)
      && (((128 <=? c) && (c <=? 138)) || (c =? 168) || (c =? 169) || (c =? 175)))
  || ((a =? 226) && (b =? 129) && (c =? 159))
  || ((a =? 227) && (b =? 128) && (c =? 128))
  || ((a =? 239) && (b =? 187) && (c =? 191)).

(** Removal of leading white space and line terminators. *)
Fixpoint trimStart (s : string) : string :=
  match s with
  | EmptyString => s
  | String c1 s1 =>
      if is_ascii_whitespace c1 then trimStart s1
      else
        match s1 with
        | EmptyString => s
        | String c2 s2 =>
            if is_whitespace2 c1 c2 then trimStart s2
            else
              match s2 with
              | EmptyString => s
              | String c3 s3 =>
                  if is_whitespace3 c1 c2 c3 then trimStart s3 else s
              end
        end
  end.

Definition digit_value (radix : N) (c : ascii) : option N :=
  let n := code c in
  let v :=
    if (48 <=? n) && (n <=? 57) then Some (n - 48)
    else if (97 <=? n) && (n <=? 122) then Some (n - 97 + 10)
    else if (65 <=? n) && (n <=? 90) then Some (n - 65 + 10)
    else None in
  match v with
  | Some d => if d <? radix then Some d else None
  | None => None
  end.

(** Value of the longest prefix of digits; [None] when there is no digit. *)
Fixpoint leading_digits (radix : N) (s : string) (acc : option N) : option N :=
  match s with
  | EmptyString => acc
  | String c s' =>
      match digit_value radix c with
      | Some d =>
          leading_digits radix s'
            (Some (radix * match acc with Some a => a | None => 0 end + d))
      | None => acc
      end
  end.

(** [parseInt(s)] without a radix argument. *)
Definition parseInt (s : string) : number :=
  let s1 := trimStart s in
  let '(negative, s2) :=
    match s1 with
    | String "-"%char r => (true, r)
    | String "+"%char r => (false, r)
    | _ => (false, s1)
    end in
  let '(radix, s3) :=
    match s2 with
    | String "0"%char (String "x"%char r) => (16, r)
    | String "0"%char (String "X"%char r) => (16, r)
    | _ => (10, s2)
    end in
  match leading_digits radix s3 None with
  | None => NaN
  | Some m => of_Z (if negative then Z.opp (Z.of_N m) else Z.of_N m)
  end.

(** Decimal rendering of an integer. *)
Definition Z_toString (z : Z) : string :=
  NilZero.string_of_int (Z.to_int z).

(** [Number.prototype.toString()]: integral values below 10^21 in magnitude
    are rendered by their decimal digits; the other finite values by the
    engine. *)
Definition Number_toString `{JSEngine} (x : number) : string :=
  match x with
  | NaN => "NaN"
  | PosInf => "Infinity"
  | NegInf => "-Infinity"
  | Fin q =>
      if Qintegral q && (Z.abs (Qtrunc q) <? 10 ^ 21)%Z
      then Z_toString (Qtrunc q)
      else fracToString q
  end.

(** *** Base64 as [Buffer] implements it *)

Definition base64_char (n : N) : ascii :=
  if n <? 26 then ascii_of_N (65 + n)
  else if n <? 52 then ascii_of_N (97 + (n - 26))
  else if n <? 62 then ascii_of_N (48 + (n - 52))
  else if n =? 62 then "+"%char
  else "/"%char.

(** The decoder also accepts the URL-safe alphabet. *)
Definition base64_value (c : ascii) : option N :=
  let n := code c in
  if (65 <=? n) && (n <=? 90) then Some (n - 65)
  else if (97 <=? n) && (n <=? 122) then Some (n - 97 + 26)
  else if (48 <=? n) && (n <=? 57) then Some (n - 48 + 52)
  else if (n =? 43) || (n =? 45) then Some 62
  else if (n =? 47) || (n =? 95) then Some 63
  else None.

(** [buf.toString('base64')]. *)
Fixpoint base64_encode (bytes : string) : string :=
  match bytes with
  | EmptyString => EmptyString
  | String a EmptyString =>
      let x := code a in
      String (base64_char (x / 4))
        (String (base64_char ((x mod 4) * 16)) "==")
  | String a (String b EmptyString) =>
      let x := code a in
      let y := code b in
      String (base64_char (x / 4))
        (String (base64_char ((x mod 4) * 16 + y / 16))
           (String (base64_char ((y mod 16) * 4)) "="))
  | String a (String b (String c rest)) =>
      let x := code a in
      let y := code b in
      let z := code c in
      String (base64_char (x / 4))
        (String (base64_char ((x mod 4) * 16 + y / 16))
           (String (base64_char ((y mod 16) * 4 + z / 64))
              (String (base64_char (z mod 64)) (base64_encode rest))))
  end.

(** The 6-bit groups read by the decoder: characters outside the alphabet
    are skipped and the first padding character ends the input. *)
Fixpoint base64_sextets (s : string) : list N :=
  match s with
  | EmptyString => []
  | String c rest =>
      if Ascii.eqb c "="%char then []
      else
        match base64_value c with
        | Some v => v :: base64_sextets rest
        | None => base64_sextets rest
        end
  end.

Fixpoint bytes_of_sextets (l : list N) : string :=
  match l with
  | a :: b :: c :: d :: rest =>
      String (ascii_of_N (a * 4 + b / 16))
        (String (ascii_of_N ((b mod 16) * 16 + c / 4))
           (String (ascii_of_N ((c mod 4) * 64 + d)) (bytes_of_sextets rest)))
  | [a; b; c] =>
      String (ascii_of_N (a * 4 + b / 16))
        (String (ascii_of_N ((b mod 16) * 16 + c / 4)) EmptyString)
  | [a; b] => String (ascii_of_N (a * 4 + b / 16)) EmptyString
  | _ => EmptyString
  end.

(** [Buffer.from(s, 'base64')]; it never throws. *)
Definition base64_decode (s : string) : string :=
  bytes_of_sextets (base64_sextets s).

(** [Buffer.from(s)] and [buf.toString('utf-8')] on a string that already
    holds UTF-8 bytes.  Decoding replaces an ill-formed sequence by U+FFFD,
    which like the bytes it replaces is neither a digit, a sign nor white
    space, so [parseInt] of the result is unaffected. *)
Definition Buffer_from_utf8 (s : string) : string := s.
Definition Buffer_toString_utf8 (bytes : string) : string := bytes.

(** An engine for text in the ASCII range, used to run the model on
    concrete inputs: letters A..Z are lowered, other bytes are kept; a
    non-integral number is shown as numerator/denominator. *)
Definition ascii_lower (c : ascii) : ascii :=
  let n := code c in
  if (65 <=? n) && (n <=? 90) then ascii_of_N (n + 32) else c.

Fixpoint ascii_toLowerCase (s : string) : string :=
  match s with
  | EmptyString => EmptyString
  | String c r => String (ascii_lower c) (ascii_toLowerCase r)
  end.

Definition ascii_engine : JSEngine := {|
  toLowerCase := ascii_toLowerCase;
  fracToString := fun q =>
    (Z_toString (Qnum q) ++ "/" ++ Z_toString (Zpos (Qden q)))%string
|}.

End JSString.

(* ================================================================= *)
(** ** [Map]: an insertion-ordered map with string keys *)

Module JSMap.

Definition t (V : Type) : Type := list (string * V).

Definition empty {V : Type} : t V := [].

Fixpoint get {V : Type} (k : string) (m : t V) : option V :=
  match m with
  | [] => None
  | (k', v) :: r => if String.eqb k k' then Some v else get k r
  end.

Definition has {V : Type} (k : string) (m : t V) : bool :=
  match get k m with Some _ => true | None => false end.

(** [set] keeps the position of a key that is already present and appends
    a new key at the end. *)
Fixpoint set {V : Type} (k : string) (v : V) (m : t V) : t V :=
  match m with
  | [] => [(k, v)]
  | (k', v') :: r =>
      if String.eqb k k' then (k', v) :: r else (k', v') :: set k v r
  end.

Definition keys {V : Type} (m : t V) : list string := map fst m.
Definition values {V : Type} (m : t V) : list V := map snd m.
Definition entries {V : Type} (m : t V) : list (string * V) := m.

(** [new Map(iterable)]. *)
Definition of_entries {V : Type} (l : list (string * V)) : t V :=
  fold_left (fun m kv => set (fst kv) (snd kv) m) l empty.

End JSMap.

(* ================================================================= *)
(** ** src/types/index.ts *)

Module Types.
Import JSNum.

Record Token : Type := {
  token_address : string;
  token_name : string;
  token_ticker : string;
  price_sol : number;
  market_cap_sol : number;
  volume_sol : number;
  liquidity_sol : number;
  transaction_count : number;
  price_1hr_change : number;
  price_24hr_change : option number;
  price_7d_change : option number;
  protocol : string;
  dex_id : option string;
  last_updated : number
}.

Record TokenResponse : Type := {
  tokens : list Token;
  next_cursor : option string;
  total_count : nat;
  timestamp : Z
}.

Inductive TimePeriod : Type := period_1h | period_24h | period_7d.

Inductive SortBy : Type :=
| by_volume
| by_price_change
| by_market_cap
| by_liquidity.

Inductive SortOrder : Type := asc | desc.

Definition SortBy_toString (s : SortBy) : string :=
  match s with
  | by_volume => "volume"
  | by_price_change => "price_change"
  | by_market_cap => "market_cap"
  | by_liquidity => "liquidity"
  end.

Definition SortOrder_toString (o : SortOrder) : string :=
  match o with
  | asc => "asc"
  | desc => "desc"
  end.

Record QueryOptions : Type := {
  limit : option number;
  cursor : option string;
  time_period : option TimePeriod;
  sort_by : option SortBy;
  sort_order : option SortOrder;
  min_volume : option number;
  min_liquidity : option number
}.

Record RetryConfig : Type := {
  maxRetries : nat;
  initialDelay : number;
  maxDelay : number;
  backoffMultiplier : number
}.

(** A rejection reason; [status] is [error.response?.status]. *)
Record Error : Type := {
  message : string;
  status : option Z
}.

(** A settled promise. *)
Inductive Promise (A : Type) : Type :=
| Fulfilled (value : A)
| Rejected (reason : Error).

Arguments Fulfilled {A} value.
Arguments Rejected {A} reason.

End Types.

(* ================================================================= *)
(** ** JSON: what [JSON.parse (JSON.stringify x)] returns *)

Module Json.
Import JSNum JSString Types.

#[warnings="-register-all"]
Inductive JSON : Type :=
| JNull
| JBool (b : bool)
| JNumber (q : Q)
| JString (s : string)
| JArray (items : list JSON)
| JObject (members : list (string * JSON)).

(** ToBoolean of a parsed value. *)
#[export] Instance JSON_truthy : ToBoolean JSON :=
  fun j =>
    match j with
    | JNull => false
    | JBool b => b
    | JNumber q => negb (Qzero q)
    | JString s => truthy s
    | JArray _ | JObject _ => true
    end.

(** The parsed JSON text of a value. *)
Class ToJSON (A : Type) : Type := toJSON : A -> JSON.

(** A finite number is read back as it is; [NaN] and the infinities are
    written as [null]. *)
#[export] Instance number_toJSON : ToJSON number :=
  fun x => match x with Fin q => JNumber q | _ => JNull end.

#[export] Instance string_toJSON : ToJSON string := JString.

#[export] Instance Z_toJSON : ToJSON Z := fun z => JNumber (inject_Z z).

#[export] Instance nat_toJSON : ToJSON nat :=
  fun n => JNumber (inject_Z (Z.of_nat n)).

#[export] Instance list_toJSON {A : Type} `{ToJSON A} : ToJSON (list A) :=
  fun l => JArray (map toJSON l).

(** A property of an object, and a property that may be [undefined]: such
    a property is left out of the text. *)
Definition member {A : Type} `{ToJSON A} (name : string) (v : A)
    : list (string * JSON) :=
  [(name, toJSON v)].

Definition optional_member {A : Type} `{ToJSON A} (name : string)
    (v : option A) : list (string * JSON) :=
  match v with
  | Some a => [(name, toJSON a)]
  | None => []
  end.

(** The properties are listed in the order of the [Token] interface. *)
#[export] Instance Token_toJSON : ToJSON Token :=
  fun t =>
    JObject
      (member "token_address" (token_address t)
       ++ member "token_name" (token_name t)
       ++ member "token_ticker" (token_ticker t)
       ++ member "price_sol" (price_sol t)
       ++ member "market_cap_sol" (market_cap_sol t)
       ++ member "volume_sol" (volume_sol t)
       ++ member "liquidity_sol" (liquidity_sol t)
       ++ member "transaction_count" (transaction_count t)
       ++ member "price_1hr_change" (price_1hr_change t)
       ++ optional_member "price_24hr_change" (price_24hr_change t)
       ++ optional_member "price_7d_change" (price_7d_change t)
       ++ member "protocol" (protocol t)
       ++ optional_member "dex_id" (dex_id t)
       ++ member "last_updated" (last_updated t)).

#[export] Instance TokenResponse_toJSON : ToJSON TokenResponse :=
  fun r =>
    JObject
      (member "tokens" (tokens r)
       ++ optional_member "next_cursor" (next_cursor r)
       ++ member "total_count" (total_count r)
       ++ member "timestamp" (timestamp r)).

End Json.

(* ================================================================= *)
(** ** src/config/index.ts *)

Module Config.
Import JSNum Types.

Definition pagination_defaultLimit : number := of_Z 20.
Definition pagination_maxLimit : number := of_Z 100.
Definition cache_prefix : string := "meme-coin:".

Definition retry : RetryConfig := {|
  maxRetries := 3;
  initialDelay := of_Z 1000;
  maxDelay := of_Z 10000;
  backoffMultiplier := of_Z 2
|}.

End Config.

(* ================================================================= *)
(** ** utils/retry: [retryWithBackoff] and [RateLimiter] *)

Module Retry.
Import JSNum Types.

(** What an observer sees of one run of [retryWithBackoff]. *)
Inductive Event : Type :=
| Invoke (attempt : nat)
| Sleep (ms : number).

(** [error.response?.status && [404, 401, 403].includes(error.response.status)] *)
Definition nonRetryable (error : Error) : bool :=
  match status error with
  | Some s => negb (s =? 0) && existsb (Z.eqb s) [404; 401; 403]
  | None => false
  end.

Definition backoffDelay (config : RetryConfig) (attempt : nat) : number :=
  Math_min
    (mul (initialDelay config) (Math_pow (backoffMultiplier config) attempt))
    (maxDelay config).

(** The [for] loop of [retryWithBackoff]: [remaining] iterations are left,
    numbered from [attempt]; [fn k] is the outcome of the invocation made
    by attempt [k]. *)
Fixpoint retryLoop {T : Type} (fn : nat -> Promise T) (config : RetryConfig)
    (remaining attempt : nat) (lastError : Error) : Promise T * list Event :=
  match remaining with
  | O => (Rejected lastError, [])
  | S remaining' =>
      match fn attempt with
      | Fulfilled v => (Fulfilled v, [Invoke attempt])
      | Rejected error =>
          if nonRetryable error then (Rejected error, [Invoke attempt])
          else
            let slept :=
              if (attempt <? maxRetries config)%nat
              then [Sleep (backoffDelay config attempt)]
              else [] in
            let '(result, events) :=
              retryLoop fn config remaining' (S attempt) error in
            (result, Invoke attempt :: slept ++ events)
      end
  end.

Definition retryWithBackoff {T : Type} (fn : nat -> Promise T)
    (config : RetryConfig) : Promise T * list Event :=
  retryLoop fn config (S (maxRetries config)) 0%nat
    {| message := "Unknown error"; status := None |}.

(** *** [RateLimiter] *)

Record RateLimiter : Type := {
  maxRequests : Z;
  windowMs : Z;
  requestCount : Z;
  windowStart : Z
}.

(** [new RateLimiter(maxRequests, windowMs)] at clock reading [now]. *)
Definition RateLimiter_new (maxRequests windowMs now : Z) : RateLimiter := {|
  maxRequests := maxRequests;
  windowMs := windowMs;
  requestCount := 0;
  windowStart := now
|}.

Definition with_window (l : RateLimiter) (count start : Z) : RateLimiter := {|
  maxRequests := maxRequests l;
  windowMs := windowMs l;
  requestCount := count;
  windowStart := start
|}.

(** How the synchronous first part of [acquire] ends. *)
Inductive Acquired : Type :=
| Granted
| Waiting (waitTime : Z).

(** [acquire] up to its [return] or its [await sleep(waitTime)]. *)
Definition acquire_enter (l : RateLimiter) (now : Z) : RateLimiter * Acquired :=
  let l1 :=
    if now - windowStart l >=? windowMs l then with_window l 0 now else l in
  if requestCount l1 <? maxRequests l1
  then (with_window l1 (requestCount l1 + 1) (windowStart l1), Granted)
  else (l1, Waiting (windowMs l1 - (now - windowStart l1))).

(** [acquire] after the sleep, at clock reading [now]. *)
Definition acquire_resume (l : RateLimiter) (now : Z) : RateLimiter :=
  with_window l 1 now.

(** A whole [acquire] that no other task interleaves with; [wake] is the
    clock reading after the sleep, if there is one. *)
Definition acquire (l : RateLimiter) (now wake : Z) : RateLimiter :=
  match acquire_enter l now with
  | (l', Granted) => l'
  | (l', Waiting _) => acquire_resume l' wake
  end.

(** One atomic step of the limiter under cooperative scheduling: a task
    runs the first part of [acquire], or a sleeping task is resumed. *)
Inductive LimiterStep : Type :=
| Enter (now : Z)
| Resume (now : Z).

(** The limiter with the number of tasks asleep in [acquire]. *)
Definition LimiterState : Type := (RateLimiter * nat)%type.

Definition limiter_step (s : LimiterState) (e : LimiterStep) : option LimiterState :=
  let '(l, sleeping) := s in
  match e with
  | Enter now =>
      match acquire_enter l now with
      | (l', Granted) => Some (l', sleeping)
      | (l', Waiting _) => Some (l', S sleeping)
      end
  | Resume now =>
      match sleeping with
      | O => None
      | S n => Some (acquire_resume l now, n)
      end
  end.

Fixpoint limiter_run (s : LimiterState) (es : list LimiterStep) : option LimiterState :=
  match es with
  | [] => Some s
  | e :: r =>
      match limiter_step s e with
      | Some s' => limiter_run s' r
      | None => None
      end
  end.

End Retry.

(* ================================================================= *)
(** ** src/services/cacheService.ts *)

Module Cache.
Import Types Json.

(** The Redis server as the service sees it: commands throw while it is
    unreachable.  An entry holds its time-to-live in seconds and the JSON
    text that was written, kept here as the value that [JSON.parse] makes
    of it. *)
Record Redis : Type := {
  reachable : bool;
  entries : JSMap.t (Z * JSON)
}.

Definition getKey (key : string) : string :=
  (Config.cache_prefix ++ key)%string.

(** [get]: a missing entry and a failing command both give [null]; the
    text of an entry is parsed. *)
Definition get (r : Redis) (key : string) : option JSON :=
  if reachable r
  then match JSMap.get (getKey key) (entries r) with
       | Some (_, v) => Some v
       | None => None
       end
  else None.

(** [set]: [SETEX] of the JSON text of [value].  Redis refuses a
    time-to-live that is not positive; that error and the error of a failing
    command are logged and swallowed. *)
Definition set {A : Type} `{ToJSON A} (r : Redis) (key : string) (value : A)
    (ttl : Z) : Redis :=
  let serialized := toJSON value in
  if reachable r && (0 <? ttl)
  then {| reachable := true;
          entries := JSMap.set (getKey key) (ttl, serialized) (entries r) |}
  else r.






(** The counters of the Redis server, which live under keys of their own:
    a counter holds its value and, when one is set, the clock reading in
    milliseconds at which its key expires. *)
Record Counters : Type := {
  counters_reachable : bool;
  counters : JSMap.t (Z * option Z)
}.

(** An expired key is absent. *)
Definition live (now : Z) (c : Z * option Z) : bool :=
  match snd c with
  | Some expiry => now <? expiry
  | None => true
  end.

(** [increment] at clock reading [now]: [INCR], then [EXPIRE] when the
    counter has just been created and a time-to-live in seconds is given.
    A failing command gives 0. *)
Definition increment (s : Counters) (key : string) (ttl : option Z) (now : Z)
    : Z * Counters :=
  if counters_reachable s
  then
    let prefixedKey := getKey key in
    let '(old, expiry) :=
      match JSMap.get prefixedKey (counters s) with
      | Some c => if live now c then c else (0, None)
      | None => (0, None)
      end in
    let value := old + 1 in
    let expiry' :=
      match ttl with
      | Some seconds =>
          if (value =? 1) && negb (seconds =? 0)
          then Some (now + 1000 * seconds) else expiry
      | None => expiry
      end in
    (value,
     {| counters_reachable := true;
        counters := JSMap.set prefixedKey (value, expiry') (counters s) |})
  else (0, s).

End Cache.

(* ================================================================= *)
(** ** src/services/aggregationService.ts *)

Module AggregationService.
Import JSNum JSString Types Json.

Definition CACHE_KEY_PREFIX : string := "tokens:".

Definition mergeSingleToken (token1 token2 : Token) : Token := {|
  token_address := token_address token1;
  token_name := or_else (token_name token1) (token_name token2);
  token_ticker := or_else (token_ticker token1) (token_ticker token2);
  price_sol := or_else (price_sol token1) (price_sol token2);
  market_cap_sol := Math_max (market_cap_sol token1) (market_cap_sol token2);
  volume_sol := Math_max (volume_sol token1) (volume_sol token2);
  liquidity_sol := Math_max (liquidity_sol token1) (liquidity_sol token2);
  transaction_count :=
    Math_max (transaction_count token1) (transaction_count token2);
  price_1hr_change := or_else (price_1hr_change token1) (price_1hr_change token2);
  price_24hr_change := or_else (price_24hr_change token1) (price_24hr_change token2);
  price_7d_change := or_else (price_7d_change token1) (price_7d_change token2);
  protocol :=
    if negb (String.eqb (protocol token1) "Unknown")
    then protocol token1 else protocol token2;
  dex_id := or_else (dex_id token1) (dex_id token2);
  last_updated := Math_max (last_updated token1) (last_updated token2)
|}.

(** One iteration of the loop of [mergeTokens]; [has] followed by [get] is
    a single lookup here. *)
Definition mergeStep `{JSEngine} (tokenMap : JSMap.t Token) (token : Token)
    : JSMap.t Token :=
  let address := toLowerCase (token_address token) in
  match JSMap.get address tokenMap with
  | None => JSMap.set address token tokenMap
  | Some existing =>
      JSMap.set address (mergeSingleToken existing token) tokenMap
  end.

Definition mergeTokens `{JSEngine} (tokens : list Token) : list Token :=
  JSMap.values (fold_left mergeStep tokens JSMap.empty).

Definition applyFilters (tokens : list Token) (options : QueryOptions)
    : list Token :=
  let filtered := tokens in
  let filtered :=
    match min_volume options with
    | Some m =>
        if truthy m then filter (fun t => ge (volume_sol t) m) filtered
        else filtered
    | None => filtered
    end in
  let filtered :=
    match min_liquidity options with
    | Some m =>
        if truthy m then filter (fun t => ge (liquidity_sol t) m) filtered
        else filtered
    | None => filtered
    end in
  filtered.

(** [Array.prototype.sort] with a comparator, as the stable insertion sort:
    an element moves in front of the elements the comparator puts after
    it.  Every stable sort agrees with it on a consistent comparator; a
    comparator result of [NaN] counts as zero. *)
Fixpoint sort_insert {A : Type} (cmp : A -> A -> number) (x : A) (sorted : list A)
    : list A :=
  match sorted with
  | [] => [x]
  | y :: r =>
      if gt (cmp y x) (of_Z 0) then x :: y :: r
      else y :: sort_insert cmp x r
  end.

Definition Array_sort {A : Type} (cmp : A -> A -> number) (l : list A) : list A :=
  fold_left (fun sorted x => sort_insert cmp x sorted) l [].

Definition sortKey (sortBy : SortBy) (t : Token) : number :=
  match sortBy with
  | by_volume => volume_sol t
  | by_market_cap => market_cap_sol t
  | by_liquidity => liquidity_sol t
  | by_price_change => or_else (price_1hr_change t) (of_Z 0)
  end.

Definition applySort (tokens : list Token) (options : QueryOptions) : list Token :=
  let sortBy := match sort_by options with Some s => s | None => by_volume end in
  let sortOrder := match sort_order options with Some o => o | None => desc end in
  Array_sort
    (fun a b =>
       let aValue := sortKey sortBy a in
       let bValue := sortKey sortBy b in
       match sortOrder with
       | desc => sub bValue aValue
       | asc => sub aValue bValue
       end)
    tokens.

(** [Array.prototype.slice(start, end)]. *)
Definition Array_slice {A : Type} (l : list A) (start stop : number) : list A :=
  let len := Z.of_nat (List.length l) in
  let k := slice_index len start in
  let final := slice_index len stop in
  firstn (Z.to_nat (Z.max (final - k) 0)) (skipn (Z.to_nat k) l).

(** The effective page size. *)
Definition pageLimit (options : QueryOptions) : number :=
  Math_min
    (or_default (limit options) Config.pagination_defaultLimit)
    Config.pagination_maxLimit.

(** The offset read from the cursor.  On a string neither [Buffer.from] nor
    [parseInt] throws, so the [catch] branch of the source is never
    entered. *)
Definition startIndexOf (options : QueryOptions) : number :=
  match cursor options with
  | Some c =>
      if truthy c
      then parseInt (Buffer_toString_utf8 (base64_decode c))
      else of_Z 0
  | None => of_Z 0
  end.

Definition applyPagination `{JSEngine} (tokens : list Token)
    (options : QueryOptions) (now : Z) : TokenResponse :=
  let limit := pageLimit options in
  let startIndex := startIndexOf options in
  let endIndex := add startIndex limit in
  let paginatedTokens := Array_slice tokens startIndex endIndex in
  let nextCursor :=
    if lt endIndex (of_nat (List.length tokens))
    then Some (base64_encode (Buffer_from_utf8 (Number_toString endIndex)))
    else None in
  {| tokens := paginatedTokens;
     next_cursor := nextCursor;
     total_count := List.length tokens;
     timestamp := now |}.

(** [Array.prototype.join]. *)
Fixpoint Array_join (sep : string) (parts : list string) : string :=
  match parts with
  | [] => ""
  | [p] => p
  | p :: r => (p ++ sep ++ Array_join sep r)%string
  end.

Definition generateCacheKey `{JSEngine} (options : QueryOptions) : string :=
  let parts :=
    [ CACHE_KEY_PREFIX;
      "aggregate";
      match sort_by options with
      | Some s => SortBy_toString s
      | None => "volume"
      end;
      match sort_order options with
      | Some o => SortOrder_toString o
      | None => "desc"
      end;
      Number_toString (or_default (min_volume options) (of_Z 0));
      Number_toString (or_default (min_liquidity options) (of_Z 0)) ] in
  Array_join ":" parts.

(** [generateCacheKey] on the values that reach it at run time: the
    controller hands [req.query.sort_by] and [req.query.sort_order] on as
    they are, so that they can be any string. *)
Definition generateCacheKey_untyped `{JSEngine} (sortBy sortOrder : option string)
    (minVolume minLiquidity : option number) : string :=
  let parts :=
    [ CACHE_KEY_PREFIX;
      "aggregate";
      or_default sortBy "volume";
      or_default sortOrder "desc";
      Number_toString (or_default minVolume (of_Z 0));
      Number_toString (or_default minLiquidity (of_Z 0)) ] in
  Array_join ":" parts.

(** What [aggregateTokens] returns: the page it has computed, or the value
    parsed from the cache, which the code takes for a [TokenResponse]. *)
Inductive Served : Type :=
| Computed (paginatedResult : TokenResponse)
| Cached (cached : JSON).

(** [aggregateTokens]: [dexTokens] and [jupiterTokens] are the settled
    results of the two fetches handed to [Promise.allSettled], [ttl] is
    [config.cache.ttl] and [now] the clock reading of the page. *)
Definition aggregateTokens `{JSEngine} (redis : Cache.Redis)
    (dexTokens jupiterTokens : Promise (list Token))
    (options : QueryOptions) (ttl now : Z)
    : Promise Served * Cache.Redis :=
  let cacheKey := generateCacheKey options in
  let cached := Cache.get redis cacheKey in
  match (if truthy cached then cached else None) with
  | Some cached => (Fulfilled (Cached cached), redis)
  | None =>
      let allTokens := [] in
      let allTokens :=
        match dexTokens with
        | Fulfilled value => allTokens ++ value
        | Rejected _ => allTokens
        end in
      let allTokens :=
        match jupiterTokens with
        | Fulfilled value => allTokens ++ value
        | Rejected _ => allTokens
        end in
      let mergedTokens := mergeTokens allTokens in
      let filteredTokens := applyFilters mergedTokens options in
      let sortedTokens := applySort filteredTokens options in
      let paginatedResult := applyPagination sortedTokens options now in
      (Fulfilled (Computed paginatedResult),
       Cache.set redis cacheKey paginatedResult ttl)
  end.


End AggregationService.

(* ================================================================= *)
(** ** src/websocket/socketManager.ts *)

Module SocketManager.
Import JSNum JSString Types.

(** What one tick sends. *)
Inductive Emission : Type :=
| token_update (room : string) (data : Token)
| price_updates (data : list Token)
| volume_spikes (data : list Token).

Record Tick : Type := {
  updates : list Token;
  volumeSpikes : list Token;
  roomEvents : list Emission
}.

Definition priceChange (currentToken previousToken : Token) : number :=
  Math_abs
    (mul (div (sub (price_sol currentToken) (price_sol previousToken))
              (price_sol previousToken))
         (of_Z 100)).

Definition volumeIncrease (currentToken previousToken : Token) : number :=
  mul (div (sub (volume_sol currentToken) (volume_sol previousToken))
           (volume_sol previousToken))
      (of_Z 100).

(** The body of the loop over [currentTokens.entries()]. *)
Definition detect (previousTokens : JSMap.t Token) (acc : Tick)
    (entry : string * Token) : Tick :=
  let '(address, currentToken) := entry in
  match JSMap.get address previousTokens with
  | Some previousToken =>
      {| updates :=
           if gt (priceChange currentToken previousToken) (of_Z 1)
           then updates acc ++ [currentToken] else updates acc;
         volumeSpikes :=
           if gt (volumeIncrease currentToken previousToken) (of_Z 50)
           then volumeSpikes acc ++ [currentToken] else volumeSpikes acc;
         roomEvents :=
           roomEvents acc ++ [token_update ("token:" ++ address)%string currentToken] |}
  | None => acc
  end.

Definition snapshot (data : TokenResponse) : JSMap.t Token :=
  JSMap.of_entries (map (fun t => (token_address t, t)) (tokens data)).

Definition detectAll (previousTokens currentTokens : JSMap.t Token) : Tick :=
  fold_left (detect previousTokens) (JSMap.entries currentTokens)
    {| updates := []; volumeSpikes := []; roomEvents := [] |}.

(** [checkForUpdates] on the outcome [data] of the fresh aggregate: the
    emissions in order and the snapshot retained for the next tick.  A
    rejected aggregate is logged and leaves the snapshot as it was. *)
Definition checkForUpdates (previousTokens : JSMap.t Token)
    (data : Promise TokenResponse) : list Emission * JSMap.t Token :=
  match data with
  | Rejected _ => ([], previousTokens)
  | Fulfilled data =>
      let currentTokens := snapshot data in
      let tick := detectAll previousTokens currentTokens in
      (roomEvents tick
         ++ (if (0 <? List.length (updates tick))%nat
             then [price_updates (updates tick)] else [])
         ++ (if (0 <? List.length (volumeSpikes tick))%nat
             then [volume_spikes (volumeSpikes tick)] else []),
       currentTokens)
  end.

(** The price-update batch of a tick. *)
Definition priceBatch (previousTokens : JSMap.t Token) (data : TokenResponse)
    : list Token :=
  updates (detectAll previousTokens (snapshot data)).

(** The spike batch of a tick. *)
Definition spikeBatch (previousTokens : JSMap.t Token) (data : TokenResponse)
    : list Token :=
  volumeSpikes (detectAll previousTokens (snapshot data)).

End SocketManager.

(* ================================================================= *)
(** ** src/middleware/rateLimiter.ts *)

Module RateLimitMiddleware.
Import JSString.

(** What the middleware reads of a request: [req.ip] and
    [req.socket.remoteAddress]. *)
Record Request : Type := {
  ip : option string;
  remoteAddress : option string
}.

(** The middleware calls [next()] or answers with status 429. *)
Inductive Outcome : Type :=
| Next
| TooManyRequests (retryAfter : Z).

(** The two headers that are set and the outcome. *)
Record Response : Type := {
  rateLimit_Limit : Z;
  rateLimit_Remaining : Z;
  outcome : Outcome
}.

(** [Math.ceil(a / b)] on integers, for a positive [b]. *)
Definition ceil_div (a b : Z) : Z := - ((- a) / b).

(** [req.ip || req.socket.remoteAddress || 'unknown'] *)
Definition identifierOf (req : Request) : string :=
  or_default (or_else (ip req) (remoteAddress req)) "unknown".

(** [rateLimiter] for [config.rateLimit] = [{windowMs, maxRequests}], at
    clock reading [now].  Nothing in the [try] block throws, so the [catch]
    branch is not entered. *)
Definition rateLimiter (windowMs maxRequests : Z) (store : Cache.Counters)
    (req : Request) (now : Z) : Response * Cache.Counters :=
  let identifier := identifierOf req in
  let key := ("rate-limit:" ++ identifier)%string in
  let '(requestCount, store') :=
    Cache.increment store key (Some (ceil_div windowMs 1000)) now in
  let respond (o : Outcome) : Response :=
    {| rateLimit_Limit := maxRequests;
       rateLimit_Remaining := Z.max 0 (maxRequests - requestCount);
       outcome := o |} in
  if requestCount >? maxRequests
  then (respond (TooManyRequests (ceil_div windowMs 1000)), store')
  else (respond Next, store').

End RateLimitMiddleware.

(* ================================================================= *)
(** * Vocabulary of the properties *)

Module Spec.
Import JSNum JSString Types Retry AggregationService SocketManager.

(** ** Order on numbers *)

(** [c] is the greater of [a] and [b]. *)
Definition greatest_of (a b c : number) : Prop :=
  (c = a \/ c = b) /\ le a c = true /\ le b c = true.

(** [c] is the smaller of [a] and [b]. *)
Definition least_of (a b c : number) : Prop :=
  (c = a \/ c = b) /\ le c a = true /\ le c b = true.

(** ** Merging *)

(** A string that carries information: neither empty nor the literal
    ["Unknown"]. *)
Definition informative (s : string) : bool :=
  negb (String.eqb s "") && negb (String.eqb s "Unknown").

(** The first informative value of a sequence, in the order encountered. *)
Definition first_informative (values : list string) : option string :=
  find informative values.

(** [c] is [Math.max] of [a] and [b]: the greater of the two when neither
    is [NaN]. *)
Definition takes_greater (a b c : number) : Prop :=
  c = Math_max a b
  /\ (isNaN a = false -> isNaN b = false -> greatest_of a b c).

(** [c] is the first value [a] when it is truthy (present, not zero, not
    [NaN]) and the second value [b] otherwise. *)
Definition keeps_first {A : Type} `{ToBoolean A} (a b c : A) : Prop :=
  (truthy a = true -> c = a) /\ (truthy a = false -> c = b).

(** [c] is the first text [a] when it is informative and the second text
    [b] when [a] is empty. *)
Definition keeps_first_text (a b c : string) : Prop :=
  (informative a = true -> c = a) /\ (a = "" -> c = b).

(** The same for a text that may be absent. *)
Definition keeps_first_optional_text (a b c : option string) : Prop :=
  (forall s, a = Some s -> informative s = true -> c = a)
  /\ (a = None \/ a = Some "" -> c = b).

(** [c] is the first label [a] when it is informative and the second label
    [b] when [a] is ["Unknown"]. *)
Definition keeps_first_label (a b c : string) : Prop :=
  (informative a = true -> c = a) /\ (a = "Unknown" -> c = b).

(** ** Pagination and cache keys *)

(** [options] with another page size and cursor. *)
Definition with_page (options : QueryOptions) (l : option number)
    (c : option string) : QueryOptions := {|
  limit := l;
  cursor := c;
  time_period := time_period options;
  sort_by := sort_by options;
  sort_order := sort_order options;
  min_volume := min_volume options;
  min_liquidity := min_liquidity options
|}.

(** [options.limit || config.pagination.defaultLimit] *)
Definition requestedLimit (options : QueryOptions) : number :=
  or_default (limit options) Config.pagination_defaultLimit.

(** No character of [s] is the separator. *)
Fixpoint colon_free (s : string) : bool :=
  match s with
  | EmptyString => true
  | String c r => negb (Ascii.eqb c ":"%char) && colon_free r
  end.

(** The sort key as the key derivation reads it. *)
Definition effective_sort_by (o : QueryOptions) : SortBy :=
  match sort_by o with Some s => s | None => by_volume end.

(** The sort direction as the key reads it. *)
Definition effective_sort_order (o : QueryOptions) : SortOrder :=
  match sort_order o with Some s => s | None => desc end.

(** Two numbers are the same value. *)
Definition same_number (x y : number) : Prop :=
  match x, y with
  | NaN, NaN | PosInf, PosInf | NegInf, NegInf => True
  | Fin a, Fin b => (a == b)%Q
  | _, _ => False
  end.

(** No character of [s] is [c]. *)
Fixpoint free_of (c : ascii) (s : string) : bool :=
  match s with
  | EmptyString => true
  | String c' r => negb (Ascii.eqb c' c) && free_of c r
  end.

(** The thresholds as the key reads them. *)
Definition effective_min_volume (o : QueryOptions) : number :=
  or_default (min_volume o) (of_Z 0).

Definition effective_min_liquidity (o : QueryOptions) : number :=
  or_default (min_liquidity o) (of_Z 0).

(** ** Retries and rate limiting *)

(** The statuses on which no retry is made. *)
Definition final_status (e : Error) : Prop :=
  status e = Some 404 \/ status e = Some 401 \/ status e = Some 403.

(** Attempt [i] of [fn] fails with an error that allows a retry. *)
Definition retryable_failure {T : Type} (fn : nat -> Promise T) (i : nat) : Prop :=
  exists e, fn i = Rejected e /\ ~ final_status e.

(** Attempts [first] to [first + more], with the sleep between each two. *)
Fixpoint schedule (config : RetryConfig) (first more : nat) : list Event :=
  match more with
  | O => [Invoke first]
  | S m => Invoke first :: Sleep (backoffDelay config first)
             :: schedule config (S first) m
  end.

(** The number of invocations in a run. *)
Definition attempts (events : list Event) : nat :=
  List.length (filter (fun e => match e with Invoke _ => true | _ => false end)
                 events).

(** The counter as [acquire] finds it once an elapsed window is reset. *)
Definition count_on_entry (l : RateLimiter) (now : Z) : Z :=
  if now - windowStart l >=? windowMs l then 0 else requestCount l.

(** The invariant of the limiter. *)
Definition within_budget (budget : Z) (s : LimiterState) : Prop :=
  maxRequests (fst s) = budget /\ 0 <= requestCount (fst s) <= budget.

(** ** Price deltas *)

(** The price delta as the specification writes it:
    [|new - prev| / prev * 100]. *)
Definition priceDeltaPct (newPrice prevPrice : number) : number :=
  mul (div (Math_abs (sub newPrice prevPrice)) prevPrice) (of_Z 100).

(** Whether the loop body adds an entry to the price batch. *)
Definition price_moved (previousTokens : JSMap.t Token)
    (entry : string * Token) : bool :=
  match JSMap.get (fst entry) previousTokens with
  | Some previousToken => gt (priceChange (snd entry) previousToken) (of_Z 1)
  | None => false
  end.

(** ** Notions that depend on the engine *)

Section WithEngine.
Context `{JSEngine}.

(** The key under which [mergeTokens] files a record. *)
Definition key_of (t : Token) : string := toLowerCase (token_address t).

(** The first record of [tokens] filed under the key [k]. *)
Definition first_at (k : string) (tokens : list Token) : option Token :=
  find (fun x => String.eqb (key_of x) k) tokens.

(** What holds of the map after the records [seen] have been processed. *)
Record merged_so_far (seen : list Token) (m : JSMap.t Token) : Prop := {
  msf_nodup : NoDup (JSMap.keys m);
  msf_entry : forall k t, In (k, t) m ->
      k = key_of t
      /\ exists first, first_at k seen = Some first
                       /\ token_address t = token_address first;
  msf_seen : forall x, In x seen -> In (key_of x) (JSMap.keys m);
  msf_size : (List.length m <= List.length seen)%nat
}.

(** The engine renders no number with a colon. *)
Definition colon_free_engine : Prop :=
  forall q : Q, colon_free (fracToString q) = true.

(** The numbers that [Number.prototype.toString] hands to the engine:
    those that are not integers below 10^21 in magnitude. *)
Definition engine_rendered (q : Q) : bool :=
  negb (Qintegral q && (Z.abs (Qtrunc q) <? 10 ^ 21)).

(** What ECMAScript fixes of the text of such a number: equal values, and
    only they, have the same text; the text is no decimal integer and none
    of the words of [NaN] and the infinities (it holds a point or an
    exponent); and it holds no colon. *)
Record number_rendering : Prop := {
  rendering_value : forall q q' : Q,
      engine_rendered q = true -> engine_rendered q' = true ->
      (fracToString q = fracToString q' <-> (q == q')%Q);
  rendering_fraction : forall (q : Q) (z : Z),
      engine_rendered q = true -> fracToString q <> Z_toString z;
  rendering_word : forall q : Q,
      engine_rendered q = true ->
      fracToString q <> "NaN" /\ fracToString q <> "Infinity"
      /\ fracToString q <> "-Infinity";
  rendering_colon : colon_free_engine
}.

(** Merge, filter, sort and paginate, in the order of [aggregateTokens]. *)
Definition pipeline (fetched : list Token) (options : QueryOptions)
    (now : Z) : TokenResponse :=
  applyPagination
    (applySort (applyFilters (mergeTokens fetched) options) options)
    options now.

End WithEngine.

End Spec.

(* ================================================================= *)
(** * Vocabulary of the further properties *)

Module SpecMore.
Import JSNum JSString Types Json Retry AggregationService SocketManager Spec.
Import RateLimitMiddleware.

(** The keys of a list in the order of their first occurrence. *)
Fixpoint first_occurrences (keys : list string) : list string :=
  match keys with
  | [] => []
  | k :: r => k :: filter (fun x => negb (String.eqb x k)) (first_occurrences r)
  end.

(** Whether [k] is among [keys]. *)
Definition seen (keys : list string) (k : string) : bool :=
  existsb (String.eqb k) keys.

(** The cumulative fields of a record. *)
Definition cumulative_fields : list (Token -> number) :=
  [market_cap_sol; volume_sol; liquidity_sol; transaction_count; last_updated].

(** The test a threshold option applies to a value, as [applyFilters]
    writes it. *)
Definition passes (threshold : option number) (v : number) : bool :=
  match threshold with
  | Some m => if truthy m then ge v m else true
  | None => true
  end.

(** [v] is at least the threshold, when one is set and is neither 0 nor
    [NaN]. *)
Definition meets (threshold : option number) (v : number) : Prop :=
  forall m, threshold = Some m -> truthy m = true -> ge v m = true.

(** The threshold [a] excludes no more than the threshold [b]: [a] is
    absent, 0 or [NaN], or both are set, [b] is not 0 and [a <= b]. *)
Definition weaker (a b : option number) : Prop :=
  truthy a = false
  \/ exists m m', a = Some m /\ b = Some m' /\ truthy m' = true
                  /\ le m m' = true.

(** The order asked of two sort keys: descending or ascending. *)
Definition in_order (o : SortOrder) (a b : number) : Prop :=
  match o with
  | desc => le b a = true
  | asc => le a b = true
  end.

(** The record [a] may stand before the record [b] in the order that
    [options] asks for. *)
Definition ordered (options : QueryOptions) (a b : Token) : Prop :=
  in_order (effective_sort_order options)
    (sortKey (effective_sort_by options) a)
    (sortKey (effective_sort_by options) b).

(** The comparator of [applySort]. *)
Definition comparator (options : QueryOptions) (a b : Token) : number :=
  let aValue := sortKey (effective_sort_by options) a in
  let bValue := sortKey (effective_sort_by options) b in
  match effective_sort_order options with
  | desc => sub bValue aValue
  | asc => sub aValue bValue
  end.

(** The records that a settled fetch contributes to the aggregate. *)
Definition fetched_of (p : Promise (list Token)) : list Token :=
  match p with
  | Fulfilled value => value
  | Rejected _ => []
  end.




(** ** Responses as JSON *)

(** The JSON of what [aggregateTokens] has returned. *)
Definition json_of (served : Served) : JSON :=
  match served with
  | Computed paginatedResult => toJSON paginatedResult
  | Cached cached => cached
  end.

(** [isFinite]. *)
Definition finite (x : number) : bool :=
  match x with Fin _ => true | _ => false end.

Definition finite_optional (x : option number) : bool :=
  match x with Some v => finite v | None => true end.

(** Every number of the record, and of the page, is finite. *)
Definition finite_token (t : Token) : bool :=
  finite (price_sol t) && finite (market_cap_sol t) && finite (volume_sol t)
  && finite (liquidity_sol t) && finite (transaction_count t)
  && finite (price_1hr_change t) && finite_optional (price_24hr_change t)
  && finite_optional (price_7d_change t) && finite (last_updated t).

Definition finite_page (page : TokenResponse) : bool :=
  forallb finite_token (tokens page).

(** Reading a parsed value as a value of the declared type: a number, a
    string, an integer. *)
Definition as_number (j : JSON) : option number :=
  match j with JNumber q => Some (Fin q) | _ => None end.

Definition as_string (j : JSON) : option string :=
  match j with JString s => Some s | _ => None end.

Definition as_integer (j : JSON) : option Z :=
  match j with
  | JNumber q => if (Qden q =? 1)%positive then Some (Qnum q) else None
  | _ => None
  end.

Definition as_count (j : JSON) : option nat :=
  match as_integer j with
  | Some z => if 0 <=? z then Some (Z.to_nat z) else None
  | None => None
  end.

(** A property that the type requires, and one that it allows to be
    absent. *)
Definition required {A : Type} (read : JSON -> option A) (name : string)
    (members : list (string * JSON)) : option A :=
  match JSMap.get name members with
  | Some j => read j
  | None => None
  end.

Definition allowed {A : Type} (read : JSON -> option A) (name : string)
    (members : list (string * JSON)) : option (option A) :=
  match JSMap.get name members with
  | Some j => match read j with Some v => Some (Some v) | None => None end
  | None => Some None
  end.

Definition and_then {A B : Type} (o : option A) (f : A -> option B)
    : option B :=
  match o with Some a => f a | None => None end.

(** A parsed value as a [Token]: [None] when a property is missing or
    holds a value of another type, as [null] is for a number. *)
Definition as_Token (j : JSON) : option Token :=
  match j with
  | JObject m =>
      and_then (required as_string "token_address" m) (fun address =>
      and_then (required as_string "token_name" m) (fun name =>
      and_then (required as_string "token_ticker" m) (fun ticker =>
      and_then (required as_number "price_sol" m) (fun price =>
      and_then (required as_number "market_cap_sol" m) (fun market_cap =>
      and_then (required as_number "volume_sol" m) (fun volume =>
      and_then (required as_number "liquidity_sol" m) (fun liquidity =>
      and_then (required as_number "transaction_count" m) (fun count =>
      and_then (required as_number "price_1hr_change" m) (fun change1 =>
      and_then (allowed as_number "price_24hr_change" m) (fun change24 =>
      and_then (allowed as_number "price_7d_change" m) (fun change7 =>
      and_then (required as_string "protocol" m) (fun label =>
      and_then (allowed as_string "dex_id" m) (fun dex =>
      and_then (required as_number "last_updated" m) (fun updated =>
      Some {| token_address := address;
              token_name := name;
              token_ticker := ticker;
              price_sol := price;
              market_cap_sol := market_cap;
              volume_sol := volume;
              liquidity_sol := liquidity;
              transaction_count := count;
              price_1hr_change := change1;
              price_24hr_change := change24;
              price_7d_change := change7;
              protocol := label;
              dex_id := dex;
              last_updated := updated |}))))))))))))))
  | _ => None
  end.

Fixpoint as_Tokens (items : list JSON) : option (list Token) :=
  match items with
  | [] => Some []
  | j :: rest =>
      and_then (as_Token j) (fun t =>
      and_then (as_Tokens rest) (fun l => Some (t :: l)))
  end.

(** A parsed value as a [TokenResponse]. *)
Definition as_TokenResponse (j : JSON) : option TokenResponse :=
  match j with
  | JObject m =>
      and_then
        (required (fun a => match a with
                            | JArray items => as_Tokens items
                            | _ => None
                            end) "tokens" m) (fun records =>
      and_then (allowed as_string "next_cursor" m) (fun next =>
      and_then (required as_count "total_count" m) (fun total =>
      and_then (required as_integer "timestamp" m) (fun time =>
      Some {| tokens := records;
              next_cursor := next;
              total_count := total;
              timestamp := time |}))))
  | _ => None
  end.

(** Whether the loop body of a tick adds an entry to the spike batch. *)
Definition volume_spiked (previousTokens : JSMap.t Token)
    (entry : string * Token) : bool :=
  match JSMap.get (fst entry) previousTokens with
  | Some previousToken =>
      gt (volumeIncrease (snd entry) previousToken) (of_Z 50)
  | None => false
  end.

(** The event that a tick sends to the room of an entry. *)
Definition room_event (entry : string * Token) : Emission :=
  token_update ("token:" ++ fst entry)%string (snd entry).

(** ** The inbound limiter *)

(** The key of the counter of a client. *)
Definition counter_key (identifier : string) : string :=
  Cache.getKey ("rate-limit:" ++ identifier).

(** The requests counted for a client at clock reading [now]: the value of
    its counter, 0 when the key is absent or has expired. *)
Definition count_at (store : Cache.Counters) (identifier : string) (now : Z)
    : Z :=
  match JSMap.get (counter_key identifier) (Cache.counters store) with
  | Some c => if Cache.live now c then fst c else 0
  | None => 0
  end.

(** The middleware on a sequence of requests with their clock readings. *)
Fixpoint serve (windowMs maxRequests : Z) (store : Cache.Counters)
    (requests : list (Request * Z)) : list Response * Cache.Counters :=
  match requests with
  | [] => ([], store)
  | (req, now) :: rest =>
      let '(response, store1) :=
        rateLimiter windowMs maxRequests store req now in
      let '(responses, store2) := serve windowMs maxRequests store1 rest in
      (response :: responses, store2)
  end.

(** The response to the [k]-th request that is counted in a window. *)
Definition kth_response (windowMs maxRequests : Z) (k : nat) : Response := {|
  rateLimit_Limit := maxRequests;
  rateLimit_Remaining := Z.max 0 (maxRequests - Z.of_nat k);
  outcome :=
    if Z.of_nat k >? maxRequests
    then TooManyRequests (ceil_div windowMs 1000)
    else Next
|}.

(** ** Notions that depend on the engine *)

Section WithEngine.
Context `{JSEngine}.

(** What the map holds of a cumulative field [f] once [done] is
    processed. *)
Record dominates (f : Token -> number) (done : list Token)
    (m : JSMap.t Token) : Prop := {
  dom_number : forall k t, JSMap.get k m = Some t -> isNaN (f t) = false;
  dom_above : forall x, In x done ->
      exists t, JSMap.get (key_of x) m = Some t /\ le (f x) (f t) = true;
  dom_attained : forall k t, JSMap.get k m = Some t ->
      exists x, In x done /\ key_of x = k /\ f t = f x
}.


End WithEngine.

End SpecMore.

(* ================================================================= *)
(** * Concrete inputs *)

Module Samples.
Import JSNum JSString Types Spec.

(** A record of the first adapter whose upstream pair had no name. *)
Definition unnamed_pair : Token := {|
  token_address := "So11111111111111111111111111111111111111112";
  token_name := "Unknown";
  token_ticker := "UNKNOWN";
  price_sol := Fin (1 # 4);
  market_cap_sol := of_Z 900;
  volume_sol := of_Z 120;
  liquidity_sol := of_Z 45;
  transaction_count := of_Z 17;
  price_1hr_change := Fin (3 # 2);
  price_24hr_change := Some (of_Z 0);
  price_7d_change := Some (of_Z 0);
  protocol := "raydium";
  dex_id := Some "raydium";
  last_updated := of_Z 1700000000000
|}.

(** The record of the second adapter for the same address. *)
Definition listed_token : Token := {|
  token_address := "So11111111111111111111111111111111111111112";
  token_name := "Wrapped SOL";
  token_ticker := "SOL";
  price_sol := of_Z 0;
  market_cap_sol := of_Z 0;
  volume_sol := of_Z 0;
  liquidity_sol := of_Z 0;
  transaction_count := of_Z 0;
  price_1hr_change := of_Z 0;
  price_24hr_change := Some (of_Z 0);
  price_7d_change := None;
  protocol := "Jupiter";
  dex_id := Some "jupiter";
  last_updated := of_Z 1700000000500
|}.

(** A record at a given address and price. *)
Definition priced (address : string) (price : number) : Token := {|
  token_address := address;
  token_name := "Bonk";
  token_ticker := "BONK";
  price_sol := price;
  market_cap_sol := of_Z 1000;
  volume_sol := of_Z 500;
  liquidity_sol := of_Z 200;
  transaction_count := of_Z 100;
  price_1hr_change := of_Z 5;
  price_24hr_change := None;
  price_7d_change := None;
  protocol := "raydium";
  dex_id := Some "raydium";
  last_updated := of_Z 1700000000000
|}.

(** The response that holds the records [l] on one page. *)
Definition page_of (l : list Token) : TokenResponse :=
  {| tokens := l; next_cursor := None;
     total_count := List.length l; timestamp := 0 |}.

(** The request without any option. *)
Definition no_options : QueryOptions := {|
  limit := None;
  cursor := None;
  time_period := None;
  sort_by := None;
  sort_order := None;
  min_volume := None;
  min_liquidity := None
|}.

(** A request for a negative page size, as [GET /api/tokens?limit=-5] makes
    it. *)
Definition negative_limit : QueryOptions :=
  with_page no_options (Some (of_Z (-5))) None.

(** A request that names the default sort key. *)
Definition by_volume_named : QueryOptions := {|
  limit := None;
  cursor := None;
  time_period := None;
  sort_by := Some by_volume;
  sort_order := None;
  min_volume := Some (of_Z 0);
  min_liquidity := None
|}.

(** Two pages of one filtered and sorted collection. *)
Definition by_market_cap_page2 : QueryOptions := {|
  limit := Some (of_Z 10);
  cursor := Some "MTA=";
  time_period := None;
  sort_by := Some by_market_cap;
  sort_order := Some desc;
  min_volume := Some (of_Z 750);
  min_liquidity := None
|}.

Definition by_market_cap_page1 : QueryOptions :=
  with_page by_market_cap_page2 (Some (of_Z 25)) None.

(** Two failures of an upstream call. *)
Definition unavailable : Error :=
  {| message := "Service Unavailable"; status := Some 503 |}.

Definition not_found : Error :=
  {| message := "Not Found"; status := Some 404 |}.



(** [mockTokens] of the unit tests of the aggregation service. *)
Definition mockTokens : list Token :=
  [ {| token_address := "addr1";
       token_name := "Token A";
       token_ticker := "TKA";
       price_sol := Fin (1 # 2);
       market_cap_sol := of_Z 1000;
       volume_sol := of_Z 500;
       liquidity_sol := of_Z 200;
       transaction_count := of_Z 100;
       price_1hr_change := of_Z 5;
       price_24hr_change := None;
       price_7d_change := None;
       protocol := "Raydium";
       dex_id := None;
       last_updated := of_Z 1700000000000 |};
    {| token_address := "addr2";
       token_name := "Token B";
       token_ticker := "TKB";
       price_sol := Fin (3 # 2);
       market_cap_sol := of_Z 2000;
       volume_sol := of_Z 1000;
       liquidity_sol := of_Z 400;
       transaction_count := of_Z 200;
       price_1hr_change := of_Z (-3);
       price_24hr_change := None;
       price_7d_change := None;
       protocol := "Orca";
       dex_id := None;
       last_updated := of_Z 1700000000000 |} ].

(** A record with another volume. *)
Definition with_volume (t : Token) (v : number) : Token := {|
  token_address := token_address t;
  token_name := token_name t;
  token_ticker := token_ticker t;
  price_sol := price_sol t;
  market_cap_sol := market_cap_sol t;
  volume_sol := v;
  liquidity_sol := liquidity_sol t;
  transaction_count := transaction_count t;
  price_1hr_change := price_1hr_change t;
  price_24hr_change := price_24hr_change t;
  price_7d_change := price_7d_change t;
  protocol := protocol t;
  dex_id := dex_id t;
  last_updated := last_updated t
|}.

(** Option sets of the unit tests. *)
Definition sorted_by (s : SortBy) (o : SortOrder) : QueryOptions := {|
  limit := None;
  cursor := None;
  time_period := None;
  sort_by := Some s;
  sort_order := Some o;
  min_volume := None;
  min_liquidity := None
|}.

Definition filtered_by (v l : option number) : QueryOptions := {|
  limit := None;
  cursor := None;
  time_period := None;
  sort_by := None;
  sort_order := None;
  min_volume := v;
  min_liquidity := l
|}.

(** An engine that shows a number that is not integral as its reduced
    fraction, so that equal values have one text. *)
Definition reduced_engine : JSEngine := {|
  toLowerCase := ascii_toLowerCase;
  fracToString := fun q =>
    (Z_toString (Qnum (Qred q)) ++ "/" ++ Z_toString (Zpos (Qden (Qred q))))%string
|}.

(** A cache that cannot be reached. *)
Definition redis_down : Cache.Redis :=
  {| Cache.reachable := false; Cache.entries := JSMap.empty |}.

(** Redis reachable and without entries. *)
Definition redis_up : Cache.Redis :=
  {| Cache.reachable := true; Cache.entries := JSMap.empty |}.

(** An upstream that is unavailable once and then returns the test
    records. *)
Definition flaky_then_up (attempt : nat) : Promise (list Token) :=
  if (attempt <? 1)%nat then Rejected unavailable else Fulfilled mockTokens.

(** A request from the address 10.0.0.7. *)
Definition from_client : RateLimitMiddleware.Request :=
  {| RateLimitMiddleware.ip := Some "10.0.0.7";
     RateLimitMiddleware.remoteAddress := None |}.

(** A reachable Redis without counters, and one that cannot be reached. *)
Definition counters_up : Cache.Counters :=
  {| Cache.counters_reachable := true; Cache.counters := JSMap.empty |}.

Definition counters_down : Cache.Counters :=
  {| Cache.counters_reachable := false; Cache.counters := JSMap.empty |}.

End Samples.

(* ================================================================= *)
(** * Properties *)

(** ** Facts about numbers *)

Module JSNumFacts.
Import JSNum Spec.

Lemma Qcompare_self (q : Q) : Qcompare q q = Eq.
Proof. apply Qeq_alt. reflexivity. Qed.

Lemma lt_irrefl (x : number) : lt x x = false.
Proof. destruct x; simpl; trivial. now rewrite Qcompare_self. Qed.

Lemma lt_asym (x y : number) : lt x y = true -> lt y x = false.
Proof.
  destruct x, y; simpl; trivial; try discriminate.
  rewrite <- (Qcompare_antisym q q0).
  destruct (Qcompare q q0); simpl; trivial; discriminate.
Qed.

Lemma le_refl (x : number) : isNaN x = false -> le x x = true.
Proof. destruct x; simpl; try discriminate; trivial. now rewrite Qcompare_self. Qed.

Lemma lt_le (x y : number) : lt x y = true -> le x y = true.
Proof.
  intros H. pose proof (lt_asym _ _ H) as Ha.
  destruct x, y; simpl in *; try discriminate; trivial; now rewrite Ha.
Qed.

Lemma Math_max_nan (a b : number) :
  isNaN a || isNaN b = true -> Math_max a b = NaN.
Proof. destruct a, b; simpl; trivial; discriminate. Qed.

Lemma Math_max_greatest (a b : number) :
  isNaN a = false -> isNaN b = false -> greatest_of a b (Math_max a b).
Proof.
  intros Ha Hb. unfold greatest_of.
  assert (Hm : Math_max a b = if lt a b then b else a)
    by (destruct a, b; simpl in *; trivial; discriminate).
  rewrite Hm. destruct (lt a b) eqn:Hlt.
  - split; [now right | split; [now apply lt_le | now apply le_refl]].
  - split; [now left | split; [now apply le_refl |]].
    destruct a, b; simpl in *; try discriminate; trivial; now rewrite Hlt.
Qed.

Lemma Math_min_least (a b : number) :
  isNaN a = false -> isNaN b = false -> least_of a b (Math_min a b).
Proof.
  intros Ha Hb. unfold least_of.
  assert (Hm : Math_min a b = if lt b a then b else a)
    by (destruct a, b; simpl in *; trivial; discriminate).
  rewrite Hm. destruct (lt b a) eqn:Hlt.
  - split; [now right | split; [now apply lt_le | now apply le_refl]].
  - split; [now left | split; [now apply le_refl |]].
    destruct a, b; simpl in *; try discriminate; trivial; now rewrite Hlt.
Qed.

End JSNumFacts.

(* ================================================================= *)
(** ** Round trips of the built-ins behind the cursor *)

Module Builtins.
Import JSNum JSString.

Local Open Scope N_scope.

Lemma below_64 (P : N -> Prop) :
  (forall k : nat, (k < 64)%nat -> P (N.of_nat k)) ->
  forall n : N, n < 64 -> P n.
Proof.
  intros Hk n Hn. rewrite <- (N2Nat.id n). apply Hk. lia.
Qed.

Lemma base64_value_char (n : N) :
  n < 64 -> base64_value (base64_char n) = Some n.
Proof.
  revert n. apply below_64. intros k Hk.
  do 64 (destruct k as [| k]; [reflexivity |]). lia.
Qed.

Lemma base64_char_not_padding (n : N) :
  n < 64 -> Ascii.eqb (base64_char n) "="%char = false.
Proof.
  revert n. apply below_64. intros k Hk.
  do 64 (destruct k as [| k]; [reflexivity |]). lia.
Qed.

Lemma sextets_char (n : N) (rest : string) :
  n < 64 ->
  base64_sextets (String (base64_char n) rest) = n :: base64_sextets rest.
Proof.
  intros Hn. cbn [base64_sextets].
  now rewrite base64_char_not_padding, base64_value_char.
Qed.

Lemma code_bounded (a : ascii) : code a < 256.
Proof. apply N_ascii_bounded. Qed.

Lemma ascii_code (a : ascii) : ascii_of_N (code a) = a.
Proof. apply ascii_N_embedding. Qed.

Lemma split_byte (x : N) (d : N) :
  d <> 0 -> (x / d) * d + x mod d = x.
Proof. intros Hd. rewrite N.mul_comm. symmetry. now apply N.div_mod. Qed.

(** The three bytes are recovered from the four 6-bit groups. *)
Lemma regroup (x y z : N) :
  x < 256 -> y < 256 -> z < 256 ->
  let a := x / 4 in
  let b := (x mod 4) * 16 + y / 16 in
  let c := (y mod 16) * 4 + z / 64 in
  let d := z mod 64 in
  (a < 64 /\ b < 64 /\ c < 64 /\ d < 64)
  /\ a * 4 + b / 16 = x
  /\ (b mod 16) * 16 + c / 4 = y
  /\ (c mod 4) * 64 + d = z.
Proof.
  intros Hx Hy Hz. cbv zeta.
  pose proof (N.div_mod x 4 ltac:(lia)) as Ex.
  pose proof (N.mod_lt x 4 ltac:(lia)) as Mx.
  pose proof (N.div_mod y 16 ltac:(lia)) as Ey.
  pose proof (N.mod_lt y 16 ltac:(lia)) as My.
  pose proof (N.div_mod z 64 ltac:(lia)) as Ez.
  pose proof (N.mod_lt z 64 ltac:(lia)) as Mz.
  assert (Hb : ((x mod 4) * 16 + y / 16) / 16 = x mod 4
               /\ ((x mod 4) * 16 + y / 16) mod 16 = y / 16).
  { assert (Hq : y / 16 < 16) by (apply N.Div0.div_lt_upper_bound; lia).
    rewrite (N.add_comm _ (y / 16)).
    rewrite N.div_add by lia. rewrite N.Div0.mod_add.
    rewrite (N.div_small (y / 16) 16), (N.mod_small (y / 16) 16) by lia.
    lia. }
  assert (Hc : ((y mod 16) * 4 + z / 64) / 4 = y mod 16
               /\ ((y mod 16) * 4 + z / 64) mod 4 = z / 64).
  { assert (Hq : z / 64 < 4) by (apply N.Div0.div_lt_upper_bound; lia).
    rewrite (N.add_comm _ (z / 64)).
    rewrite N.div_add by lia. rewrite N.Div0.mod_add.
    rewrite (N.div_small (z / 64) 4), (N.mod_small (z / 64) 4) by lia.
    lia. }
  destruct Hb as [Hb1 Hb2], Hc as [Hc1 Hc2].
  rewrite Hb1, Hb2, Hc1, Hc2.
  assert (Hxq : x / 4 < 64) by (apply N.Div0.div_lt_upper_bound; lia).
  assert (Hyq : y / 16 < 16) by (apply N.Div0.div_lt_upper_bound; lia).
  assert (Hzq : z / 64 < 4) by (apply N.Div0.div_lt_upper_bound; lia).
  repeat split; lia.
Qed.

(** [Buffer.from(buf.toString('base64'), 'base64')] gives the bytes back. *)
Lemma base64_decode_encode_bounded (n : nat) :
  forall bytes : string,
    (String.length bytes <= n)%nat ->
    base64_decode (base64_encode bytes) = bytes.
Proof.
  unfold base64_decode.
  induction n as [| n IH]; intros bytes Hlen.
  - destruct bytes; [reflexivity | simpl in Hlen; lia].
  - destruct bytes as [| a [| b [| c rest]]]; [reflexivity | | |].
    + cbn [base64_encode].
      destruct (regroup (code a) 0 0 (code_bounded a) ltac:(lia) ltac:(lia))
        as ((Ha & Hb & _ & _) & E1 & _ & _).
      cbn [N.div N.modulo] in *. change (0 / 16) with 0 in *.
      rewrite N.add_0_r in *.
      rewrite !sextets_char by assumption.
      cbn [base64_sextets Ascii.eqb Bool.eqb bytes_of_sextets].
      simpl base64_sextets. cbn [bytes_of_sextets].
      now rewrite E1, ascii_code.
    + cbn [base64_encode].
      destruct (regroup (code a) (code b) 0
                  (code_bounded a) (code_bounded b) ltac:(lia))
        as ((Ha & Hb & Hc & _) & E1 & E2 & _).
      change (0 / 64) with 0 in *. rewrite N.add_0_r in *.
      rewrite !sextets_char by assumption.
      simpl base64_sextets. cbn [bytes_of_sextets].
      now rewrite E1, E2, !ascii_code.
    + cbn [base64_encode].
      destruct (regroup (code a) (code b) (code c)
                  (code_bounded a) (code_bounded b) (code_bounded c))
        as ((Ha & Hb & Hc & Hd) & E1 & E2 & E3).
      rewrite !sextets_char by assumption.
      cbn [bytes_of_sextets].
      rewrite E1, E2, E3, !ascii_code.
      rewrite IH; [reflexivity |]. simpl in Hlen. lia.
Qed.

Lemma base64_decode_encode (bytes : string) :
  base64_decode (base64_encode bytes) = bytes.
Proof. now apply (base64_decode_encode_bounded (String.length bytes)). Qed.

(** *** Decimal digits *)

Ltac eval_digit :=
  match goal with
  | |- context [digit_value 10 ?c] =>
      let v := eval vm_compute in (digit_value 10 c) in
      change (digit_value 10 c) with v; cbv iota
  end.

Lemma leading_digits_acc (d : Decimal.uint) (acc : positive) :
  leading_digits 10 (NilEmpty.string_of_uint d) (Some (N.pos acc))
  = Some (N.pos (Pos.of_uint_acc d acc)).
Proof.
  revert acc.
  induction d; intros acc; cbn [NilEmpty.string_of_uint Pos.of_uint_acc];
    [reflexivity | ..];
    cbn [leading_digits]; eval_digit;
    rewrite <- IHd; do 2 f_equal; lia.
Qed.

Lemma leading_digits_zero (d : Decimal.uint) :
  leading_digits 10 (NilEmpty.string_of_uint d) (Some 0)
  = Some (Pos.of_uint d).
Proof.
  induction d; cbn [NilEmpty.string_of_uint Pos.of_uint];
    [reflexivity | ..];
    cbn [leading_digits]; eval_digit;
    solve [assumption | apply leading_digits_acc].
Qed.

Lemma leading_digits_uint (d : Decimal.uint) :
  d <> Decimal.Nil ->
  leading_digits 10 (NilEmpty.string_of_uint d) None = Some (Pos.of_uint d).
Proof.
  intros Hd. rewrite <- leading_digits_zero.
  destruct d; [contradiction | ..]; reflexivity.
Qed.

(** A string of decimal digits carries neither white space, a sign nor a
    radix prefix. *)
Lemma parseInt_uint (d : Decimal.uint) :
  d <> Decimal.Nil ->
  parseInt (NilEmpty.string_of_uint d) = of_Z (Z.of_N (Pos.of_uint d))
  /\ parseInt (String "-"%char (NilEmpty.string_of_uint d))
     = of_Z (- Z.of_N (Pos.of_uint d)).
Proof.
  intros Hd. pose proof (leading_digits_uint d Hd) as Hl.
  destruct d as [| l | l | l | l | l | l | l | l | l | l];
    [contradiction | ..];
    cbn [NilEmpty.string_of_uint] in *;
    (destruct l as [| l | l | l | l | l | l | l | l | l | l];
     [| destruct l as [| l | l | l | l | l | l | l | l | l | l] ..]);
    cbn [NilEmpty.string_of_uint] in *;
    unfold parseInt; cbn [trimStart]; cbn -[leading_digits of_Z Z.of_N];
    rewrite Hl; split; reflexivity.
Qed.

Lemma to_uint_nonnil (p : positive) : Pos.to_uint p <> Decimal.Nil.
Proof.
  intros E. pose proof (DecimalPos.Unsigned.of_to p) as H.
  rewrite E in H. discriminate.
Qed.

Lemma string_of_uint_nonnil (d : Decimal.uint) :
  d <> Decimal.Nil -> NilZero.string_of_uint d = NilEmpty.string_of_uint d.
Proof. destruct d; [contradiction | reflexivity ..]. Qed.

(** [parseInt(String(n))] is [n] for every integer. *)
Lemma parseInt_Z_toString (z : Z) : parseInt (Z_toString z) = of_Z z.
Proof.
  unfold Z_toString.
  destruct z as [| p | p]; [reflexivity | |];
    cbn [Z.to_int NilZero.string_of_int];
    pose proof (to_uint_nonnil p) as Hp;
    destruct (parseInt_uint _ Hp) as [Hpos Hneg];
    rewrite (string_of_uint_nonnil _ Hp);
    first [rewrite Hpos | rewrite Hneg];
    rewrite DecimalPos.Unsigned.of_to; reflexivity.
Qed.

End Builtins.

(* ================================================================= *)
(** ** Merging two records of one address *)

Module MergeSingle.
Import JSNum JSString Types AggregationService Spec Samples JSNumFacts.

Lemma or_first {A : Type} `{ToBoolean A} (a b : A) :
  truthy a = true -> or_else a b = a.
Proof. unfold or_else. now intros ->. Qed.

Lemma or_second {A : Type} `{ToBoolean A} (a b : A) :
  truthy a = false -> or_else a b = b.
Proof. unfold or_else. now intros ->. Qed.

Lemma informative_truthy (s : string) : informative s = true -> truthy s = true.
Proof. destruct s; simpl; [discriminate | trivial]. Qed.

Lemma informative_not_Unknown (s : string) :
  informative s = true -> String.eqb s "Unknown" = false.
Proof.
  unfold informative. intros H. apply andb_prop in H as [_ H].
  now apply negb_true_iff in H.
Qed.

Lemma Math_max_takes_greater (a b : number) : takes_greater a b (Math_max a b).
Proof. split; [reflexivity | apply Math_max_greatest]. Qed.

Lemma or_else_keeps_first {A : Type} `{ToBoolean A} (a b : A) :
  keeps_first a b (or_else a b).
Proof. split; [apply or_first | apply or_second]. Qed.

Lemma or_else_keeps_first_text (a b : string) :
  keeps_first_text a b (or_else a b).
Proof.
  split.
  - intros Ha. apply or_first. now apply informative_truthy.
  - now intros ->.
Qed.

Lemma or_else_keeps_first_optional_text (a b : option string) :
  keeps_first_optional_text a b (or_else a b).
Proof.
  split.
  - intros s -> Hs. apply or_first. exact (informative_truthy s Hs).
  - intros [-> | ->]; reflexivity.
Qed.

(** C1, as the code has it.  The merged record keeps the first record's
    address.  Each of market cap, volume, liquidity, transaction count and
    last-updated is [Math.max] of the two values: the greater one when
    neither is [NaN].  Each identity field keeps the first record's value
    when that value is informative (present, non-empty or non-zero, and not
    ["Unknown"]) and takes the second record's value when the first
    record's value is the field's missing marker: empty or absent for name,
    ticker and dex identifier; zero, [NaN] or absent for the price and the
    percentage changes; ["Unknown"] for the protocol label. *)
Theorem mergeSingleToken_fields (token1 token2 : Token) :
  let merged := mergeSingleToken token1 token2 in
  token_address merged = token_address token1
  /\ takes_greater (market_cap_sol token1) (market_cap_sol token2)
       (market_cap_sol merged)
  /\ takes_greater (volume_sol token1) (volume_sol token2) (volume_sol merged)
  /\ takes_greater (liquidity_sol token1) (liquidity_sol token2)
       (liquidity_sol merged)
  /\ takes_greater (transaction_count token1) (transaction_count token2)
       (transaction_count merged)
  /\ takes_greater (last_updated token1) (last_updated token2)
       (last_updated merged)
  /\ keeps_first_text (token_name token1) (token_name token2)
       (token_name merged)
  /\ keeps_first_text (token_ticker token1) (token_ticker token2)
       (token_ticker merged)
  /\ keeps_first (price_sol token1) (price_sol token2) (price_sol merged)
  /\ keeps_first (price_1hr_change token1) (price_1hr_change token2)
       (price_1hr_change merged)
  /\ keeps_first (price_24hr_change token1) (price_24hr_change token2)
       (price_24hr_change merged)
  /\ keeps_first (price_7d_change token1) (price_7d_change token2)
       (price_7d_change merged)
  /\ keeps_first_label (protocol token1) (protocol token2) (protocol merged)
  /\ keeps_first_optional_text (dex_id token1) (dex_id token2) (dex_id merged).
Proof.
  intros merged. subst merged. cbn [mergeSingleToken token_address
    token_name token_ticker price_sol market_cap_sol volume_sol liquidity_sol
    transaction_count price_1hr_change price_24hr_change price_7d_change
    protocol dex_id last_updated].
  repeat match goal with
         | |- _ /\ _ => split
         | |- takes_greater _ _ _ => apply Math_max_takes_greater
         | |- keeps_first _ _ _ => apply or_else_keeps_first
         | |- keeps_first_text _ _ _ => apply or_else_keeps_first_text
         | |- keeps_first_optional_text _ _ _ =>
             apply or_else_keeps_first_optional_text
         end.
  - reflexivity.
  - split.
    + intros Hi. now rewrite (informative_not_Unknown _ Hi).
    + now intros ->.
Qed.

(** Name, ticker and dex identifier are tested for truthiness only, and the
    protocol label only against ["Unknown"]. *)
Lemma mergeSingleToken_text (token1 token2 : Token) :
  let merged := mergeSingleToken token1 token2 in
  token_name merged
  = (if String.eqb (token_name token1) "" then token_name token2
     else token_name token1)
  /\ token_ticker merged
     = (if String.eqb (token_ticker token1) "" then token_ticker token2
        else token_ticker token1)
  /\ protocol merged
     = (if String.eqb (protocol token1) "Unknown" then protocol token2
        else protocol token1).
Proof.
  simpl. unfold or_else.
  destruct (token_name token1), (token_ticker token1),
    (String.eqb (protocol token1) "Unknown"); repeat split.
Qed.

(** The record assembled by the first adapter for a pair whose base token
    has no name, and the second adapter's record of the same address: the
    first informative name is ["Wrapped SOL"], the merged name is
    ["Unknown"]. *)
Lemma mergeSingleToken_keeps_Unknown_name :
  token_address unnamed_pair = token_address listed_token
  /\ first_informative [token_name unnamed_pair; token_name listed_token]
     = Some "Wrapped SOL"
  /\ token_name (mergeSingleToken unnamed_pair listed_token) = "Unknown".
Proof. repeat split. Qed.

(** The two sample records merged in either order. *)
Lemma mergeSingleToken_fields_witness :
  greatest_of (volume_sol unnamed_pair) (volume_sol listed_token)
    (volume_sol (mergeSingleToken unnamed_pair listed_token))
  /\ price_sol (mergeSingleToken listed_token unnamed_pair)
     = price_sol unnamed_pair
  /\ token_name (mergeSingleToken listed_token unnamed_pair) = "Wrapped SOL"
  /\ protocol (mergeSingleToken listed_token unnamed_pair) = "Jupiter".
Proof.
  pose proof (mergeSingleToken_fields unnamed_pair listed_token)
    as (_ & _ & Hvolume & _).
  pose proof (mergeSingleToken_fields listed_token unnamed_pair)
    as (_ & _ & _ & _ & _ & _ & Hname & _ & Hprice & _ & _ & _ & Hlabel & _).
  split; [| split; [| split]].
  - apply (proj2 Hvolume); reflexivity.
  - apply (proj2 Hprice). reflexivity.
  - apply (proj1 Hname). reflexivity.
  - apply (proj1 Hlabel). reflexivity.
Defined.

End MergeSingle.

(* ================================================================= *)
(** ** Facts about [Map] *)

Module JSMapFacts.
Import JSMap.

Section Facts.
Context {V : Type}.
Implicit Types (m : JSMap.t V) (k : string) (v : V).

Lemma get_None_keys k m : get k m = None <-> ~ In k (keys m).
Proof.
  induction m as [| [k' v'] r IH]; simpl.
  - tauto.
  - destruct (String.eqb_spec k k') as [-> | Hne].
    + split; [discriminate | intros Hn; exfalso; apply Hn; now left].
    + rewrite IH. split.
      * intros Hn [He | Hin]; [now apply Hne | now apply Hn].
      * intros Hn Hin. apply Hn. now right.
Qed.

Lemma get_Some_In k v m : get k m = Some v -> In (k, v) m.
Proof.
  induction m as [| [k' v'] r IH]; simpl; [discriminate |].
  destruct (String.eqb_spec k k') as [-> | Hne].
  - intros [= ->]. now left.
  - intros Hg. right. now apply IH.
Qed.

Lemma set_fresh k v m : get k m = None -> set k v m = m ++ [(k, v)].
Proof.
  induction m as [| [k' v'] r IH]; simpl; [trivial |].
  destruct (String.eqb_spec k k') as [-> | Hne]; [discriminate |].
  intros Hg. now rewrite IH.
Qed.

Lemma keys_set_present k v v0 m : get k m = Some v0 -> keys (set k v m) = keys m.
Proof.
  induction m as [| [k' v'] r IH]; simpl; [discriminate |].
  destruct (String.eqb_spec k k') as [-> | Hne]; [trivial |].
  intros Hg. simpl. f_equal. now apply IH.
Qed.

Lemma In_set k v m k' v' :
  In (k', v') (set k v m) -> (k' = k /\ v' = v) \/ In (k', v') m.
Proof.
  induction m as [| [k0 v0] r IH]; simpl.
  - intros [[= <- <-] | []]. now left.
  - destruct (String.eqb_spec k k0) as [-> | Hne]; simpl.
    + intros [[= <- <-] | Hin]; [now left | right; now right].
    + intros [He | Hin]; [right; now left |].
      destruct (IH Hin) as [Hl | Hr]; [now left | right; now right].
Qed.

Lemma length_set k v m : (List.length (set k v m) <= S (List.length m))%nat.
Proof.
  induction m as [| [k0 v0] r IH]; simpl; [lia |].
  destruct (String.eqb k k0); simpl; lia.
Qed.

Lemma NoDup_keys_set k v m : NoDup (keys m) -> NoDup (keys (set k v m)).
Proof.
  intros Hnd. destruct (get k m) as [v0 |] eqn:Hg.
  - now rewrite (keys_set_present _ _ _ _ Hg).
  - rewrite (set_fresh _ _ _ Hg). unfold keys. rewrite map_app. simpl.
    apply NoDup_app; [exact Hnd | repeat constructor; simpl; tauto |].
    intros x Hx [<- | []]. now apply (proj1 (get_None_keys _ _) Hg).
Qed.

Lemma In_keys_set k v m k' : In k' (keys m) -> In k' (keys (set k v m)).
Proof.
  intros Hin. destruct (get k m) as [v0 |] eqn:Hg.
  - now rewrite (keys_set_present _ _ _ _ Hg).
  - rewrite (set_fresh _ _ _ Hg). unfold keys. rewrite map_app.
    apply in_or_app. now left.
Qed.

Lemma In_keys_set_same k v m : In k (keys (set k v m)).
Proof.
  destruct (get k m) as [v0 |] eqn:Hg.
  - rewrite (keys_set_present _ _ _ _ Hg).
    apply get_Some_In in Hg. unfold keys.
    change k with (fst (k, v0)). now apply in_map.
  - rewrite (set_fresh _ _ _ Hg). unfold keys. rewrite map_app.
    apply in_or_app. right. now left.
Qed.

End Facts.
End JSMapFacts.

(* ================================================================= *)
(** ** Merging a list of records *)

Module MergeTokens.
Import JSNum JSString Types AggregationService Spec JSMapFacts.

Section WithEngine.
Context `{JSEngine}.

Lemma first_at_app_found k l1 l2 t :
  first_at k l1 = Some t -> first_at k (l1 ++ l2) = Some t.
Proof.
  unfold first_at. induction l1 as [| x r IH]; simpl; [discriminate |].
  destruct (String.eqb (key_of x) k); trivial.
Qed.

Lemma first_at_app_fresh k l1 l2 :
  (forall x, In x l1 -> key_of x <> k) ->
  first_at k (l1 ++ l2) = first_at k l2.
Proof.
  unfold first_at. induction l1 as [| x r IH]; simpl; intros Hall; trivial.
  destruct (String.eqb_spec (key_of x) k) as [He | Hne].
  - exfalso. apply (Hall x); auto.
  - apply IH. intros y Hy. apply Hall. now right.
Qed.

Lemma merged_so_far_empty : merged_so_far [] JSMap.empty.
Proof.
  split; simpl; try constructor; try tauto.
Qed.

Lemma merged_so_far_step seen m token :
  merged_so_far seen m ->
  merged_so_far (seen ++ [token]) (mergeStep m token).
Proof.
  intros [Hnd Hentry Hseen Hsize]. unfold mergeStep. fold (key_of token).
  destruct (JSMap.get (key_of token) m) as [existing |] eqn:Hget.
  - (* the address was seen before: merge into the entry *)
    pose proof (get_Some_In _ _ _ Hget) as Hin.
    destruct (Hentry _ _ Hin) as [Hk (first & Hfirst & Haddr)].
    split.
    + now apply NoDup_keys_set.
    + intros k t Hkt. apply In_set in Hkt as [[-> ->] | Hold].
      * split.
        -- unfold key_of at 2. simpl. exact Hk.
        -- exists first. split; [now apply first_at_app_found | exact Haddr].
      * destruct (Hentry _ _ Hold) as [Hk' (f' & Hf' & Ha')].
        split; [exact Hk' |]. exists f'. split; [| exact Ha'].
        now apply first_at_app_found.
    + intros x Hx. apply in_app_or in Hx as [Hx | [<- | []]].
      * apply In_keys_set. now apply Hseen.
      * apply In_keys_set_same.
    + rewrite length_app. simpl.
      assert (Hl : List.length (JSMap.set (key_of token)
                     (mergeSingleToken existing token) m) = List.length m).
      { pose proof (keys_set_present (key_of token)
                      (mergeSingleToken existing token) _ m Hget) as Hks.
        apply (f_equal (@List.length string)) in Hks.
        unfold JSMap.keys in Hks. now rewrite !length_map in Hks. }
      rewrite Hl. lia.
  - (* a new address: the record is filed as it is *)
    pose proof (proj1 (get_None_keys _ _) Hget) as Hfresh.
    split.
    + now apply NoDup_keys_set.
    + intros k t Hkt. apply In_set in Hkt as [[-> ->] | Hold].
      * split; [reflexivity |]. exists token. split; [| reflexivity].
        rewrite first_at_app_fresh.
        -- unfold first_at. simpl. now rewrite String.eqb_refl.
        -- intros x Hx He. apply Hfresh. rewrite <- He. now apply Hseen.
      * destruct (Hentry _ _ Hold) as [Hk' (f' & Hf' & Ha')].
        split; [exact Hk' |]. exists f'. split; [| exact Ha'].
        now apply first_at_app_found.
    + intros x Hx. apply in_app_or in Hx as [Hx | [<- | []]].
      * apply In_keys_set. now apply Hseen.
      * apply In_keys_set_same.
    + rewrite length_app. simpl. pose proof (length_set (key_of token) token m).
      lia.
Qed.

Lemma merged_so_far_all tokens :
  merged_so_far tokens (fold_left mergeStep tokens JSMap.empty).
Proof.
  induction tokens as [| token seen IH] using rev_ind.
  - apply merged_so_far_empty.
  - rewrite fold_left_app. simpl. now apply merged_so_far_step.
Qed.

Lemma keys_of_values (m : JSMap.t Token) :
  (forall k t, In (k, t) m -> k = key_of t) ->
  map key_of (JSMap.values m) = JSMap.keys m.
Proof.
  unfold JSMap.values, JSMap.keys.
  induction m as [| [k t] r IH]; simpl; intros Hk; trivial.
  rewrite <- (Hk k t) by now left. f_equal. apply IH.
  intros k' t' Hin. apply Hk. now right.
Qed.

(** C9.  The output of [mergeTokens] has at most one record per
    lower-cased address; the [token_address] of each output record is that
    of the first input record filed under its lower-cased address; and the
    output is no longer than the input. *)
Theorem mergeTokens_one_per_address (tokens : list Token) :
  let merged := mergeTokens tokens in
  NoDup (map key_of merged)
  /\ (forall t, In t merged ->
        exists first, first_at (key_of t) tokens = Some first
                      /\ token_address t = token_address first)
  /\ (List.length merged <= List.length tokens)%nat.
Proof.
  intros merged. subst merged. unfold mergeTokens.
  destruct (merged_so_far_all tokens) as [Hnd Hentry _ Hsize].
  set (m := fold_left mergeStep tokens JSMap.empty) in *.
  split; [| split].
  - rewrite keys_of_values; [exact Hnd |].
    intros k t Hin. now apply Hentry.
  - intros t Hin. unfold JSMap.values in Hin.
    apply in_map_iff in Hin as ([k t'] & Heq & Hin). simpl in Heq. subst t'.
    destruct (Hentry _ _ Hin) as [Hk Hex]. now rewrite <- Hk.
  - unfold JSMap.values. now rewrite length_map.
Qed.

End WithEngine.
End MergeTokens.

(* ================================================================= *)
(** ** Pagination *)

Module Pagination.
Import JSNum JSString Types AggregationService Spec Samples JSNumFacts.

Lemma pageLimit_requested (options : QueryOptions) :
  pageLimit options = Math_min (requestedLimit options) Config.pagination_maxLimit.
Proof. reflexivity. Qed.

Lemma requestedLimit_number (options : QueryOptions) :
  isNaN (requestedLimit options) = false.
Proof.
  unfold requestedLimit, or_default.
  destruct (limit options) as [l |]; [destruct (truthy l) eqn:Ht |]; trivial.
  destruct l; trivial; discriminate.
Qed.

Lemma le_of_Qle (a b : Q) : (a <= b)%Q -> le (Fin a) (Fin b) = true.
Proof.
  intros Hle. simpl. destruct (Qcompare b a) eqn:Hc; trivial.
  apply Qlt_alt in Hc. exfalso. now apply (Qlt_not_le _ _ Hc).
Qed.

Lemma Qle_of_le (a b : Q) : le (Fin a) (Fin b) = true -> (a <= b)%Q.
Proof.
  simpl. destruct (Qcompare b a) eqn:Hc; try discriminate; intros _.
  - apply Qeq_alt in Hc. rewrite Hc. apply Qle_refl.
  - apply Qgt_alt in Hc. now apply Qlt_le_weak.
Qed.

Lemma le_trans (x y z : number) :
  le x y = true -> le y z = true -> le x z = true.
Proof.
  destruct x, y, z; simpl; trivial; try discriminate.
  intros H1 H2. apply (le_of_Qle q q1).
  apply Qle_trans with q0; now apply Qle_of_le.
Qed.

Lemma Qtrunc_inject (k : Z) : Qtrunc (inject_Z k) = k.
Proof. unfold Qtrunc. simpl. apply Z.quot_1_r. Qed.

(** Adding at least one to a non-negative integer moves its truncation by
    at least one. *)
Lemma Qtrunc_add_ge (k : Z) (q : Q) :
  0 <= k -> (1 <= q)%Q -> k + 1 <= Qtrunc (inject_Z k + q).
Proof.
  intros Hk Hq. destruct q as [n d]. unfold Qle in Hq. simpl in Hq.
  unfold Qtrunc, Qplus. simpl.
  assert (Hn : Z.pos d <= n) by lia.
  rewrite Z.quot_div_nonneg by nia.
  apply Z.div_le_lower_bound; [lia | nia].
Qed.

Lemma slice_nonempty {A : Type} (l : list A) (k : Z) (stop : number) :
  0 <= k < Z.of_nat (List.length l) ->
  k + 1 <= slice_index (Z.of_nat (List.length l)) stop ->
  Array_slice l (of_Z k) stop <> [].
Proof.
  intros Hk Hstop. unfold Array_slice.
  set (len := Z.of_nat (List.length l)) in *.
  assert (Hs : slice_index len (of_Z k) = k).
  { unfold of_Z, slice_index. rewrite Qtrunc_inject.
    destruct (k <? 0) eqn:Hneg; [lia |]. lia. }
  rewrite Hs.
  destruct (skipn (Z.to_nat k) l) as [| x r] eqn:Hskip.
  - exfalso. apply (f_equal (@List.length A)) in Hskip.
    rewrite length_skipn in Hskip. simpl in Hskip. lia.
  - destruct (Z.to_nat (Z.max (slice_index len stop - k) 0)) eqn:Hn; [lia |].
    simpl. discriminate.
Qed.

Section WithEngine.
Context `{JSEngine}.

(** The effective page size is the smaller of the requested limit and
    [maxLimit]. *)
Lemma pageLimit_least (options : QueryOptions) :
  least_of (requestedLimit options) Config.pagination_maxLimit
    (pageLimit options).
Proof.
  rewrite pageLimit_requested.
  apply Math_min_least; [apply requestedLimit_number | reflexivity].
Qed.

(** A cursor that decodes to no number leaves the page empty, whatever the
    collection and the other options. *)
Lemma applyPagination_NaN_offset (tokens : list Token) (options : QueryOptions)
    (now : Z) :
  startIndexOf options = NaN ->
  Types.tokens (applyPagination tokens options now) = []
  /\ next_cursor (applyPagination tokens options now) = None.
Proof.
  intros Hstart. unfold applyPagination. simpl. now rewrite Hstart.
Qed.

(** C2 at the cursor [YWJj], the encoding of the text [abc]: the offset read
    is [NaN], not 0, and the page over a two-record collection is empty and
    final, whereas the same request without a cursor returns the collection
    from its beginning. *)
Theorem applyPagination_undecodable_cursor (first second : Token) (now : Z) :
  let options := with_page no_options None (Some "YWJj") in
  let page := applyPagination [first; second] options now in
  base64_decode "YWJj" = "abc"
  /\ startIndexOf options = NaN
  /\ tokens page = []
  /\ next_cursor page = None
  /\ total_count page = 2%nat
  /\ tokens (applyPagination [first; second] no_options now) = [first; second].
Proof. repeat split. Qed.

(** C8.  Over a collection of two records, a page of size 1 without a
    cursor holds the first record and a next cursor; the page of size 1 at
    that cursor holds the second record and no further cursor; both report
    a total of 2. *)
Theorem pagination_round_trip (first second : Token) (options : QueryOptions)
    (now1 now2 : Z) :
  let page1 :=
    applyPagination [first; second]
      (with_page options (Some (of_Z 1)) None) now1 in
  tokens page1 = [first]
  /\ total_count page1 = 2%nat
  /\ exists c : string,
       next_cursor page1 = Some c
       /\ let page2 :=
            applyPagination [first; second]
              (with_page options (Some (of_Z 1)) (Some c)) now2 in
          tokens page2 = [second]
          /\ next_cursor page2 = None
          /\ total_count page2 = 2%nat.
Proof.
  simpl. split; [reflexivity | split; [reflexivity |]].
  exists "MQ==". repeat split.
Qed.

End WithEngine.

(** A requested limit of -5 is the effective page size, and the page over a
    collection of one record at offset 0 is empty. *)
Lemma pageLimit_below_one :
  pageLimit negative_limit = of_Z (-5)
  /\ le (of_Z 1) (pageLimit negative_limit) = false
  /\ startIndexOf negative_limit = of_Z 0
  /\ tokens (@applyPagination ascii_engine [listed_token]
               negative_limit 0) = [].
Proof. repeat split. Qed.

End Pagination.

(* ================================================================= *)
(** ** Cache keys *)

Module CacheKey.
Import JSNum JSString Types AggregationService Spec Samples Pagination.
Import Builtins.

Lemma colon_free_append (a b : string) :
  colon_free a = true -> colon_free b = true -> colon_free (a ++ b)%string = true.
Proof.
  induction a as [| c r IH]; simpl; trivial.
  intros Ha Hb. apply andb_prop in Ha as [Hc Hr].
  now rewrite Hc, IH.
Qed.

Lemma colon_free_uint (d : Decimal.uint) :
  colon_free (NilEmpty.string_of_uint d) = true.
Proof. induction d; simpl; trivial. Qed.

Lemma colon_free_Z (z : Z) : colon_free (Z_toString z) = true.
Proof.
  unfold Z_toString, NilZero.string_of_int, NilZero.string_of_uint.
  destruct (Z.to_int z) as [d | d]; destruct d; simpl; trivial;
    apply colon_free_uint.
Qed.

Lemma Z_to_int_proper (z : Z) :
  Z.to_int z <> Decimal.Pos Decimal.Nil /\ Z.to_int z <> Decimal.Neg Decimal.Nil.
Proof.
  destruct z as [| p | p]; simpl; split; try discriminate;
    intros [= Hp]; exact (DecimalPos.Unsigned.to_uint_nonnil p Hp).
Qed.

Lemma Z_toString_inj (a b : Z) : Z_toString a = Z_toString b -> a = b.
Proof.
  unfold Z_toString. intros Heq. apply DecimalZ.to_int_inj.
  destruct (Z_to_int_proper a) as [Ha1 Ha2].
  destruct (Z_to_int_proper b) as [Hb1 Hb2].
  pose proof (NilZero.isi _ Ha1 Ha2) as Ha.
  rewrite Heq, (NilZero.isi _ Hb1 Hb2) in Ha. now injection Ha.
Qed.

(** Splitting a string at its first separator. *)
Lemma split_at_colon (a a' b b' : string) :
  colon_free a = true -> colon_free a' = true ->
  (a ++ ":" ++ b)%string = (a' ++ ":" ++ b')%string ->
  a = a' /\ b = b'.
Proof.
  revert a'. induction a as [| c r IH]; intros [| c' r']; simpl.
  - intros _ _ [= ->]. now split.
  - intros _ Hc [= <- _]. discriminate.
  - intros Hc _ [= -> _]. discriminate.
  - intros Hc Hc' [= -> Hrest].
    apply andb_prop in Hc as [_ Hr]. apply andb_prop in Hc' as [_ Hr'].
    destruct (IH r' Hr Hr' Hrest) as [-> ->]. now split.
Qed.

(** *** Integers and their texts *)

Lemma Qtrunc_Qeq (q q' : Q) : (q == q')%Q -> Qtrunc q = Qtrunc q'.
Proof.
  destruct q as [a b], q' as [a' b']. unfold Qeq, Qtrunc. simpl. intros Heq.
  rewrite <- (Z.quot_mul_cancel_r a (Z.pos b) (Z.pos b')) by lia.
  rewrite <- (Z.quot_mul_cancel_r a' (Z.pos b') (Z.pos b)) by lia.
  rewrite Heq. f_equal. lia.
Qed.

Lemma Qintegral_spec (q : Q) :
  Qintegral q = true <-> (q == inject_Z (Qtrunc q))%Q.
Proof.
  destruct q as [a b]. unfold Qintegral, Qtrunc, Qeq. simpl.
  pose proof (Z.quot_rem' a (Z.pos b)) as Hqr.
  rewrite Z.eqb_eq. split; intros Hz; lia.
Qed.

Lemma Qintegral_Qeq (q q' : Q) : (q == q')%Q -> Qintegral q = Qintegral q'.
Proof.
  intros Heq. pose proof (Qtrunc_Qeq q q' Heq) as Ht.
  destruct (Qintegral q) eqn:E, (Qintegral q') eqn:E'; trivial.
  - apply Qintegral_spec in E. rewrite Ht, Heq in E.
    apply Qintegral_spec in E. congruence.
  - apply Qintegral_spec in E'. rewrite <- Ht, <- Heq in E'.
    apply Qintegral_spec in E'. congruence.
Qed.

Lemma engine_rendered_Qeq (q q' : Q) :
  (q == q')%Q -> engine_rendered q = engine_rendered q'.
Proof.
  intros Heq. unfold engine_rendered.
  now rewrite (Qintegral_Qeq q q' Heq), (Qtrunc_Qeq q q' Heq).
Qed.

(** The text of an integer is none of the three words. *)
Lemma Z_toString_word (z : Z) :
  Z_toString z <> "NaN" /\ Z_toString z <> "Infinity"
  /\ Z_toString z <> "-Infinity".
Proof.
  pose proof (parseInt_Z_toString z) as Hp.
  repeat split; intros Heq; rewrite Heq in Hp; discriminate.
Qed.


Section WithEngine.
Context `{JSEngine}.

Lemma colon_free_number (x : number) :
  colon_free_engine -> colon_free (Number_toString x) = true.
Proof.
  intros Hfrac. destruct x as [| | q |]; try reflexivity.
  unfold Number_toString.
  destruct (Qintegral q && (Z.abs (Qtrunc q) <? 10 ^ 21)).
  - apply colon_free_Z.
  - apply Hfrac.
Qed.

(** Below 10^21 in magnitude, integers are told apart by their rendering. *)
Lemma Number_toString_integers (a b : Z) :
  Z.abs a < 10 ^ 21 -> Z.abs b < 10 ^ 21 ->
  Number_toString (of_Z a) = Number_toString (of_Z b) -> a = b.
Proof.
  intros Ha Hb. unfold Number_toString, of_Z.
  assert (Hint : forall z, Qintegral (inject_Z z) = true).
  { intros z. unfold Qintegral. simpl. now rewrite Z.rem_1_r. }
  rewrite !Hint, !Qtrunc_inject.
  apply Z.ltb_lt in Ha, Hb. rewrite Ha, Hb. simpl. apply Z_toString_inj.
Qed.

Lemma generateCacheKey_parts (o : QueryOptions) :
  generateCacheKey o
  = ("tokens::aggregate:"
     ++ (SortBy_toString (effective_sort_by o)
     ++ ":" ++ (SortOrder_toString (effective_sort_order o)
     ++ ":" ++ (Number_toString (effective_min_volume o)
     ++ ":" ++ Number_toString (effective_min_liquidity o)))))%string.
Proof.
  unfold generateCacheKey, effective_sort_by, effective_sort_order.
  destruct (sort_by o), (sort_order o); reflexivity.
Qed.

Lemma SortBy_prefix (s1 s2 : SortBy) (r1 r2 : string) :
  (SortBy_toString s1 ++ ":" ++ r1)%string
  = (SortBy_toString s2 ++ ":" ++ r2)%string ->
  s1 = s2 /\ r1 = r2.
Proof.
  destruct s1, s2; simpl; intros Heq; try discriminate;
    injection Heq as ->; now split.
Qed.

Lemma SortOrder_prefix (s1 s2 : SortOrder) (r1 r2 : string) :
  (SortOrder_toString s1 ++ ":" ++ r1)%string
  = (SortOrder_toString s2 ++ ":" ++ r2)%string ->
  s1 = s2 /\ r1 = r2.
Proof.
  destruct s1, s2; simpl; intros Heq; try discriminate;
    injection Heq as ->; now split.
Qed.

Hypothesis rendering : number_rendering.

(** Two numbers have the same text exactly when they are the same value. *)
Lemma Number_toString_same (x y : number) :
  Number_toString x = Number_toString y <-> same_number x y.
Proof.
  destruct rendering as [Hvalue Hfraction Hword _].
  assert (Hcase : forall q,
            (engine_rendered q = false
             /\ Number_toString (Fin q) = Z_toString (Qtrunc q)
             /\ (q == inject_Z (Qtrunc q))%Q)
            \/ (engine_rendered q = true
                /\ Number_toString (Fin q) = fracToString q)).
  { intros q. unfold Number_toString, engine_rendered.
    destruct (Qintegral q) eqn:Ei; [| right; now split].
    destruct (Z.abs (Qtrunc q) <? 10 ^ 21); [left | right; now split].
    repeat split. now apply Qintegral_spec. }
  assert (Hwords : forall q,
            Number_toString (Fin q) <> "NaN"
            /\ Number_toString (Fin q) <> "Infinity"
            /\ Number_toString (Fin q) <> "-Infinity").
  { intros q. destruct (Hcase q) as [(_ & -> & _) | (Hr & ->)];
      [apply Z_toString_word | now apply Hword]. }
  assert (ENaN : Number_toString NaN = "NaN") by reflexivity.
  assert (EPos : Number_toString PosInf = "Infinity") by reflexivity.
  assert (ENeg : Number_toString NegInf = "-Infinity") by reflexivity.
  destruct x as [| | q |], y as [| | q' |]; cbn [same_number];
    try (split; [discriminate | contradiction]);
    try (split; trivial; fail);
    try (split; [| contradiction]; intros Heq;
         match goal with
         | q0 : Q |- _ => destruct (Hwords q0) as (H1 & H2 & H3)
         end; congruence).
  destruct (Hcase q) as [(Hr & -> & Hq) | (Hr & ->)],
           (Hcase q') as [(Hr' & -> & Hq') | (Hr' & ->)].
  - split.
    + intros Heq. apply Z_toString_inj in Heq. now rewrite Hq, Hq', Heq.
    + intros Heq. now rewrite (Qtrunc_Qeq q q' Heq).
  - split.
    + intros Heq. symmetry in Heq. now apply Hfraction in Heq.
    + intros Heq. rewrite (engine_rendered_Qeq q q' Heq) in Hr. congruence.
  - split.
    + intros Heq. now apply Hfraction in Heq.
    + intros Heq. rewrite (engine_rendered_Qeq q q' Heq) in Hr. congruence.
  - now apply Hvalue.
Qed.

Lemma generateCacheKey_untyped_parts (sortBy sortOrder : option string)
    (minVolume minLiquidity : option number) :
  generateCacheKey_untyped sortBy sortOrder minVolume minLiquidity
  = ("tokens::aggregate:"
     ++ (or_default sortBy "volume"
     ++ ":" ++ (or_default sortOrder "desc"
     ++ ":" ++ (Number_toString (or_default minVolume (of_Z 0))
     ++ ":" ++ Number_toString (or_default minLiquidity (of_Z 0))))))%string.
Proof. reflexivity. Qed.

(** On the declared sort keys and directions the two readings of
    [generateCacheKey] agree. *)
Lemma generateCacheKey_typed (o : QueryOptions) :
  generateCacheKey o
  = generateCacheKey_untyped
      (option_map SortBy_toString (sort_by o))
      (option_map SortOrder_toString (sort_order o))
      (min_volume o) (min_liquidity o).
Proof.
  unfold generateCacheKey, generateCacheKey_untyped.
  destruct (sort_by o) as [[] |], (sort_order o) as [[] |]; reflexivity.
Qed.

Lemma generateCacheKey_untyped_inj (sortBy sortOrder sortBy' sortOrder' :
    option string) (v l v' l' : option number) :
  colon_free (or_default sortBy "volume") = true ->
  colon_free (or_default sortOrder "desc") = true ->
  colon_free (or_default sortBy' "volume") = true ->
  colon_free (or_default sortOrder' "desc") = true ->
  (generateCacheKey_untyped sortBy sortOrder v l
   = generateCacheKey_untyped sortBy' sortOrder' v' l'
   <-> or_default sortBy "volume" = or_default sortBy' "volume"
       /\ or_default sortOrder "desc" = or_default sortOrder' "desc"
       /\ same_number (or_default v (of_Z 0)) (or_default v' (of_Z 0))
       /\ same_number (or_default l (of_Z 0)) (or_default l' (of_Z 0))).
Proof.
  intros Hsb Hso Hsb' Hso'. rewrite !generateCacheKey_untyped_parts.
  rewrite <- !Number_toString_same. split.
  - intros Heq. injection Heq as Heq.
    apply split_at_colon in Heq as [Hb Heq]; trivial.
    apply split_at_colon in Heq as [Ho Heq]; trivial.
    apply split_at_colon in Heq as [Hv Hl];
      try (apply colon_free_number; apply rendering).
    now repeat split.
  - intros (-> & -> & -> & ->). reflexivity.
Qed.

(** C4, as the code has it.  The key does not depend on the limit and the
    cursor.  It is a function of the four fields as defaulted: an absent
    sort key reads as [volume], an absent direction as [desc], an absent,
    zero or [NaN] threshold as 0; two option sets have the same key exactly
    when they agree on the four defaulted fields, the thresholds as
    numbers.  The same holds of the sort key and direction as they arrive
    at run time, as strings of any content, as long as they hold no colon.
    The engine's rendering of numbers is the one ECMAScript fixes. *)
Theorem generateCacheKey_defaulted (o1 o2 : QueryOptions) :
  (forall (l : option number) (c : option string),
     generateCacheKey (with_page o1 l c) = generateCacheKey o1)
  /\ (generateCacheKey o1 = generateCacheKey o2
      <-> effective_sort_by o1 = effective_sort_by o2
          /\ effective_sort_order o1 = effective_sort_order o2
          /\ same_number (effective_min_volume o1) (effective_min_volume o2)
          /\ same_number (effective_min_liquidity o1)
               (effective_min_liquidity o2))
  /\ (forall sortBy1 sortOrder1 sortBy2 sortOrder2 : option string,
        colon_free (or_default sortBy1 "volume") = true ->
        colon_free (or_default sortOrder1 "desc") = true ->
        colon_free (or_default sortBy2 "volume") = true ->
        colon_free (or_default sortOrder2 "desc") = true ->
        (generateCacheKey_untyped sortBy1 sortOrder1
           (min_volume o1) (min_liquidity o1)
         = generateCacheKey_untyped sortBy2 sortOrder2
             (min_volume o2) (min_liquidity o2)
         <-> or_default sortBy1 "volume" = or_default sortBy2 "volume"
             /\ or_default sortOrder1 "desc" = or_default sortOrder2 "desc"
             /\ same_number (effective_min_volume o1)
                  (effective_min_volume o2)
             /\ same_number (effective_min_liquidity o1)
                  (effective_min_liquidity o2))).
Proof.
  split; [reflexivity |]. split.
  - rewrite !generateCacheKey_parts, <- !Number_toString_same. split.
    + intros Heq. injection Heq as Heq.
      apply SortBy_prefix in Heq as [Hsb Heq].
      apply SortOrder_prefix in Heq as [Hso Heq].
      apply split_at_colon in Heq as [Hmv Hml];
        try (apply colon_free_number; apply rendering).
      now repeat split.
    + intros (-> & -> & -> & ->). reflexivity.
  - intros sortBy1 sortOrder1 sortBy2 sortOrder2.
    apply generateCacheKey_untyped_inj.
Qed.


End WithEngine.

(** An option set that leaves the sort key and the volume threshold out and
    one that names [volume] and 0 differ on those fields and share a
    key. *)
Lemma generateCacheKey_defaults_collide :
  sort_by no_options <> sort_by by_volume_named
  /\ min_volume no_options <> min_volume by_volume_named
  /\ forall E : JSEngine,
       @generateCacheKey E no_options = @generateCacheKey E by_volume_named.
Proof. repeat split; discriminate. Qed.

(** *** An engine with the rendering that ECMAScript fixes *)

Lemma free_of_append (c : ascii) (a b : string) :
  free_of c (a ++ b)%string = free_of c a && free_of c b.
Proof.
  induction a as [| x r IH]; simpl; trivial.
  now rewrite IH, andb_assoc.
Qed.

Lemma slash_free_uint (d : Decimal.uint) :
  free_of "/" (NilEmpty.string_of_uint d) = true.
Proof. induction d; simpl; trivial. Qed.

Lemma slash_free_Z (z : Z) : free_of "/" (Z_toString z) = true.
Proof.
  unfold Z_toString, NilZero.string_of_int, NilZero.string_of_uint.
  destruct (Z.to_int z) as [d | d]; destruct d; simpl; trivial;
    apply slash_free_uint.
Qed.

Lemma split_at (c : ascii) (a a' b b' : string) :
  free_of c a = true -> free_of c a' = true ->
  (a ++ String c b)%string = (a' ++ String c b')%string ->
  a = a' /\ b = b'.
Proof.
  revert a'. induction a as [| x r IH]; intros [| x' r']; simpl.
  - intros _ _ [= ->]. now split.
  - intros _ Hc [= <- _]. rewrite Ascii.eqb_refl in Hc. discriminate.
  - intros Hc _ [= -> _]. rewrite Ascii.eqb_refl in Hc. discriminate.
  - intros Hc Hc' [= -> Hrest].
    apply andb_prop in Hc as [_ Hr]. apply andb_prop in Hc' as [_ Hr'].
    destruct (IH r' Hr Hr' Hrest) as [-> ->]. now split.
Qed.

Lemma reduced_engine_slash (q : Q) :
  free_of "/" (@fracToString reduced_engine q) = false.
Proof.
  cbn [fracToString reduced_engine]. rewrite free_of_append.
  rewrite slash_free_Z. reflexivity.
Qed.

Lemma reduced_engine_rendering : @number_rendering reduced_engine.
Proof.
  split.
  - intros q q' _ _. rewrite <- Qred_eq_iff.
    cbn [fracToString reduced_engine]. split.
    + intros Heq. apply split_at in Heq as [Hn Hd]; try apply slash_free_Z.
      apply Z_toString_inj in Hn, Hd.
      destruct (Qred q), (Qred q'). simpl in *. congruence.
    + now intros ->.
  - intros q z _ Heq. pose proof (reduced_engine_slash q) as Hs.
    rewrite Heq, slash_free_Z in Hs. discriminate.
  - intros q _. pose proof (reduced_engine_slash q) as Hs.
    repeat split; intros Heq; rewrite Heq in Hs; discriminate.
  - intros q. cbn [fracToString reduced_engine].
    apply colon_free_append; [apply colon_free_Z |].
    simpl. apply colon_free_Z.
Qed.

(** The controller hands the two sort strings over as they arrive.  With a
    colon in them two requests that differ in both strings have one key:
    [sort_by=market_cap&sort_order=desc:1] and
    [sort_by=market_cap:desc&sort_order=1]. *)
Lemma generateCacheKey_untyped_collide :
  forall E : JSEngine,
    @generateCacheKey_untyped E (Some "market_cap") (Some "desc:1") None None
    = @generateCacheKey_untyped E (Some "market_cap:desc") (Some "1") None None.
Proof. reflexivity. Qed.

(** Two pages of one collection share a key; thresholds of one half and of
    one quarter are told apart. *)
Lemma generateCacheKey_defaulted_witness :
  @generateCacheKey reduced_engine by_market_cap_page1
  = @generateCacheKey reduced_engine by_market_cap_page2
  /\ @generateCacheKey reduced_engine (filtered_by (Some (Fin (1 # 2))) None)
     <> @generateCacheKey reduced_engine
          (filtered_by (Some (Fin (1 # 4))) None).
Proof.
  split.
  - apply (proj1 (proj2 (@generateCacheKey_defaulted reduced_engine
                           reduced_engine_rendering
                           by_market_cap_page1 by_market_cap_page2))).
    repeat split; reflexivity.
  - intros Heq.
    apply (proj1 (proj2 (@generateCacheKey_defaulted reduced_engine
                           reduced_engine_rendering
                           (filtered_by (Some (Fin (1 # 2))) None)
                           (filtered_by (Some (Fin (1 # 4))) None))))
      in Heq.
    destruct Heq as (_ & _ & Hv & _). discriminate.
Defined.


End CacheKey.

(* ================================================================= *)
(** ** Retry with back-off *)

Module RetryFacts.
Import JSNum Types Retry Spec Samples JSNumFacts.

Lemma nonRetryable_final (e : Error) :
  nonRetryable e = true <-> final_status e.
Proof.
  unfold nonRetryable, final_status. destruct (status e) as [s |].
  - split.
    + intros Hn. apply andb_prop in Hn as [_ Hin]. simpl in Hin.
      repeat (apply orb_prop in Hin as [Hin | Hin]);
        try discriminate; apply Z.eqb_eq in Hin; subst; tauto.
    + intros [[= ->] | [[= ->] | [= ->]]]; reflexivity.
  - split; [discriminate | intros [[=] | [[=] | [=]]]].
Qed.

Section Loop.
Context {T : Type} (fn : nat -> Promise T) (config : RetryConfig).



Lemma retryLoop_S (remaining attempt : nat) (lastError : Error) :
  retryLoop fn config (S remaining) attempt lastError
  = match fn attempt with
    | Fulfilled v => (Fulfilled v, [Invoke attempt])
    | Rejected error =>
        if nonRetryable error then (Rejected error, [Invoke attempt])
        else
          let slept :=
            if (attempt <? maxRetries config)%nat
            then [Sleep (backoffDelay config attempt)]
            else [] in
          let '(result, events) :=
            retryLoop fn config remaining (S attempt) error in
          (result, Invoke attempt :: slept ++ events)
    end.
Proof. reflexivity. Qed.

Lemma retryable_step (i : nat) :
  retryable_failure fn i ->
  exists e, fn i = Rejected e /\ nonRetryable e = false.
Proof.
  intros (e & He & Hn). exists e. split; [exact He |].
  destruct (nonRetryable e) eqn:Hnr; trivial.
  exfalso. apply Hn. now apply nonRetryable_final.
Qed.

(** The loop stops at the first attempt that succeeds or fails for good. *)
Lemma retryLoop_stops (more : nat) :
  forall (remaining first : nat) (lastError : Error) (outcome : Promise T),
    (more < remaining)%nat ->
    (first + more <= maxRetries config)%nat ->
    (forall i, (first <= i < first + more)%nat -> retryable_failure fn i) ->
    fn (first + more)%nat = outcome ->
    match outcome with
    | Fulfilled _ => True
    | Rejected e => final_status e
    end ->
    retryLoop fn config remaining first lastError
    = (outcome, schedule config first more).
Proof.
  induction more as [| m IH];
    intros remaining first lastError outcome Hrem Hmax Hretry Hfn Hstop.
  - destruct remaining as [| r]; [lia |]. rewrite retryLoop_S.
    rewrite Nat.add_0_r in Hfn. rewrite Hfn.
    destruct outcome as [v | e]; [reflexivity |].
    apply nonRetryable_final in Hstop. now rewrite Hstop.
  - destruct remaining as [| r]; [lia |]. rewrite retryLoop_S.
    destruct (retryable_step first) as (e & He & Hnr);
      [apply Hretry; lia |].
    rewrite He, Hnr.
    rewrite (IH r (S first) e outcome); try lia; try assumption.
    + assert (Hlt : (first <? maxRetries config)%nat = true)
        by (apply Nat.ltb_lt; lia).
      now rewrite Hlt.
    + intros i Hi. apply Hretry. lia.
    + now rewrite <- Hfn, Nat.add_succ_r.
Qed.



(** A successful attempt ends the run with its value. *)
Lemma retryWithBackoff_success (k : nat) (v : T) :
  (k <= maxRetries config)%nat ->
  (forall i, (i < k)%nat -> retryable_failure fn i) ->
  fn k = Fulfilled v ->
  retryWithBackoff fn config = (Fulfilled v, schedule config 0 k).
Proof.
  intros Hk Hretry Hfn. unfold retryWithBackoff.
  apply retryLoop_stops; try assumption; try lia; trivial.
  intros i Hi. apply Hretry. lia.
Qed.

(** The delay is the smaller of the grown delay and the cap. *)
Lemma backoffDelay_least (attempt : nat) :
  isNaN (mul (initialDelay config)
           (Math_pow (backoffMultiplier config) attempt)) = false ->
  isNaN (maxDelay config) = false ->
  least_of
    (mul (initialDelay config) (Math_pow (backoffMultiplier config) attempt))
    (maxDelay config)
    (backoffDelay config attempt).
Proof. apply Math_min_least. Qed.

End Loop.

Lemma unavailable_retryable (fn : nat -> Promise (list Token)) (i : nat) :
  fn i = Rejected unavailable -> retryable_failure fn i.
Proof.
  intros Hfn. exists unavailable. split; [exact Hfn |].
  intros [[=] | [[=] | [=]]].
Qed.


End RetryFacts.

(* ================================================================= *)
(** ** The outbound rate limiter *)

Module RateLimiterFacts.
Import Retry Spec.

Lemma acquire_enter_count (l : RateLimiter) (now : Z) :
  match acquire_enter l now with
  | (l', Granted) =>
      count_on_entry l now < maxRequests l
      /\ requestCount l' = count_on_entry l now + 1
  | (l', Waiting _) =>
      maxRequests l <= count_on_entry l now
      /\ requestCount l' = count_on_entry l now
  end
  /\ maxRequests (fst (acquire_enter l now)) = maxRequests l
  /\ windowMs (fst (acquire_enter l now)) = windowMs l.
Proof.
  unfold acquire_enter, count_on_entry.
  destruct (now - windowStart l >=? windowMs l); simpl;
    match goal with
    | |- context [?a <? ?b] => destruct (Z.ltb_spec a b)
    end; simpl; repeat split; lia.
Qed.

Lemma within_budget_step (budget : Z) (s s' : LimiterState) (e : LimiterStep) :
  1 <= budget ->
  within_budget budget s ->
  limiter_step s e = Some s' ->
  within_budget budget s'.
Proof.
  intros Hb [Hmax Hcount]. destruct s as [l sleeping]. simpl in Hmax, Hcount.
  destruct e as [now | now]; simpl.
  - pose proof (acquire_enter_count l now) as (Hcase & Hm & _).
    assert (H0 : 0 <= count_on_entry l now <= budget)
      by (unfold count_on_entry; destruct (_ >=? _); lia).
    destruct (acquire_enter l now) as [l' [| w]]; intros [= <-];
      split; simpl in *; lia.
  - destruct sleeping as [| n]; [discriminate |]. intros [= <-].
    split; simpl; lia.
Qed.

Lemma within_budget_run (budget : Z) (steps : list LimiterStep) :
  forall s s' : LimiterState,
    1 <= budget ->
    within_budget budget s ->
    limiter_run s steps = Some s' ->
    within_budget budget s'.
Proof.
  induction steps as [| e r IH]; intros s s' Hb Hs; simpl.
  - now intros [= <-].
  - destruct (limiter_step s e) as [s1 |] eqn:Hstep; [| discriminate].
    apply IH; trivial. now apply (within_budget_step budget s s1 e).
Qed.

(** A call that is not interleaved is an entry, followed by its own
    resumption when it had to wait. *)
Lemma acquire_steps (l : RateLimiter) (now wake : Z) (sleeping : nat) :
  exists steps : list LimiterStep,
    limiter_run (l, sleeping) steps = Some (acquire l now wake, sleeping).
Proof.
  unfold acquire. destruct (acquire_enter l now) as [l' [| w]] eqn:Henter.
  - exists [Enter now]. simpl. now rewrite Henter.
  - exists [Enter now; Resume wake]. simpl. now rewrite Henter.
Qed.

(** C10.  On a limiter constructed with [maxRequests >= 1], after every
    sequence of atomic steps of [acquire] calls (entries in any
    interleaving with the resumptions of sleeping calls) the request
    counter lies between 0 and [maxRequests].  An entry resets the counter
    to 0 when the window has elapsed and then increments it only if it is
    below [maxRequests]; a resumption sets it to 1. *)
Theorem requestCount_within_budget (budget window start : Z)
    (steps : list LimiterStep) (l : RateLimiter) (sleeping : nat) :
  1 <= budget ->
  limiter_run (RateLimiter_new budget window start, 0%nat) steps
  = Some (l, sleeping) ->
  0 <= requestCount l <= budget
  /\ (forall now : Z,
        requestCount (acquire_resume l now) = 1
        /\ match acquire_enter l now with
           | (l', Granted) =>
               count_on_entry l now < budget
               /\ requestCount l' = count_on_entry l now + 1
           | (l', Waiting _) =>
               budget <= count_on_entry l now
               /\ requestCount l' = count_on_entry l now
           end).
Proof.
  intros Hb Hrun.
  assert (Hinv : within_budget budget (l, sleeping)).
  { apply (within_budget_run budget steps _ _ Hb) in Hrun; trivial.
    split; simpl; lia. }
  destruct Hinv as [Hmax Hcount]. simpl in Hmax, Hcount.
  split; [exact Hcount |].
  intros now. split; [reflexivity |].
  pose proof (acquire_enter_count l now) as (Hcase & _).
  rewrite Hmax in Hcase. exact Hcase.
Qed.

(** A budget of two requests per minute: two grants, a wait, the
    resumption after the window and one more grant. *)
Lemma requestCount_within_budget_witness :
  limiter_run (RateLimiter_new 2 60000 0, 0%nat)
    [Enter 0; Enter 1; Enter 2; Resume 60000; Enter 60010]
  = Some ({| maxRequests := 2; windowMs := 60000;
             requestCount := 2; windowStart := 60000 |}, 0%nat)
  /\ 0 <= 2 <= 2.
Proof.
  split; [reflexivity |].
  exact (proj1 (requestCount_within_budget 2 60000 0
                  [Enter 0; Enter 1; Enter 2; Resume 60000; Enter 60010]
                  _ _ ltac:(lia) eq_refl)).
Defined.

End RateLimiterFacts.

(* ================================================================= *)
(** ** The diff broadcaster *)

Module Broadcaster.
Import JSNum JSString Types SocketManager Spec Samples JSMapFacts JSNumFacts.

Lemma updates_detect (previousTokens : JSMap.t Token)
    (entries : list (string * Token)) (acc : Tick) :
  updates (fold_left (detect previousTokens) entries acc)
  = updates acc ++ map snd (filter (price_moved previousTokens) entries).
Proof.
  revert acc. induction entries as [| [address current] r IH]; intros acc.
  - simpl. now rewrite app_nil_r.
  - cbn [fold_left filter]. rewrite IH. unfold detect, price_moved at 2.
    cbn [fst snd].
    destruct (JSMap.get address previousTokens) as [previous |]; [| reflexivity].
    cbn [updates].
    destruct (gt (priceChange current previous) (of_Z 1)); [| reflexivity].
    cbn [map]. now rewrite <- app_assoc.
Qed.

Lemma roomEvents_detect (previousTokens : JSMap.t Token)
    (entries : list (string * Token)) (acc : Tick) :
  (forall e, In e (roomEvents acc) -> exists room data, e = token_update room data) ->
  forall e, In e (roomEvents (fold_left (detect previousTokens) entries acc)) ->
            exists room data, e = token_update room data.
Proof.
  revert acc. induction entries as [| [address current] r IH]; intros acc Hacc.
  - exact Hacc.
  - cbn [fold_left]. apply IH. unfold detect.
    destruct (JSMap.get address previousTokens) as [previous |]; [| exact Hacc].
    cbn [roomEvents]. intros e He. apply in_app_or in He as [He | [<- | []]].
    + now apply Hacc.
    + eauto.
Qed.

(** The batch that a tick broadcasts as [price_updates] is [priceBatch],
    and it is broadcast when it is not empty. *)
Lemma checkForUpdates_price_updates (previousTokens : JSMap.t Token)
    (data : TokenResponse) (batch : list Token) :
  In (price_updates batch)
     (fst (checkForUpdates previousTokens (Fulfilled data)))
  <-> batch = priceBatch previousTokens data /\ batch <> [].
Proof.
  unfold checkForUpdates, priceBatch. cbn [fst].
  set (tick := detectAll previousTokens (snapshot data)).
  split.
  - intros Hin. apply in_app_or in Hin as [Hroom | Hin].
    + apply (roomEvents_detect previousTokens
               (JSMap.entries (snapshot data))
               {| updates := []; volumeSpikes := []; roomEvents := [] |})
        in Hroom as (room & d & Heq); [discriminate | intros e []].
    + apply in_app_or in Hin as [Hin | Hin].
      * destruct (updates tick) as [| u us] eqn:Hu; simpl in Hin; [tauto |].
        destruct Hin as [[= <-] | []]. split; [reflexivity | discriminate].
      * destruct (0 <? List.length (volumeSpikes tick))%nat; simpl in Hin;
          [destruct Hin as [Heq | []]; discriminate | tauto].
  - intros [-> Hne]. apply in_or_app. right. apply in_or_app. left.
    destruct (updates tick) as [| u us]; [congruence | now left].
Qed.

(** Every entry of a snapshot is filed under the address of its record,
    and no address is filed twice. *)
Lemma snapshot_entries (l : list Token) :
  let m := JSMap.of_entries (map (fun t => (token_address t, t)) l) in
  NoDup (JSMap.keys m)
  /\ forall k t, In (k, t) m -> k = token_address t.
Proof.
  unfold JSMap.of_entries.
  induction l as [| x seen IH] using rev_ind.
  - simpl. split; [constructor | tauto].
  - rewrite map_app, fold_left_app. simpl.
    destruct IH as [Hnd Hkey]. split.
    + now apply NoDup_keys_set.
    + intros k t Hin. apply In_set in Hin as [[-> ->] | Hold];
        [reflexivity | now apply Hkey].
Qed.

(** *** The two formulas on a previous price that is not negative *)

Lemma Qzero_spec (q : Q) : Qzero q = true <-> (q == 0)%Q.
Proof. unfold Qzero. apply Qeq_bool_iff. Qed.

Lemma Qnegative_spec (q : Q) : Qnegative q = true <-> (q < 0)%Q.
Proof.
  unfold Qnegative. rewrite Qlt_alt.
  destruct (q ?= 0)%Q; split; trivial; discriminate.
Qed.

Lemma Qnegative_nonneg (q : Q) : (0 <= q)%Q -> Qnegative q = false.
Proof.
  intros Hq. destruct (Qnegative q) eqn:Hn; trivial.
  apply Qnegative_spec in Hn. exfalso. now apply (Qlt_not_le _ _ Hn).
Qed.

Lemma Qzero_abs (q : Q) : Qzero (Qabs q) = Qzero q.
Proof.
  destruct (Qzero q) eqn:Hz.
  - apply Qzero_spec in Hz. apply Qzero_spec. now rewrite Hz.
  - destruct (Qzero (Qabs q)) eqn:Hza; trivial.
    apply Qzero_spec in Hza. exfalso.
    assert (Hq : (q == 0)%Q).
    { apply Qle_antisym.
      - rewrite <- Hza. apply Qle_Qabs.
      - pose proof (Qle_Qabs (- q)) as Hneg. rewrite Qabs_opp, Hza in Hneg.
        lra. }
    apply Qzero_spec in Hq. congruence.
Qed.

Lemma lt_Qeq (z a b : Q) : (a == b)%Q -> lt (Fin z) (Fin a) = lt (Fin z) (Fin b).
Proof. intros Hab. simpl. now rewrite Hab. Qed.

Lemma price_formulas_agree (newPrice prevPrice : number) :
  le (of_Z 0) prevPrice = true ->
  gt (Math_abs (mul (div (sub newPrice prevPrice) prevPrice) (of_Z 100)))
     (of_Z 1)
  = gt (priceDeltaPct newPrice prevPrice) (of_Z 1).
Proof.
  unfold priceDeltaPct, gt.
  destruct prevPrice as [| | p |]; try discriminate.
  - intros Hp. apply Pagination.Qle_of_le in Hp.
    destruct newPrice as [| | n |]; try reflexivity.
    + simpl. rewrite (Qnegative_nonneg p Hp). reflexivity.
    + unfold sub, neg, add, div, Math_abs.
      set (d := (n + - p)%Q). rewrite Qzero_abs.
      destruct (Qzero p) eqn:Hz.
      * destruct (Qzero d); [reflexivity |].
        rewrite (Qnegative_nonneg (Qabs d) (Qabs_nonneg d)).
        destruct (Qnegative d); reflexivity.
      * unfold mul, of_Z. apply lt_Qeq.
        assert (Hpos : (0 < p)%Q).
        { apply Qle_lteq in Hp as [Hlt | Heq]; trivial.
          symmetry in Heq. apply Qzero_spec in Heq. congruence. }
        unfold Qdiv. rewrite !Qabs_Qmult.
        rewrite (Qabs_pos (/ p)) by (apply Qlt_le_weak, Qinv_lt_0_compat, Hpos).
        now rewrite (Qabs_pos (inject_Z 100)).
    + simpl. rewrite (Qnegative_nonneg p Hp). reflexivity.
  - intros _. destruct newPrice; reflexivity.
Qed.

(** C7, as the code has it.  On a tick, a record filed in the new snapshot
    under an address that the previous snapshot also holds joins the
    price-update batch exactly when
    [|(new.price - prev.price) / prev.price * 100|] exceeds 1, the absolute
    value being taken of the whole quotient; when the previous price is not
    negative this is the condition [|new.price - prev.price| / prev.price *
    100 > 1].  A move from 1.0 to 1.02 joins the batch and a move from 1.0
    to 1.005 does not. *)
Theorem priceBatch_membership (previousTokens : JSMap.t Token)
    (data : TokenResponse) (address : string) (current previous : Token) :
  In (address, current) (JSMap.entries (snapshot data)) ->
  JSMap.get address previousTokens = Some previous ->
  (In current (priceBatch previousTokens data)
   <-> gt (priceChange current previous) (of_Z 1) = true)
  /\ (le (of_Z 0) (price_sol previous) = true ->
      (In current (priceBatch previousTokens data)
       <-> gt (priceDeltaPct (price_sol current) (price_sol previous)) (of_Z 1)
           = true))
  /\ (price_sol previous = Fin 1 -> price_sol current = Fin (102 # 100) ->
      In current (priceBatch previousTokens data))
  /\ (price_sol previous = Fin 1 -> price_sol current = Fin (1005 # 1000) ->
      ~ In current (priceBatch previousTokens data)).
Proof.
  intros Hentry Hprev.
  assert (Hiff : In current (priceBatch previousTokens data)
                 <-> gt (priceChange current previous) (of_Z 1) = true).
  { unfold priceBatch, detectAll. rewrite updates_detect. simpl.
    destruct (snapshot_entries (tokens data)) as [Hnd Hkey].
    fold (snapshot data) in Hnd, Hkey. unfold JSMap.entries in *.
    rewrite in_map_iff. split.
    - intros ([a c] & Hc & Hin). simpl in Hc. subst c.
      apply filter_In in Hin as [Hin Hmoved].
      rewrite (Hkey _ _ Hin) in Hmoved.
      rewrite <- (Hkey _ _ Hentry) in Hmoved.
      unfold price_moved in Hmoved. simpl in Hmoved.
      now rewrite Hprev in Hmoved.
    - intros Hgt. exists (address, current). split; [reflexivity |].
      apply filter_In. split; [exact Hentry |].
      unfold price_moved. simpl. now rewrite Hprev. }
  split; [exact Hiff |]. split; [| split].
  - intros Hnonneg. rewrite Hiff. unfold priceChange.
    now rewrite price_formulas_agree.
  - intros Hp Hc. apply Hiff. unfold priceChange. now rewrite Hp, Hc.
  - intros Hp Hc Hin. apply Hiff in Hin. unfold priceChange in Hin.
    rewrite Hp, Hc in Hin. discriminate.
Qed.

(** *** Concrete ticks *)

(** A previous price of -1 and a new price of -1.02: the record joins the
    batch although [|new - prev| / prev * 100] is -2. *)
Lemma priceBatch_negative_price :
  let previous := priced "mintA" (Fin (- (1))) in
  let current := priced "mintA" (Fin (- (102 # 100))) in
  In ("mintA", current) (JSMap.entries (snapshot (page_of [current])))
  /\ JSMap.get "mintA" (snapshot (page_of [previous])) = Some previous
  /\ In current (priceBatch (snapshot (page_of [previous])) (page_of [current]))
  /\ gt (priceDeltaPct (price_sol current) (price_sol previous)) (of_Z 1)
     = false.
Proof.
  simpl. repeat split; now left.
Qed.

(** One tick over two records: the first moves from 1.0 to 1.02, the second
    from 1.0 to 1.005. *)
Lemma priceBatch_membership_witness :
  let previous := priced "mintA" (Fin 1) in
  let current := priced "mintA" (Fin (102 # 100)) in
  In current
    (priceBatch (snapshot (page_of [previous; priced "mintB" (Fin 1)]))
       (page_of [priced "mintB" (Fin (1005 # 1000)); current])).
Proof.
  intros previous current.
  destruct (priceBatch_membership
              (snapshot (page_of [previous; priced "mintB" (Fin 1)]))
              (page_of [priced "mintB" (Fin (1005 # 1000)); current])
              "mintA" current previous) as (_ & _ & Hup & _).
  - simpl. right. now left.
  - reflexivity.
  - now apply Hup.
Defined.

End Broadcaster.

(* ================================================================= *)
(** ** Algebra of merging *)

Module MergeAlgebra.
Import JSNum JSString Types AggregationService Spec SpecMore Samples
  JSNumFacts JSMapFacts MergeTokens.

Lemma lt_Fin (a b : Q) : lt (Fin a) (Fin b) = true <-> (a < b)%Q.
Proof.
  unfold lt. rewrite Qlt_alt.
  destruct (Qcompare a b); split; trivial; discriminate.
Qed.

Lemma lt_Fin_false (a b : Q) : lt (Fin a) (Fin b) = false <-> (b <= a)%Q.
Proof.
  split.
  - intros H. apply Qnot_lt_le. intros Hlt. apply lt_Fin in Hlt. congruence.
  - intros Hle. destruct (lt (Fin a) (Fin b)) eqn:Hlt; trivial.
    apply lt_Fin in Hlt. exfalso. now apply (Qlt_not_le _ _ Hlt).
Qed.

Lemma lt_trans (x y z : number) :
  lt x y = true -> lt y z = true -> lt x z = true.
Proof.
  destruct x as [| | a |], y as [| | b |], z as [| | c |];
    try solve [simpl; trivial; discriminate].
  rewrite !lt_Fin. apply Qlt_trans.
Qed.

(** On numbers other than [NaN], "not below" is transitive. *)
Lemma lt_false_trans (x y z : number) :
  isNaN x = false -> isNaN y = false -> isNaN z = false ->
  lt x y = false -> lt y z = false -> lt x z = false.
Proof.
  destruct x as [| | a |], y as [| | b |], z as [| | c |];
    try solve [simpl; trivial; discriminate].
  intros _ _ _. rewrite !lt_Fin_false. intros H1 H2.
  now apply Qle_trans with b.
Qed.

Lemma Math_max_cases (a b : number) :
  isNaN a = false -> isNaN b = false ->
  Math_max a b = if lt a b then b else a.
Proof. destruct a, b; simpl; trivial; discriminate. Qed.

Lemma Math_max_number (a b : number) :
  isNaN a = false -> isNaN b = false -> isNaN (Math_max a b) = false.
Proof.
  intros Ha Hb. rewrite Math_max_cases by trivial. now destruct (lt a b).
Qed.

Lemma Math_max_self (a : number) : Math_max a a = a.
Proof. destruct a; simpl; trivial. now rewrite Qcompare_self. Qed.

Lemma Math_max_assoc (a b c : number) :
  Math_max a (Math_max b c) = Math_max (Math_max a b) c.
Proof.
  destruct (isNaN a) eqn:Ha; [destruct a; try discriminate; reflexivity |].
  destruct (isNaN b) eqn:Hb;
    [destruct b; try discriminate; destruct a; reflexivity |].
  destruct (isNaN c) eqn:Hc;
    [destruct c; try discriminate; destruct a, b; simpl;
       try reflexivity; now destruct (Qcompare _ _) |].
  rewrite (Math_max_cases b c), (Math_max_cases a b) by trivial.
  destruct (lt b c) eqn:Hbc, (lt a b) eqn:Hab;
    rewrite !Math_max_cases by trivial; rewrite ?Hbc, ?Hab; trivial.
  - now rewrite (lt_trans _ _ _ Hab Hbc).
  - now rewrite (lt_false_trans a b c).
Qed.

Lemma or_else_self {A : Type} `{ToBoolean A} (a : A) : or_else a a = a.
Proof. unfold or_else. now destruct (truthy a). Qed.

Lemma or_else_assoc {A : Type} `{ToBoolean A} (a b c : A) :
  or_else a (or_else b c) = or_else (or_else a b) c.
Proof.
  unfold or_else. destruct (truthy a) eqn:Ha.
  - now rewrite Ha.
  - reflexivity.
Qed.

(** X1.  Merging a record with itself gives the record back. *)
Theorem mergeSingleToken_idempotent (token : Token) :
  mergeSingleToken token token = token.
Proof.
  destruct token. unfold mergeSingleToken. simpl.
  rewrite !or_else_self, !Math_max_self.
  now destruct (negb _).
Qed.

(** X2.  Merging is associative: a group of three records of one address
    merges to the same record however the merges are grouped. *)
Theorem mergeSingleToken_assoc (token1 token2 token3 : Token) :
  mergeSingleToken token1 (mergeSingleToken token2 token3)
  = mergeSingleToken (mergeSingleToken token1 token2) token3.
Proof.
  unfold mergeSingleToken. simpl.
  rewrite !or_else_assoc, !Math_max_assoc.
  f_equal.
  destruct (String.eqb (protocol token1) "Unknown") eqn:H1; simpl; trivial.
  now rewrite H1.
Qed.

Section WithEngine.
Context `{JSEngine}.

Lemma seen_spec (keys : list string) (k : string) :
  seen keys k = true <-> In k keys.
Proof.
  unfold seen. rewrite existsb_exists. split.
  - intros (x & Hx & He). apply String.eqb_eq in He. now subst.
  - intros Hin. exists k. split; [exact Hin | apply String.eqb_refl].
Qed.

Lemma seen_snoc (keys : list string) (k k' : string) :
  seen (keys ++ [k']) k = seen keys k || String.eqb k k'.
Proof. unfold seen. rewrite existsb_app. simpl. now rewrite orb_false_r. Qed.

Lemma keys_mergeStep (m : JSMap.t Token) (token : Token) :
  JSMap.keys (mergeStep m token)
  = if seen (JSMap.keys m) (key_of token) then JSMap.keys m
    else JSMap.keys m ++ [key_of token].
Proof.
  unfold mergeStep. fold (key_of token).
  destruct (JSMap.get (key_of token) m) as [existing |] eqn:Hget.
  - rewrite (keys_set_present _ _ _ _ Hget).
    assert (Hk : seen (JSMap.keys m) (key_of token) = true).
    { apply seen_spec. apply get_Some_In in Hget.
      unfold JSMap.keys. change (key_of token) with (fst (key_of token, existing)).
      now apply in_map. }
    now rewrite Hk.
  - rewrite (set_fresh _ _ _ Hget).
    assert (Hk : seen (JSMap.keys m) (key_of token) = false).
    { destruct (seen (JSMap.keys m) (key_of token)) eqn:Hk; trivial.
      apply seen_spec in Hk. now apply get_None_keys in Hget. }
    rewrite Hk. unfold JSMap.keys. now rewrite map_app.
Qed.

Lemma filter_unseen_seen (keys l : list string) (k' : string) :
  seen keys k' = true ->
  filter (fun k => negb (seen keys k))
    (filter (fun x => negb (String.eqb x k')) l)
  = filter (fun k => negb (seen keys k)) l.
Proof.
  intros Hk. induction l as [| k r IH]; cbn [filter]; trivial.
  destruct (String.eqb_spec k k') as [-> | Hne]; cbn [negb filter].
  - now rewrite Hk.
  - now rewrite IH.
Qed.

Lemma filter_unseen_snoc (keys l : list string) (k' : string) :
  filter (fun k => negb (seen (keys ++ [k']) k)) l
  = filter (fun k => negb (seen keys k))
      (filter (fun x => negb (String.eqb x k')) l).
Proof.
  induction l as [| k r IH]; cbn [filter]; trivial.
  rewrite seen_snoc.
  destruct (String.eqb k k'); cbn [negb filter].
  - now rewrite orb_true_r.
  - rewrite orb_false_r. now rewrite IH.
Qed.

Lemma filter_unseen_nil (l : list string) :
  filter (fun k => negb (seen [] k)) l = l.
Proof.
  induction l as [| k r IH]; cbn [filter]; trivial.
  unfold seen at 1. cbn [existsb negb]. now rewrite IH.
Qed.

Lemma keys_merge_fold (tokens : list Token) :
  forall m : JSMap.t Token,
    JSMap.keys (fold_left mergeStep tokens m)
    = JSMap.keys m
      ++ filter (fun k => negb (seen (JSMap.keys m) k))
           (first_occurrences (map key_of tokens)).
Proof.
  induction tokens as [| x r IH]; intros m.
  - simpl. now rewrite app_nil_r.
  - cbn [fold_left map first_occurrences filter].
    rewrite IH, keys_mergeStep.
    destruct (seen (JSMap.keys m) (key_of x)) eqn:Hk; cbn [negb].
    + now rewrite filter_unseen_seen.
    + now rewrite <- app_assoc, filter_unseen_snoc.
Qed.

(** X3.  The output of [mergeTokens] lists the lower-cased addresses of the
    input, each once, in the order of their first occurrence: no address
    is lost and the order does not depend on the later records. *)
Theorem mergeTokens_first_occurrences (tokens : list Token) :
  map key_of (mergeTokens tokens)
  = first_occurrences (map key_of tokens).
Proof.
  unfold mergeTokens.
  destruct (merged_so_far_all tokens) as [_ Hentry _ _].
  rewrite keys_of_values by (intros k t Hin; now apply Hentry).
  rewrite keys_merge_fold. apply filter_unseen_nil.
Qed.

Lemma merge_fold_distinct (tokens : list Token) :
  forall m : JSMap.t Token,
    NoDup (JSMap.keys m ++ map key_of tokens) ->
    fold_left mergeStep tokens m
    = m ++ map (fun t => (key_of t, t)) tokens.
Proof.
  induction tokens as [| x r IH]; intros m Hnd; simpl.
  - now rewrite app_nil_r.
  - assert (Hfresh : JSMap.get (key_of x) m = None).
    { apply get_None_keys. intros Hin.
      apply NoDup_remove_2 in Hnd. apply Hnd.
      apply in_or_app. now left. }
    unfold mergeStep at 2. fold (key_of x). rewrite Hfresh.
    rewrite (set_fresh _ _ _ Hfresh), IH.
    + now rewrite <- app_assoc.
    + unfold JSMap.keys. rewrite map_app, <- app_assoc. exact Hnd.
Qed.

(** X4.  A list whose records have pairwise distinct lower-cased addresses
    is returned as it is; hence merging a merged list changes nothing. *)
Theorem mergeTokens_distinct (tokens : list Token) :
  (NoDup (map key_of tokens) -> mergeTokens tokens = tokens)
  /\ mergeTokens (mergeTokens tokens) = mergeTokens tokens.
Proof.
  assert (Hd : forall l, NoDup (map key_of l) -> mergeTokens l = l).
  { intros l Hnd. unfold mergeTokens.
    rewrite merge_fold_distinct by exact Hnd. simpl.
    unfold JSMap.values. rewrite map_map. simpl. apply map_id. }
  split; [apply Hd |].
  apply Hd. unfold mergeTokens.
  destruct (merged_so_far_all tokens) as [Hnd Hentry _ _].
  rewrite keys_of_values by (intros k t Hin; now apply Hentry).
  exact Hnd.
Qed.

Lemma get_set_same {V : Type} (k : string) (v : V) (m : JSMap.t V) :
  JSMap.get k (JSMap.set k v m) = Some v.
Proof.
  induction m as [| [k0 v0] r IH]; simpl.
  - now rewrite String.eqb_refl.
  - destruct (String.eqb_spec k k0) as [-> | Hne]; simpl.
    + now rewrite String.eqb_refl.
    + destruct (String.eqb_spec k k0); [contradiction | exact IH].
Qed.

Lemma get_set_other {V : Type} (k k' : string) (v : V) (m : JSMap.t V) :
  k' <> k -> JSMap.get k' (JSMap.set k v m) = JSMap.get k' m.
Proof.
  intros Hne. induction m as [| [k0 v0] r IH]; simpl.
  - destruct (String.eqb_spec k' k); [contradiction | reflexivity].
  - destruct (String.eqb_spec k k0) as [-> | Hne0]; simpl.
    + destruct (String.eqb_spec k' k0); [contradiction | reflexivity].
    + destruct (String.eqb_spec k' k0); [reflexivity | exact IH].
Qed.

Lemma In_get_NoDup {V : Type} (k : string) (v : V) (m : JSMap.t V) :
  NoDup (JSMap.keys m) -> In (k, v) m -> JSMap.get k m = Some v.
Proof.
  induction m as [| [k0 v0] r IH]; simpl; [tauto |].
  intros Hnd. inversion Hnd as [| ? ? Hnotin Hnd']; subst.
  intros [[= -> ->] | Hin].
  - now rewrite String.eqb_refl.
  - destruct (String.eqb_spec k k0) as [-> | Hne]; [| now apply IH].
    exfalso. apply Hnotin. unfold JSMap.keys.
    change k0 with (fst (k0, v)). now apply in_map.
Qed.

Lemma cumulative_merge (f : Token -> number) (t1 t2 : Token) :
  In f cumulative_fields ->
  f (mergeSingleToken t1 t2) = Math_max (f t1) (f t2).
Proof.
  simpl. intros Hf. decompose [or] Hf; subst; try contradiction; reflexivity.
Qed.

Lemma dominates_step (f : Token -> number) (done : list Token)
    (m : JSMap.t Token) (token : Token) :
  In f cumulative_fields ->
  isNaN (f token) = false ->
  dominates f done m ->
  dominates f (done ++ [token]) (mergeStep m token).
Proof.
  intros Hf Hnum [Hnan Habove Hatt]. unfold mergeStep. fold (key_of token).
  destruct (JSMap.get (key_of token) m) as [existing |] eqn:Hget.
  - pose proof (Hnan _ _ Hget) as Hexn.
    pose proof (Math_max_greatest _ _ Hexn Hnum) as (Hcase & Hge1 & Hge2).
    rewrite <- (cumulative_merge f existing token Hf) in Hcase, Hge1, Hge2.
    set (merged := mergeSingleToken existing token) in *.
    assert (Hmn : isNaN (f merged) = false)
      by (destruct Hcase as [-> | ->]; assumption).
    split.
    + intros k t. destruct (String.eqb_spec k (key_of token)) as [-> | Hne].
      * rewrite get_set_same. now intros [= <-].
      * rewrite get_set_other by exact Hne. apply Hnan.
    + intros x Hx. apply in_app_or in Hx as [Hx | [<- | []]].
      * destruct (Habove x Hx) as (t & Hin & Hle).
        destruct (String.eqb_spec (key_of x) (key_of token)) as [He | Hne].
        -- exists merged. rewrite He, get_set_same. split; [reflexivity |].
           rewrite He, Hget in Hin. injection Hin as <-.
           now apply Pagination.le_trans with (f existing).
        -- exists t. now rewrite get_set_other.
      * exists merged. now rewrite get_set_same.
    + intros k t. destruct (String.eqb_spec k (key_of token)) as [-> | Hne].
      * rewrite get_set_same. intros [= <-].
        destruct Hcase as [He | He].
        -- destruct (Hatt _ _ Hget) as (x & Hx & Hk & Hfx).
           exists x. split; [apply in_or_app; now left |].
           split; [exact Hk | congruence].
        -- exists token. split; [apply in_or_app; right; now left |].
           split; [reflexivity | exact He].
      * rewrite get_set_other by exact Hne. intros Hold.
        destruct (Hatt _ _ Hold) as (x & Hx & Hk & Hfx).
        exists x. split; [apply in_or_app; now left | now split].
  - split.
    + intros k t. destruct (String.eqb_spec k (key_of token)) as [-> | Hne].
      * rewrite get_set_same. now intros [= <-].
      * rewrite get_set_other by exact Hne. apply Hnan.
    + intros x Hx. apply in_app_or in Hx as [Hx | [<- | []]].
      * destruct (Habove x Hx) as (t & Hin & Hle).
        exists t. split; [| exact Hle].
        rewrite get_set_other; trivial. intros He. congruence.
      * exists token. rewrite get_set_same. split; [reflexivity |].
        now apply le_refl.
    + intros k t. destruct (String.eqb_spec k (key_of token)) as [-> | Hne].
      * rewrite get_set_same. intros [= <-].
        exists token. split; [apply in_or_app; right; now left | now split].
      * rewrite get_set_other by exact Hne. intros Hold.
        destruct (Hatt _ _ Hold) as (x & Hx & Hk & Hfx).
        exists x. split; [apply in_or_app; now left | now split].
Qed.

Lemma dominates_all (f : Token -> number) (tokens : list Token) :
  In f cumulative_fields ->
  (forall x, In x tokens -> isNaN (f x) = false) ->
  dominates f tokens (fold_left mergeStep tokens JSMap.empty).
Proof.
  intros Hf. induction tokens as [| token done IH] using rev_ind; intros Hnum.
  - split; simpl; try discriminate; tauto.
  - rewrite fold_left_app. simpl. apply dominates_step; trivial.
    + apply Hnum. apply in_or_app. right. now left.
    + apply IH. intros x Hx. apply Hnum. apply in_or_app. now left.
Qed.

(** X5.  For each cumulative field (market cap, volume, liquidity,
    transaction count, last-updated) whose input values are all numbers,
    the value of an output record is the greatest of the values of the input
    records that share its lower-cased address: it is the value of one of
    them and none of them exceeds it. *)
Theorem mergeTokens_greatest (f : Token -> number) (tokens : list Token)
    (t : Token) :
  In f cumulative_fields ->
  (forall x, In x tokens -> isNaN (f x) = false) ->
  In t (mergeTokens tokens) ->
  (exists x, In x tokens /\ key_of x = key_of t /\ f t = f x)
  /\ (forall x, In x tokens -> key_of x = key_of t -> le (f x) (f t) = true).
Proof.
  intros Hf Hnum Hin. unfold mergeTokens in Hin.
  destruct (merged_so_far_all tokens) as [Hnd Hentry _ _].
  destruct (dominates_all f tokens Hf Hnum) as [_ Habove Hatt].
  set (m := fold_left mergeStep tokens JSMap.empty) in *.
  unfold JSMap.values in Hin. apply in_map_iff in Hin as ([k t'] & Heq & Hin).
  simpl in Heq. subst t'.
  pose proof (proj1 (Hentry _ _ Hin)) as Hk.
  pose proof (In_get_NoDup _ _ _ Hnd Hin) as Hget.
  split.
  - destruct (Hatt _ _ Hget) as (x & Hx & Hkx & Hfx).
    exists x. split; [exact Hx |]. split; [congruence | exact Hfx].
  - intros x Hx Hkx. destruct (Habove x Hx) as (t' & Hget' & Hle).
    rewrite Hkx, <- Hk, Hget in Hget'. now injection Hget' as <-.
Qed.

End WithEngine.

(** The volume of the merged record of the two sample records. *)
Lemma mergeTokens_greatest_witness :
  le (volume_sol unnamed_pair)
     (volume_sol (mergeSingleToken unnamed_pair listed_token)) = true.
Proof.
  apply (proj2 (@mergeTokens_greatest ascii_engine volume_sol
                  [unnamed_pair; listed_token]
                  (mergeSingleToken unnamed_pair listed_token)
                  ltac:(simpl; tauto)
                  ltac:(intros x [<- | [<- | []]]; reflexivity)
                  ltac:(now left))).
  - now left.
  - reflexivity.
Defined.

(** Two records of distinct addresses. *)
Lemma mergeTokens_distinct_witness :
  @mergeTokens ascii_engine mockTokens = mockTokens.
Proof.
  apply (proj1 (@mergeTokens_distinct ascii_engine mockTokens)).
  repeat constructor; simpl; intuition discriminate.
Defined.

End MergeAlgebra.

(* ================================================================= *)
(** ** Filtering and sorting *)

Module FilterSort.
Import JSNum JSString Types AggregationService Spec SpecMore Samples
  JSNumFacts MergeAlgebra.

(** *** Filtering *)

Lemma applyFilters_filter (tokens : list Token) (options : QueryOptions) :
  applyFilters tokens options
  = filter (fun t => passes (min_liquidity options) (liquidity_sol t))
      (filter (fun t => passes (min_volume options) (volume_sol t)) tokens).
Proof.
  unfold applyFilters, passes.
  assert (Hall : forall l : list Token, filter (fun _ => true) l = l)
    by (intros l; induction l as [| x r IH]; simpl; now rewrite ?IH).
  destruct (min_volume options) as [v |], (min_liquidity options) as [q |];
    try destruct (truthy v); try destruct (truthy q);
    now rewrite ?Hall.
Qed.

Lemma passes_spec (threshold : option number) (v : number) :
  passes threshold v = true <-> meets threshold v.
Proof.
  unfold passes, meets. destruct threshold as [m |].
  - split.
    + intros Hp m' [= <-] Ht. now rewrite Ht in Hp.
    + intros Hm. destruct (truthy m) eqn:Ht; trivial.
      exact (Hm m eq_refl Ht).
  - split; trivial. intros _ m [=].
Qed.

(** X6.  A record is returned by [applyFilters] exactly when it is in the
    input, its volume is at least [min_volume] and its liquidity is at
    least [min_liquidity]; a threshold that is absent, 0 or [NaN] excludes
    nothing. *)
Theorem applyFilters_membership (tokens : list Token) (options : QueryOptions)
    (t : Token) :
  In t (applyFilters tokens options)
  <-> In t tokens
      /\ meets (min_volume options) (volume_sol t)
      /\ meets (min_liquidity options) (liquidity_sol t).
Proof.
  rewrite applyFilters_filter, !filter_In, !passes_spec. tauto.
Qed.

Lemma filter_length_weaker {A : Type} (p q : A -> bool) (l : list A) :
  (forall x, q x = true -> p x = true) ->
  (List.length (filter q l) <= List.length (filter p l))%nat.
Proof.
  intros Hpq. induction l as [| x r IH]; simpl; trivial.
  destruct (q x) eqn:Hq.
  - rewrite (Hpq x Hq). simpl. lia.
  - destruct (p x); simpl; lia.
Qed.

Lemma filter_filter_length {A : Type} (p p' q q' : A -> bool) (l : list A) :
  (forall x, p' x = true -> p x = true) ->
  (forall x, q' x = true -> q x = true) ->
  (List.length (filter q' (filter p' l))
   <= List.length (filter q (filter p l)))%nat.
Proof.
  intros Hp Hq. induction l as [| x r IH]; simpl; trivial.
  destruct (p' x) eqn:Hp'.
  - rewrite (Hp x Hp'). simpl. destruct (q' x) eqn:Hq'.
    + rewrite (Hq x Hq'). simpl. lia.
    + destruct (q x); simpl; lia.
  - destruct (p x); simpl; [destruct (q x); simpl |]; lia.
Qed.

Lemma passes_weaker (a b : option number) (v : number) :
  weaker a b -> passes b v = true -> passes a v = true.
Proof.
  unfold weaker, passes. destruct a as [m |]; trivial.
  destruct (truthy m) eqn:Hm; trivial.
  intros [Hfalse | (m0 & m' & [= <-] & -> & Hm' & Hle)].
  - change (truthy (Some m)) with (truthy m) in Hfalse. congruence.
  - rewrite Hm'. unfold ge. intros Hge.
    now apply Pagination.le_trans with m'.
Qed.

(** X7.  Filtering is monotone: when each threshold of one option set is
    absent, 0 or [NaN], or is at most the corresponding non-zero threshold of
    the other, every record the stricter set returns is returned by the
    weaker one, and the stricter result is no longer. *)
Theorem applyFilters_monotone (tokens : list Token) (o1 o2 : QueryOptions) :
  weaker (min_volume o1) (min_volume o2) ->
  weaker (min_liquidity o1) (min_liquidity o2) ->
  (forall t, In t (applyFilters tokens o2) -> In t (applyFilters tokens o1))
  /\ (List.length (applyFilters tokens o2)
      <= List.length (applyFilters tokens o1))%nat.
Proof.
  intros Hv Hl. rewrite !applyFilters_filter. split.
  - intros t. rewrite !filter_In. intros [[Hin Hpv] Hpl].
    repeat split; trivial; eapply passes_weaker; eassumption.
  - apply filter_filter_length; intros x; now apply passes_weaker.
Qed.

(** Raising the volume threshold from 250 to 750 over the test records. *)
Lemma applyFilters_monotone_witness :
  (List.length (applyFilters mockTokens (filtered_by (Some (of_Z 750)) None))
   <= List.length (applyFilters mockTokens (filtered_by (Some (of_Z 250)) None)))%nat.
Proof.
  apply (proj2 (applyFilters_monotone mockTokens
                  (filtered_by (Some (of_Z 250)) None)
                  (filtered_by (Some (of_Z 750)) None)
                  ltac:(right; exists (of_Z 250), (of_Z 750); repeat split)
                  ltac:(now left))).
Defined.

(** *** Sorting *)

Lemma sort_insert_perm {A : Type} (cmp : A -> A -> number) (x : A) (s : list A) :
  Permutation (x :: s) (sort_insert cmp x s).
Proof.
  induction s as [| y r IH]; cbn [sort_insert]; [reflexivity |].
  destruct (gt (cmp y x) (of_Z 0)); [reflexivity |].
  rewrite perm_swap. now apply perm_skip.
Qed.

Lemma Array_sort_perm {A : Type} (cmp : A -> A -> number) (l : list A) :
  Permutation l (Array_sort cmp l).
Proof.
  unfold Array_sort.
  assert (Hgen : forall acc, Permutation (acc ++ l)
                   (fold_left (fun sorted x => sort_insert cmp x sorted) l acc)).
  { induction l as [| x r IH]; intros acc; simpl.
    - now rewrite app_nil_r.
    - rewrite <- IH. rewrite <- sort_insert_perm.
      symmetry. apply Permutation_middle. }
  exact (Hgen []).
Qed.

(** X8.  [applySort] returns the records of its input, each as often as it
    occurs there: it drops none, adds none and changes none. *)
Theorem applySort_permutation (tokens : list Token) (options : QueryOptions) :
  Permutation tokens (applySort tokens options)
  /\ List.length (applySort tokens options) = List.length tokens.
Proof.
  assert (Hp : Permutation tokens (applySort tokens options))
    by apply Array_sort_perm.
  split; [exact Hp |]. symmetry. now apply Permutation_length.
Qed.

Lemma applySort_comparator (tokens : list Token) (options : QueryOptions) :
  applySort tokens options = Array_sort (comparator options) tokens.
Proof.
  unfold applySort, comparator, effective_sort_by, effective_sort_order.
  reflexivity.
Qed.

(** A difference is positive exactly when its first term is the greater. *)
Lemma sub_positive (a b : number) :
  isNaN a = false -> isNaN b = false ->
  gt (sub a b) (of_Z 0) = lt b a.
Proof.
  destruct a as [| | p |], b as [| | q |]; try discriminate; try reflexivity.
  intros _ _. unfold gt, sub, neg, add, of_Z.
  destruct (lt (Fin q) (Fin p)) eqn:Hlt.
  - apply lt_Fin in Hlt. apply lt_Fin. change (inject_Z 0) with 0%Q. lra.
  - apply lt_Fin_false in Hlt. apply lt_Fin_false.
    change (inject_Z 0) with 0%Q. lra.
Qed.

Lemma le_number (a b : number) :
  le a b = true -> isNaN a = false /\ isNaN b = false /\ lt b a = false.
Proof.
  destruct a, b; simpl; try discriminate; intros H;
    repeat split; trivial; now apply negb_true_iff in H.
Qed.

Lemma comparator_after (options : QueryOptions) (x y : Token) :
  ordered options y x -> gt (comparator options y x) (of_Z 0) = false.
Proof.
  unfold ordered, comparator, in_order.
  destruct (effective_sort_order options); intros Hle;
    apply le_number in Hle as (Ha & Hb & Hlt); now rewrite sub_positive.
Qed.

Lemma comparator_total (options : QueryOptions) (x y : Token) :
  isNaN (sortKey (effective_sort_by options) x) = false ->
  isNaN (sortKey (effective_sort_by options) y) = false ->
  if gt (comparator options y x) (of_Z 0)
  then ordered options x y else ordered options y x.
Proof.
  intros Hx Hy. unfold ordered, comparator, in_order.
  destruct (effective_sort_order options); rewrite sub_positive by trivial.
  - destruct (lt _ _) eqn:Hlt; [now apply lt_le |].
    destruct (sortKey _ x), (sortKey _ y); simpl in *;
      try discriminate; trivial; now rewrite Hlt.
  - destruct (lt _ _) eqn:Hlt; [now apply lt_le |].
    destruct (sortKey _ x), (sortKey _ y); simpl in *;
      try discriminate; trivial; now rewrite Hlt.
Qed.

Lemma ordered_trans (options : QueryOptions) (a b c : Token) :
  ordered options a b -> ordered options b c -> ordered options a c.
Proof.
  unfold ordered, in_order. destruct (effective_sort_order options);
    intros H1 H2; eapply Pagination.le_trans; eassumption.
Qed.

Lemma In_sort_insert {A : Type} (cmp : A -> A -> number) (x z : A) (s : list A) :
  In z (sort_insert cmp x s) -> z = x \/ In z s.
Proof.
  intros Hin. apply (Permutation_in _ (Permutation_sym (sort_insert_perm cmp x s)))
    in Hin.
  destruct Hin as [<- | Hin]; [now left | now right].
Qed.

Lemma sort_insert_sorted (options : QueryOptions) (x : Token) (s : list Token) :
  isNaN (sortKey (effective_sort_by options) x) = false ->
  (forall y, In y s -> isNaN (sortKey (effective_sort_by options) y) = false) ->
  StronglySorted (ordered options) s ->
  StronglySorted (ordered options) (sort_insert (comparator options) x s).
Proof.
  intros Hx. induction s as [| y r IH]; intros Hnum Hs; cbn [sort_insert].
  - repeat constructor.
  - inversion Hs as [| ? ? Hr Hall]; subst.
    pose proof (comparator_total options x y Hx (Hnum y (or_introl eq_refl)))
      as Hcase.
    destruct (gt (comparator options y x) (of_Z 0)).
    + constructor; [exact Hs |]. constructor; [exact Hcase |].
      rewrite Forall_forall in *. intros z Hz.
      apply ordered_trans with y; [exact Hcase | now apply Hall].
    + constructor.
      * apply IH; [| exact Hr]. intros z Hz. apply Hnum. now right.
      * rewrite Forall_forall in *. intros z Hz.
        apply In_sort_insert in Hz as [-> | Hz]; [exact Hcase | now apply Hall].
Qed.

Lemma Array_sort_sorted (tokens : list Token) (options : QueryOptions) :
  (forall t, In t tokens ->
             isNaN (sortKey (effective_sort_by options) t) = false) ->
  StronglySorted (ordered options) (applySort tokens options).
Proof.
  intros Hnum. rewrite applySort_comparator. unfold Array_sort.
  assert (Hgen : forall acc,
    (forall y, In y acc -> isNaN (sortKey (effective_sort_by options) y) = false) ->
    StronglySorted (ordered options) acc ->
    StronglySorted (ordered options)
      (fold_left (fun sorted x => sort_insert (comparator options) x sorted)
         tokens acc)).
  { induction tokens as [| x r IH]; intros acc Hacc Hs; simpl; trivial.
    apply IH.
    - intros t Ht. apply Hnum. now right.
    - intros y Hy. apply In_sort_insert in Hy as [-> | Hy];
        [apply Hnum; now left | now apply Hacc].
    - apply sort_insert_sorted; trivial. apply Hnum. now left. }
  apply Hgen; [intros y [] | constructor].
Qed.


Lemma sort_insert_last (options : QueryOptions) (x : Token) (s : list Token) :
  Forall (fun y => ordered options y x) s ->
  sort_insert (comparator options) x s = s ++ [x].
Proof.
  induction s as [| y r IH]; intros Hall; cbn [sort_insert app]; trivial.
  inversion Hall as [| ? ? Hy Hr]; subst.
  rewrite (comparator_after options x y Hy). now rewrite IH.
Qed.

Lemma StronglySorted_before {A : Type} (R : A -> A -> Prop) (acc l : list A)
    (x : A) :
  StronglySorted R (acc ++ x :: l) -> Forall (fun y => R y x) acc.
Proof.
  induction acc as [| y r IH]; simpl; intros Hs; [constructor |].
  inversion Hs as [| ? ? Hr Hall]; subst. constructor.
  - rewrite Forall_forall in Hall. apply Hall. apply in_or_app. right. now left.
  - now apply IH.
Qed.

(** X10.  A list that is already in the order asked for is returned as it
    is, records of equal keys included; hence, when no sort key is [NaN],
    sorting twice is the same as sorting once. *)
Theorem applySort_sorted_input (tokens : list Token) (options : QueryOptions) :
  (StronglySorted (ordered options) tokens -> applySort tokens options = tokens)
  /\ ((forall t, In t tokens ->
                 isNaN (sortKey (effective_sort_by options) t) = false) ->
      applySort (applySort tokens options) options = applySort tokens options).
Proof.
  assert (Hfix : forall l, StronglySorted (ordered options) l ->
                           applySort l options = l).
  { intros l Hs. rewrite applySort_comparator. unfold Array_sort.
    assert (Hgen : forall rest acc,
      StronglySorted (ordered options) (acc ++ rest) ->
      fold_left (fun sorted x => sort_insert (comparator options) x sorted)
        rest acc = acc ++ rest).
    { induction rest as [| x r IH]; intros acc Hacc; simpl.
      - now rewrite app_nil_r.
      - rewrite sort_insert_last by (eapply StronglySorted_before; eassumption).
        rewrite IH; rewrite <- app_assoc; trivial. }
    now apply (Hgen l []). }
  split; [apply Hfix |].
  intros Hnum. apply Hfix. now apply Array_sort_sorted.
Qed.


Lemma applySort_sorted_input_witness :
  applySort mockTokens (sorted_by by_volume asc) = mockTokens.
Proof.
  apply (proj1 (applySort_sorted_input mockTokens (sorted_by by_volume asc))).
  repeat constructor.
Defined.

End FilterSort.

(* ================================================================= *)
(** ** Pages and cursors *)

Module Pages.
Import JSNum JSString Types AggregationService Spec SpecMore Samples.
Import JSNumFacts Pagination Builtins MergeAlgebra.

(** *** Truncation and slicing *)

Lemma Qtrunc_add_integers (a b : Z) :
  Qtrunc (inject_Z a + inject_Z b) = a + b.
Proof.
  unfold Qtrunc, Qplus. simpl. rewrite !Z.mul_1_r. apply Z.quot_1_r.
Qed.

Lemma Qintegral_add_integers (a b : Z) :
  Qintegral (inject_Z a + inject_Z b) = true.
Proof. unfold Qintegral, Qplus. simpl. now rewrite Z.rem_1_r. Qed.

Lemma quot_shift (x c m t : Z) :
  0 < m -> 0 <= c <= t * m -> x ÷ m <= (x + c) ÷ m <= x ÷ m + t.
Proof.
  intros Hm Hc. split; [apply Z.quot_le_mono; lia |].
  pose proof (Z.quot_rem' x m) as Hx.
  destruct (Z.le_gt_cases 0 x) as [Hpos | Hneg].
  - pose proof (Z.rem_bound_pos x m Hpos Hm) as Hr.
    rewrite (Z.quot_div_nonneg (x + c)) by lia.
    apply Z.lt_succ_r. apply Z.div_lt_upper_bound; [lia |]. nia.
  - pose proof (Z.rem_bound_pos_neg x m Hm ltac:(lia)) as Hr.
    apply Z.quot_le_upper_bound; [lia |]. nia.
Qed.

(** Adding a page size between 0 and [bound] moves the truncation of an
    offset forward by at most [bound]. *)
Lemma Qtrunc_add_bounds (q l : Q) (bound : Z) :
  (0 <= l)%Q -> (l <= inject_Z bound)%Q ->
  Qtrunc q <= Qtrunc (q + l) <= Qtrunc q + bound.
Proof.
  destruct q as [a b], l as [c d]. unfold Qle, Qtrunc, Qplus. simpl.
  rewrite !Z.mul_1_r. intros H0 Hb.
  rewrite <- (Z.quot_mul_cancel_r a (Z.pos b) (Z.pos d)) by lia.
  rewrite Pos2Z.inj_mul.
  apply quot_shift; nia.
Qed.

Lemma slice_length {A : Type} (l : list A) (start stop : number) :
  (List.length (Array_slice l start stop)
   <= Z.to_nat (slice_index (Z.of_nat (List.length l)) stop
                - slice_index (Z.of_nat (List.length l)) start))%nat.
Proof.
  unfold Array_slice. rewrite length_firstn. lia.
Qed.

Lemma firstn_skipn_all {A : Type} (l : list A) (n k : nat) :
  (List.length l <= k + n)%nat -> firstn n (skipn k l) = skipn k l.
Proof.
  intros Hlen. apply firstn_all2. rewrite length_skipn. lia.
Qed.

(** [slice(k, k + size)] at integers that are not negative. *)
Lemma slice_window {A : Type} (l : list A) (k size : Z) :
  0 <= k -> 0 <= size ->
  Array_slice l (of_Z k) (add (of_Z k) (of_Z size))
  = firstn (Z.to_nat size) (skipn (Z.to_nat k) l).
Proof.
  intros Hk Hsize. unfold Array_slice, of_Z, add, slice_index.
  rewrite Qtrunc_add_integers, Qtrunc_inject.
  set (len := Z.of_nat (List.length l)).
  destruct (k <? 0) eqn:Ek; [lia |].
  destruct (k + size <? 0) eqn:Es; [lia |].
  destruct (Z.le_gt_cases len k) as [Hout | Hin].
  - rewrite (skipn_all2 l) by lia. rewrite (skipn_all2 l) by lia.
    now rewrite !firstn_nil.
  - rewrite (Z.min_l k len) by lia.
    destruct (Z.le_gt_cases len (k + size)) as [Hend | Hmid].
    + rewrite !firstn_skipn_all by lia. reflexivity.
    + f_equal. lia.
Qed.

(** *** The effective page size *)

Lemma lt_integers (a b : Z) : lt (of_Z a) (of_Z b) = (a <? b).
Proof.
  unfold of_Z. destruct (a <? b) eqn:E.
  - apply lt_Fin. rewrite <- Zlt_Qlt. lia.
  - apply lt_Fin_false. rewrite <- Zle_Qle. lia.
Qed.

Lemma Math_min_integers (a b : Z) :
  Math_min (of_Z a) (of_Z b) = of_Z (Z.min a b).
Proof.
  pose proof (lt_integers b a) as Hlt. unfold of_Z in *. unfold Math_min.
  rewrite Hlt. destruct (Z.ltb_spec b a); do 2 f_equal; lia.
Qed.

Lemma pageLimit_integer (options : QueryOptions) (n : Z) :
  requestedLimit options = of_Z n ->
  pageLimit options = of_Z (Z.min n 100).
Proof.
  intros Hreq. rewrite pageLimit_requested, Hreq. apply Math_min_integers.
Qed.

(** The effective page size is a number between 0 and [maxLimit] when the
    requested limit is not negative. *)
Lemma pageLimit_range (options : QueryOptions) :
  le (of_Z 0) (requestedLimit options) = true ->
  exists l : Q, pageLimit options = Fin l /\ (0 <= l)%Q /\ (l <= 100)%Q.
Proof.
  intros Hreq.
  destruct (pageLimit_least options) as (Hcase & _ & Hmax).
  assert (Hmin : le (of_Z 0) (pageLimit options) = true)
    by (destruct Hcase as [-> | ->]; [exact Hreq | reflexivity]).
  destruct (pageLimit options) as [| | l |]; try discriminate.
  exists l. split; [reflexivity |]. split.
  - apply (Qle_of_le (inject_Z 0) l Hmin).
  - apply (Qle_of_le l (inject_Z 100) Hmax).
Qed.

Lemma Z_toString_nonempty (z : Z) : Z_toString z <> "".
Proof.
  unfold Z_toString.
  destruct z as [| p | p]; cbn [Z.to_int NilZero.string_of_int];
    [discriminate | | discriminate].
  pose proof (to_uint_nonnil p) as Hp.
  rewrite (string_of_uint_nonnil _ Hp).
  destruct (Pos.to_uint p); [contradiction | discriminate ..].
Qed.

Lemma base64_encode_truthy (bytes : string) :
  bytes <> "" -> truthy (base64_encode bytes) = true.
Proof.
  destruct bytes as [| a [| b [| c rest]]]; [contradiction | reflexivity ..].
Qed.

Section WithEngine.
Context `{JSEngine}.

(** The text of the sum of two integers below 10^21 in magnitude. *)
Lemma Number_toString_add (a b : Z) :
  Z.abs (a + b) < 10 ^ 21 ->
  Number_toString (add (of_Z a) (of_Z b)) = Z_toString (a + b).
Proof.
  intros Hb. unfold Number_toString, of_Z, add.
  rewrite Qintegral_add_integers, Qtrunc_add_integers.
  apply Z.ltb_lt in Hb. now rewrite Hb.
Qed.

(** The cursor that encodes the integer [z] is read back as [z]. *)
Lemma startIndexOf_encoded (options : QueryOptions) (l : option number)
    (z : Z) :
  startIndexOf
    (with_page options l
       (Some (base64_encode (Buffer_from_utf8 (Z_toString z)))))
  = of_Z z.
Proof.
  unfold startIndexOf, Buffer_from_utf8, Buffer_toString_utf8.
  cbn [cursor with_page].
  change (truthy (base64_encode (Z_toString z)))
    with (string_truthy (base64_encode (Z_toString z))).
  pose proof (base64_encode_truthy _ (Z_toString_nonempty z)) as Ht.
  unfold truthy in Ht. rewrite Ht.
  now rewrite base64_decode_encode, parseInt_Z_toString.
Qed.

Lemma page_size (tokens : list Token) (options : QueryOptions)
    (now : Z) :
  le (of_Z 0) (requestedLimit options) = true ->
  (List.length (Types.tokens (applyPagination tokens options now)) <= 100)%nat.
Proof.
  intros Hreq. destruct (pageLimit_range options Hreq) as (l & Hl & H0 & H100).
  unfold applyPagination. cbn [Types.tokens]. rewrite Hl.
  etransitivity; [apply slice_length |].
  set (len := Z.of_nat (List.length tokens)).
  assert (Hlen : 0 <= len) by lia.
  destruct (startIndexOf options) as [| | q |]; cbn [add slice_index]; try lia.
  pose proof (Qtrunc_add_bounds q l 100 H0 H100) as Htr.
  destruct (Qtrunc q <? 0) eqn:Eq, (Qtrunc (q + l) <? 0) eqn:El; lia.
Qed.

(** X11.  Whatever the cursor and the collection, a page holds at most
    [maxLimit] = 100 records, provided the requested limit (the option
    [limit], or the default when it is absent, 0 or [NaN]) is not
    negative. *)
Theorem applyPagination_size (tokens : list Token) (options : QueryOptions)
    (now : Z) :
  le (of_Z 0) (requestedLimit options) = true ->
  (List.length (Types.tokens (applyPagination tokens options now)) <= 100)%nat.
Proof. apply page_size. Qed.

Lemma page_window (tokens : list Token) (options : QueryOptions)
    (now n k : Z) :
  requestedLimit options = of_Z n -> 1 <= n ->
  startIndexOf options = of_Z k -> 0 <= k ->
  let page := applyPagination tokens options now in
  Types.tokens page
  = firstn (Z.to_nat (Z.min n 100)) (skipn (Z.to_nat k) tokens)
  /\ total_count page = List.length tokens
  /\ (next_cursor page = None
      <-> Z.of_nat (List.length tokens) <= k + Z.min n 100).
Proof.
  intros Hreq Hn Hstart Hk. cbv zeta.
  unfold applyPagination. cbn [Types.tokens total_count next_cursor].
  rewrite (pageLimit_integer options n Hreq), Hstart.
  split; [apply slice_window; lia |]. split; [reflexivity |].
  unfold of_nat.
  assert (Hlt : lt (add (of_Z k) (of_Z (Z.min n 100)))
                  (of_Z (Z.of_nat (List.length tokens)))
                = (k + Z.min n 100 <? Z.of_nat (List.length tokens))).
  { destruct (k + Z.min n 100 <? Z.of_nat (List.length tokens)) eqn:E.
    - apply lt_Fin. rewrite <- inject_Z_plus, <- Zlt_Qlt. lia.
    - apply lt_Fin_false. rewrite <- inject_Z_plus, <- Zle_Qle. lia. }
  rewrite Hlt.
  destruct (k + Z.min n 100 <? Z.of_nat (List.length tokens)) eqn:E;
    split; intros; try discriminate; try reflexivity; lia.
Qed.

(** X12.  The page at an offset [k] that is not negative, for a requested
    limit [n] of at least 1, holds the [min n 100] records that follow the
    first [k], or those that are left of them; it reports the size of the
    collection, and carries a cursor exactly when records are left beyond
    it. *)
Theorem applyPagination_window (tokens : list Token) (options : QueryOptions)
    (now n k : Z) :
  requestedLimit options = of_Z n -> 1 <= n ->
  startIndexOf options = of_Z k -> 0 <= k ->
  let page := applyPagination tokens options now in
  Types.tokens page
  = firstn (Z.to_nat (Z.min n 100)) (skipn (Z.to_nat k) tokens)
  /\ total_count page = List.length tokens
  /\ (next_cursor page = None
      <-> Z.of_nat (List.length tokens) <= k + Z.min n 100).
Proof. apply page_window. Qed.

(** C3, as the code has it.  The effective page size is the requested
    limit clamped from above only: it is the smaller of the requested limit
    and [maxLimit], that is the requested limit itself when that is at most
    [maxLimit] and [maxLimit] when it is greater; the requested limit is the
    option [limit], or the default when the option is absent, zero or
    [NaN].  It is at least 1 whenever the requested limit is, and then every
    page over a non-empty collection that starts at a valid offset holds at
    least one record.  For an integral requested limit [n >= 1] the page at
    the offset [k >= 0] holds the [min n maxLimit] records that follow the
    first [k], or those that are left of them. *)
Theorem pageLimit_capped (options : QueryOptions) :
  least_of (requestedLimit options) Config.pagination_maxLimit
    (pageLimit options)
  /\ (le (requestedLimit options) Config.pagination_maxLimit = true ->
      pageLimit options = requestedLimit options)
  /\ (lt Config.pagination_maxLimit (requestedLimit options) = true ->
      pageLimit options = Config.pagination_maxLimit)
  /\ (le (of_Z 1) (requestedLimit options) = true ->
      le (of_Z 1) (pageLimit options) = true
      /\ forall (tokens : list Token) (k now : Z),
           0 <= k < Z.of_nat (List.length tokens) ->
           startIndexOf options = of_Z k ->
           Types.tokens (applyPagination tokens options now) <> [])
  /\ (forall (tokens : list Token) (n k now : Z),
        requestedLimit options = of_Z n -> 1 <= n ->
        startIndexOf options = of_Z k -> 0 <= k ->
        Types.tokens (applyPagination tokens options now)
        = firstn (Z.to_nat (Z.min n 100)) (skipn (Z.to_nat k) tokens)).
Proof.
  pose proof (pageLimit_least options) as Hleast.
  pose proof (requestedLimit_number options) as Hnum.
  split; [exact Hleast |].
  assert (Hmin : pageLimit options
                 = if lt Config.pagination_maxLimit (requestedLimit options)
                   then Config.pagination_maxLimit
                   else requestedLimit options).
  { rewrite pageLimit_requested. unfold Math_min.
    destruct (requestedLimit options); try discriminate; reflexivity. }
  split; [| split; [| split]].
  - intros Hle. rewrite Hmin.
    destruct (lt Config.pagination_maxLimit (requestedLimit options)) eqn:Hlt;
      [| reflexivity].
    apply FilterSort.le_number in Hle as (_ & _ & Hnlt). congruence.
  - intros Hlt. now rewrite Hmin, Hlt.
  - intros Hone.
    destruct Hleast as (Hcase & _ & Hmax).
    assert (Hone' : le (of_Z 1) (pageLimit options) = true)
      by (destruct Hcase as [-> | ->]; [exact Hone | reflexivity]).
    split; [exact Hone' |].
    intros tokens k now Hk Hstart. unfold applyPagination. simpl.
    rewrite Hstart. apply slice_nonempty; [exact Hk |].
    destruct (pageLimit options) as [| | q |] eqn:Hlimit; try discriminate.
    unfold of_Z at 1. simpl add. unfold slice_index.
    pose proof (Qtrunc_add_ge k q (proj1 Hk) (Qle_of_le _ _ Hone')) as Htr.
    destruct (Qtrunc (inject_Z k + q) <? 0) eqn:Hneg; lia.
  - intros tokens n k now Hreq Hn Hstart Hk.
    now destruct (page_window tokens options now n k Hreq Hn Hstart Hk).
Qed.

Lemma cursor_decodes (tokens : list Token) (options : QueryOptions)
    (now n k : Z) :
  requestedLimit options = of_Z n -> 1 <= n ->
  startIndexOf options = of_Z k -> 0 <= k ->
  k + Z.min n 100 < Z.of_nat (List.length tokens) < 10 ^ 21 ->
  exists c : string,
    next_cursor (applyPagination tokens options now) = Some c
    /\ forall (others : QueryOptions) (l : option number),
         startIndexOf (with_page others l (Some c))
         = of_Z (k + Z.min n 100).
Proof.
  intros Hreq Hn Hstart Hk Hlen.
  unfold applyPagination. cbn [next_cursor].
  rewrite (pageLimit_integer options n Hreq), Hstart.
  assert (Hlt : lt (add (of_Z k) (of_Z (Z.min n 100)))
                  (of_nat (List.length tokens)) = true).
  { apply lt_Fin. rewrite <- inject_Z_plus, <- Zlt_Qlt. lia. }
  rewrite Hlt, Number_toString_add by lia.
  eexists. split; [reflexivity |].
  intros others l. apply startIndexOf_encoded.
Qed.

(** X13.  The cursor of a page is read back as the offset behind the page:
    when the page at offset [k] for a requested limit [n] leaves records
    beyond it, in a collection of fewer than 10^21 records, it carries a
    cursor, and a request with that cursor starts at [k + min n 100],
    whatever its limit. *)
Theorem next_cursor_decodes (tokens : list Token) (options : QueryOptions)
    (now n k : Z) :
  requestedLimit options = of_Z n -> 1 <= n ->
  startIndexOf options = of_Z k -> 0 <= k ->
  k + Z.min n 100 < Z.of_nat (List.length tokens) < 10 ^ 21 ->
  exists c : string,
    next_cursor (applyPagination tokens options now) = Some c
    /\ forall (others : QueryOptions) (l : option number),
         startIndexOf (with_page others l (Some c))
         = of_Z (k + Z.min n 100).
Proof. apply cursor_decodes. Qed.



(** X15.  A negative limit [-n] is not raised to 1 and escapes [maxLimit]:
    without a cursor the page holds the whole collection but its last [n]
    records, and it always carries a cursor. *)
Theorem applyPagination_negative_limit (tokens : list Token)
    (options : QueryOptions) (now n : Z) :
  limit options = Some (of_Z (- n)) -> 1 <= n ->
  cursor options = None ->
  let page := applyPagination tokens options now in
  Types.tokens page = firstn (List.length tokens - Z.to_nat n) tokens
  /\ next_cursor page <> None.
Proof.
  intros Hlimit Hn Hcursor. cbv zeta.
  assert (Hreq : requestedLimit options = of_Z (- n)).
  { unfold requestedLimit, or_default. rewrite Hlimit.
    replace (truthy (of_Z (- n))) with true; [reflexivity |].
    unfold truthy, number_truthy, JSNum.truthy, of_Z, Qzero.
    destruct n; try lia; reflexivity. }
  unfold applyPagination. cbn [Types.tokens next_cursor].
  rewrite (pageLimit_integer options _ Hreq).
  unfold startIndexOf. rewrite Hcursor.
  rewrite Z.min_l by lia. split.
  - unfold Array_slice, of_Z, add, slice_index.
    rewrite Qtrunc_add_integers, Qtrunc_inject.
    cbn [Z.ltb Z.compare Z.add Z.to_nat skipn Z.min].
    destruct (- n <? 0) eqn:E; [| lia].
    f_equal; [lia |].
    rewrite Z.min_l by lia. reflexivity.
  - assert (Hlt : lt (add (of_Z 0) (of_Z (- n)))
                    (of_nat (List.length tokens)) = true).
    { apply lt_Fin. rewrite <- inject_Z_plus, <- Zlt_Qlt. lia. }
    rewrite Hlt. discriminate.
Qed.

End WithEngine.

(** A requested limit of 2.5 at offset 0 of a collection of two records. *)
Lemma pageLimit_capped_witness :
  le (of_Z 1) (requestedLimit (with_page no_options (Some (Fin (5 # 2))) None))
    = true
  /\ tokens (@applyPagination ascii_engine
               [unnamed_pair; listed_token]
               (with_page no_options (Some (Fin (5 # 2))) None) 0) <> [].
Proof.
  split; [reflexivity |].
  destruct (@pageLimit_capped ascii_engine
              (with_page no_options (Some (Fin (5 # 2))) None))
    as (_ & _ & _ & Hpage & _).
  destruct (Hpage eq_refl) as [_ Hnonempty].
  apply (Hnonempty _ 0); [simpl; lia | reflexivity].
Defined.

Lemma applyPagination_size_witness :
  (List.length
     (Types.tokens
        (@applyPagination ascii_engine mockTokens
           (with_page no_options (Some (of_Z 1000)) (Some "MQ==")) 0))
   <= 100)%nat.
Proof.
  apply (@applyPagination_size ascii_engine). reflexivity.
Defined.

Lemma applyPagination_window_witness :
  let page :=
    @applyPagination ascii_engine mockTokens
      (with_page no_options (Some (of_Z 1)) None) 0 in
  Types.tokens page
  = firstn (Z.to_nat (Z.min 1 100)) (skipn (Z.to_nat 0) mockTokens)
  /\ total_count page = List.length mockTokens
  /\ (next_cursor page = None
      <-> Z.of_nat (List.length mockTokens) <= 0 + Z.min 1 100).
Proof.
  apply (@applyPagination_window ascii_engine mockTokens
           (with_page no_options (Some (of_Z 1)) None) 0 1 0);
    [reflexivity | lia | reflexivity | lia].
Defined.

Lemma next_cursor_decodes_witness :
  exists c : string,
    next_cursor
      (@applyPagination ascii_engine mockTokens
         (with_page no_options (Some (of_Z 1)) None) 0) = Some c
    /\ forall (others : QueryOptions) (l : option number),
         startIndexOf (with_page others l (Some c)) = of_Z (0 + Z.min 1 100).
Proof.
  apply (@next_cursor_decodes ascii_engine mockTokens
           (with_page no_options (Some (of_Z 1)) None) 0 1 0);
    [reflexivity | lia | reflexivity | lia | split; reflexivity].
Defined.


Lemma applyPagination_negative_limit_witness :
  let page := @applyPagination ascii_engine mockTokens negative_limit 0 in
  Types.tokens page = firstn (List.length mockTokens - Z.to_nat 5) mockTokens
  /\ next_cursor page <> None.
Proof.
  apply (@applyPagination_negative_limit ascii_engine mockTokens
           negative_limit 0 5); [reflexivity | lia | reflexivity].
Defined.

End Pages.

(* ================================================================= *)
(** ** The cache *)

Module CacheFacts.
Import JSNum JSString Types Json AggregationService Spec SpecMore Samples.
Import JSNumFacts JSMapFacts MergeTokens MergeAlgebra FilterSort Pagination Pages.

(** *** The store *)

Lemma getKey_inj (k k' : string) : Cache.getKey k = Cache.getKey k' -> k = k'.
Proof. unfold Cache.getKey, Config.cache_prefix. simpl. congruence. Qed.

Lemma getKey_eqb (k k' : string) :
  String.eqb (Cache.getKey k') (Cache.getKey k) = String.eqb k' k.
Proof.
  destruct (String.eqb_spec k' k) as [-> | Hne].
  - apply String.eqb_refl.
  - apply String.eqb_neq. intros Heq. apply Hne. now apply getKey_inj.
Qed.


Lemma get_set_eqb {V : Type} (k k' : string) (v : V) (m : JSMap.t V) :
  JSMap.get k' (JSMap.set k v m)
  = if String.eqb k' k then Some v else JSMap.get k' m.
Proof.
  destruct (String.eqb_spec k' k) as [-> | Hne].
  - apply get_set_same.
  - now apply get_set_other.
Qed.




Lemma get_after_set {A : Type} `{ToJSON A} (r : Cache.Redis) (k k' : string)
    (v : A) (ttl : Z) :
  Cache.get (Cache.set r k v ttl) k'
  = if Cache.reachable r && (0 <? ttl)
    then if String.eqb k' k then Some (toJSON v) else Cache.get r k'
    else Cache.get r k'.
Proof.
  unfold Cache.set, Cache.get.
  destruct (Cache.reachable r) eqn:Er, (0 <? ttl) eqn:Et; cbn [andb];
    cbn [Cache.reachable Cache.entries]; rewrite ?Er; try reflexivity.
  rewrite get_set_eqb, getKey_eqb.
  now destruct (String.eqb k' k).
Qed.


(** *** Pages as JSON *)

Lemma as_number_toJSON (x : number) :
  as_number (toJSON x) = if finite x then Some x else None.
Proof. now destruct x. Qed.

(** A record is read back from its JSON exactly when its numbers are
    finite. *)
Lemma as_Token_toJSON (t : Token) :
  as_Token (toJSON t) = if finite_token t then Some t else None.
Proof.
  destruct t as [address name ticker price market_cap volume liquidity count
                   change1 change24 change7 label dex updated].
  unfold finite_token, toJSON, Token_toJSON, as_Token, member.
  cbn [Types.token_address Types.token_name Types.token_ticker Types.price_sol
       Types.market_cap_sol Types.volume_sol Types.liquidity_sol
       Types.transaction_count Types.price_1hr_change Types.price_24hr_change
       Types.price_7d_change Types.protocol Types.dex_id Types.last_updated].
  destruct change24 as [c24 |], change7 as [c7 |], dex as [d |];
    cbn -[as_number finite Json.toJSON];
    change (Json.toJSON ?x) with (toJSON x);
    rewrite ?as_number_toJSON;
    repeat match goal with
           | |- context [finite ?x] =>
               destruct (finite x); cbn -[as_number finite Json.toJSON];
               rewrite ?as_number_toJSON; try reflexivity
           end.
Qed.

Lemma as_Tokens_toJSON (l : list Token) :
  as_Tokens (map toJSON l) = if forallb finite_token l then Some l else None.
Proof.
  induction l as [| t r IH]; [reflexivity |].
  cbn [map as_Tokens forallb]. rewrite as_Token_toJSON.
  destruct (finite_token t); [| reflexivity]. cbn [and_then andb].
  rewrite IH. now destruct (forallb finite_token r).
Qed.

(** A page is read back from its JSON exactly when the numbers of its
    records are finite. *)
Lemma as_TokenResponse_toJSON (page : TokenResponse) :
  as_TokenResponse (toJSON page)
  = if finite_page page then Some page else None.
Proof.
  destruct page as [records next total time].
  unfold finite_page, toJSON, TokenResponse_toJSON, as_TokenResponse, member.
  cbn [Types.tokens Types.next_cursor Types.total_count Types.timestamp].
  assert (Hcount : as_count (toJSON total) = Some total).
  { unfold as_count, as_integer, toJSON, nat_toJSON, inject_Z.
    cbn [Qden Qnum]. rewrite Pos.eqb_refl.
    destruct (Z.leb_spec 0 (Z.of_nat total)); [| lia].
    now rewrite Nat2Z.id. }
  assert (Htime : as_integer (toJSON time) = Some time) by reflexivity.
  destruct next as [c |];
    cbn -[as_count as_integer as_Tokens Json.toJSON];
    change (Json.toJSON ?x) with (toJSON x);
    (change (toJSON records) with (JArray (map toJSON records)));
    cbn -[as_count as_integer as_Tokens Json.toJSON];
    rewrite as_Tokens_toJSON;
    (destruct (forallb finite_token records); [| reflexivity]);
    cbn -[as_count as_integer Json.toJSON];
    change (Json.toJSON ?x) with (toJSON x);
    now rewrite Hcount, Htime.
Qed.


(** *** Lists *)

Lemma slice_nil {A : Type} (start stop : number) :
  @Array_slice A [] start stop = [].
Proof. unfold Array_slice. now rewrite skipn_nil, firstn_nil. Qed.

Lemma In_firstn {A : Type} (n : nat) (l : list A) (x : A) :
  In x (firstn n l) -> In x l.
Proof.
  intros Hin. rewrite <- (firstn_skipn n l). apply in_or_app. now left.
Qed.

Lemma In_skipn {A : Type} (n : nat) (l : list A) (x : A) :
  In x (skipn n l) -> In x l.
Proof.
  intros Hin. rewrite <- (firstn_skipn n l). apply in_or_app. now right.
Qed.

Lemma In_slice {A : Type} (l : list A) (start stop : number) (x : A) :
  In x (Array_slice l start stop) -> In x l.
Proof.
  unfold Array_slice. intros Hin.
  apply In_firstn in Hin. eapply In_skipn. exact Hin.
Qed.

Lemma NoDup_map_firstn {A B : Type} (f : A -> B) (n : nat) (l : list A) :
  NoDup (map f l) -> NoDup (map f (firstn n l)).
Proof.
  intros Hnd. rewrite <- (firstn_skipn n l), map_app in Hnd.
  now apply NoDup_app_remove_r in Hnd.
Qed.

Lemma NoDup_map_skipn {A B : Type} (f : A -> B) (n : nat) (l : list A) :
  NoDup (map f l) -> NoDup (map f (skipn n l)).
Proof.
  intros Hnd. rewrite <- (firstn_skipn n l), map_app in Hnd.
  now apply NoDup_app_remove_l in Hnd.
Qed.

(** Filtering keeps the keys distinct. *)
Lemma NoDup_map_filter {A B : Type} (keep : A -> bool) (key : A -> B)
    (records : list A) :
  NoDup (map key records) -> NoDup (map key (filter keep records)).
Proof.
  induction records as [| x r IH]; simpl; trivial.
  intros Hnd. inversion Hnd as [| ? ? Hx Hr]; subst.
  destruct (keep x); [| now apply IH]. simpl. constructor; [| now apply IH].
  intros Hin. apply Hx. apply in_map_iff in Hin as (y & Hy & Hin).
  apply filter_In in Hin as [Hin _]. apply in_map_iff. eauto.
Qed.



Section WithEngine.
Context `{JSEngine}.

Lemma generateCacheKey_with_page (options : QueryOptions) (l : option number)
    (c : option string) :
  generateCacheKey (with_page options l c) = generateCacheKey options.
Proof. reflexivity. Qed.




(** *** Hits and misses *)

Lemma aggregateTokens_miss (redis : Cache.Redis)
    (dexTokens jupiterTokens : Promise (list Token))
    (options : QueryOptions) (ttl now : Z) :
  Cache.get redis (generateCacheKey options) = None ->
  let page :=
    pipeline (fetched_of dexTokens ++ fetched_of jupiterTokens) options now in
  aggregateTokens redis dexTokens jupiterTokens options ttl now
  = (Fulfilled (Computed page),
     Cache.set redis (generateCacheKey options) page ttl).
Proof.
  intros Hmiss. cbv zeta. unfold aggregateTokens, pipeline. rewrite Hmiss.
  cbn [truthy option_truthy].
  destruct dexTokens, jupiterTokens; cbn [fetched_of app];
    rewrite ?app_nil_r; reflexivity.
Qed.

Lemma aggregateTokens_hit (redis : Cache.Redis)
    (dexTokens jupiterTokens : Promise (list Token))
    (options : QueryOptions) (ttl now : Z) (cached : JSON) :
  Cache.get redis (generateCacheKey options) = Some cached ->
  truthy cached = true ->
  aggregateTokens redis dexTokens jupiterTokens options ttl now
  = (Fulfilled (Cached cached), redis).
Proof.
  intros Hget Htruthy. unfold aggregateTokens. rewrite Hget.
  change (truthy (Some cached)) with (truthy cached). now rewrite Htruthy.
Qed.


(** A request after a request: the entry of the first one is found. *)
Lemma aggregateTokens_again (redis : Cache.Redis)
    (dexTokens jupiterTokens : Promise (list Token))
    (options : QueryOptions) (ttl now : Z) :
  Cache.reachable redis = true -> 0 < ttl ->
  exists served : Served,
    fst (aggregateTokens redis dexTokens jupiterTokens options ttl now)
    = Fulfilled served
    /\ forall (l : option number) (c : option string)
              (dexTokens' jupiterTokens' : Promise (list Token))
              (ttl' now' : Z),
         aggregateTokens
           (snd (aggregateTokens redis dexTokens jupiterTokens options
                   ttl now))
           dexTokens' jupiterTokens' (with_page options l c) ttl' now'
         = (Fulfilled (Cached (json_of served)),
            snd (aggregateTokens redis dexTokens jupiterTokens options
                   ttl now)).
Proof.
  intros Hr Httl.
  destruct (Cache.get redis (generateCacheKey options)) as [cached |] eqn:Hget.
  - destruct (truthy cached) eqn:Ht.
    + rewrite (aggregateTokens_hit _ _ _ _ _ _ _ Hget Ht). cbn [fst snd].
      eexists. split; [reflexivity |]. intros l c dex' jup' ttl' now'.
      apply aggregateTokens_hit; [exact Hget | exact Ht].
    + unfold aggregateTokens at 1 3 4. rewrite Hget.
      change (truthy (Some cached)) with (truthy cached). rewrite Ht.
      cbn [fst snd]. eexists. split; [reflexivity |].
      intros l c dex' jup' ttl' now'.
      apply aggregateTokens_hit; [| reflexivity].
      change (generateCacheKey (with_page options l c))
        with (generateCacheKey options).
      rewrite get_after_set, Hr. apply Z.ltb_lt in Httl. rewrite Httl.
      cbn [andb]. now rewrite String.eqb_refl.
  - rewrite (aggregateTokens_miss _ _ _ _ _ _ Hget). cbn [fst snd].
    eexists. split; [reflexivity |]. intros l c dex' jup' ttl' now'.
    apply aggregateTokens_hit; [| reflexivity].
    change (generateCacheKey (with_page options l c))
      with (generateCacheKey options).
    rewrite get_after_set, Hr. apply Z.ltb_lt in Httl. rewrite Httl.
    cbn [andb]. now rewrite String.eqb_refl.
Qed.

(** X18.  While Redis is reachable, the time-to-live is positive and the
    entry is in the store, every later request with the same sort key, sort
    order and thresholds is answered from the cache with the JSON of the
    response to the first request: the limit and the cursor of the later
    request are not read, and neither are the sources.  A computed response
    whose numbers are all finite is read back from that JSON as it was. *)
Theorem aggregateTokens_cached (redis : Cache.Redis)
    (dexTokens jupiterTokens : Promise (list Token))
    (options : QueryOptions) (ttl now : Z) :
  Cache.reachable redis = true -> 0 < ttl ->
  exists served : Served,
    fst (aggregateTokens redis dexTokens jupiterTokens options ttl now)
    = Fulfilled served
    /\ (forall (l : option number) (c : option string)
               (dexTokens' jupiterTokens' : Promise (list Token))
               (ttl' now' : Z),
          aggregateTokens
            (snd (aggregateTokens redis dexTokens jupiterTokens options
                    ttl now))
            dexTokens' jupiterTokens' (with_page options l c) ttl' now'
          = (Fulfilled (Cached (json_of served)),
             snd (aggregateTokens redis dexTokens jupiterTokens options
                    ttl now)))
    /\ (forall page : TokenResponse,
          served = Computed page -> finite_page page = true ->
          as_TokenResponse (json_of served) = Some page).
Proof.
  intros Hr Httl.
  destruct (aggregateTokens_again redis dexTokens jupiterTokens options ttl
              now Hr Httl) as (served & Hfirst & Hlater).
  exists served. split; [exact Hfirst |]. split; [exact Hlater |].
  intros page -> Hfinite. cbn [json_of].
  now rewrite as_TokenResponse_toJSON, Hfinite.
Qed.

(** *** A response computed from the sources *)

Lemma mergeTokens_keys_NoDup (tokens : list Token) :
  NoDup (map key_of (mergeTokens tokens)).
Proof.
  unfold mergeTokens.
  destruct (merged_so_far_all tokens) as [Hnd Hentry _ _].
  rewrite keys_of_values; [exact Hnd |].
  intros k t Hin. now apply Hentry.
Qed.

Lemma mergeTokens_length (tokens : list Token) :
  (List.length (mergeTokens tokens) <= List.length tokens)%nat.
Proof.
  unfold mergeTokens, JSMap.values. rewrite length_map.
  now destruct (merged_so_far_all tokens).
Qed.

Lemma applyFilters_length (tokens : list Token) (options : QueryOptions) :
  (List.length (applyFilters tokens options) <= List.length tokens)%nat.
Proof.
  rewrite applyFilters_filter.
  etransitivity; [apply filter_length_le |]. apply filter_length_le.
Qed.


Lemma applySort_perm (tokens : list Token) (options : QueryOptions) :
  Permutation tokens (applySort tokens options).
Proof. apply Array_sort_perm. Qed.


Lemma pipeline_distinct (fetched : list Token) (options : QueryOptions)
    (now : Z) :
  NoDup (map key_of (tokens (pipeline fetched options now))).
Proof.
  unfold pipeline, applyPagination, Array_slice. cbn [tokens].
  apply NoDup_map_firstn, NoDup_map_skipn.
  eapply Permutation_NoDup;
    [apply Permutation_map; apply applySort_perm |].
  rewrite applyFilters_filter. do 2 apply NoDup_map_filter.
  apply mergeTokens_keys_NoDup.
Qed.

Lemma pipeline_merged (fetched : list Token) (options : QueryOptions)
    (now : Z) (t : Token) :
  In t (tokens (pipeline fetched options now)) ->
  In t (mergeTokens fetched)
  /\ meets (min_volume options) (volume_sol t)
  /\ meets (min_liquidity options) (liquidity_sol t).
Proof.
  unfold pipeline, applyPagination. cbn [tokens]. intros Hin.
  apply In_slice in Hin.
  apply (Permutation_in _ (Permutation_sym (applySort_perm _ options))) in Hin.
  rewrite applyFilters_filter, !filter_In, !passes_spec in Hin. tauto.
Qed.


Lemma pipeline_total (fetched : list Token) (options : QueryOptions)
    (now : Z) :
  (total_count (pipeline fetched options now) <= List.length fetched)%nat.
Proof.
  unfold pipeline, applyPagination. cbn [total_count].
  rewrite <- (Permutation_length (applySort_perm _ options)).
  etransitivity; [apply applyFilters_length |]. apply mergeTokens_length.
Qed.


(** X19.  A response that is computed from the sources lists no address
    twice, letter case apart; each of its records meets both thresholds of
    the request; and its total is at most the number of records
    fetched. *)
Theorem aggregateTokens_fresh (redis : Cache.Redis)
    (dexTokens jupiterTokens : Promise (list Token))
    (options : QueryOptions) (ttl now : Z) :
  Cache.get redis (generateCacheKey options) = None ->
  exists page : TokenResponse,
    fst (aggregateTokens redis dexTokens jupiterTokens options ttl now)
    = Fulfilled (Computed page)
    /\ NoDup (map key_of (tokens page))
    /\ (forall t, In t (tokens page) ->
          meets (min_volume options) (volume_sol t)
          /\ meets (min_liquidity options) (liquidity_sol t))
    /\ (total_count page
        <= List.length (fetched_of dexTokens ++ fetched_of jupiterTokens))%nat.
Proof.
  intros Hmiss. rewrite (aggregateTokens_miss _ _ _ _ _ _ Hmiss).
  eexists. split; [reflexivity |].
  split; [apply pipeline_distinct |]. split; [| apply pipeline_total].
  intros t Hin. now apply pipeline_merged in Hin.
Qed.


(** X21.  [aggregateTokens] does not reject when both sources do: on a miss
    of the cache the response is the page without records and with a total
    of 0.  While Redis is reachable and the time-to-live is positive that
    page is stored like any other, so that, as long as the entry is in the
    store, later requests with the same sort key, sort order and thresholds
    receive its JSON although the sources have recovered; with a
    time-to-live that is not positive nothing is stored. *)
Theorem aggregateTokens_outage (redis : Cache.Redis) (reason1 reason2 : Error)
    (options : QueryOptions) (ttl now : Z) :
  Cache.get redis (generateCacheKey options) = None ->
  exists page : TokenResponse,
    tokens page = [] /\ total_count page = 0%nat
    /\ fst (aggregateTokens redis (Rejected reason1) (Rejected reason2)
              options ttl now) = Fulfilled (Computed page)
    /\ (Cache.reachable redis = true -> 0 < ttl ->
        forall (l : option number) (c : option string)
               (dexTokens jupiterTokens : list Token) (ttl' now' : Z),
          fst (aggregateTokens
                 (snd (aggregateTokens redis (Rejected reason1)
                         (Rejected reason2) options ttl now))
                 (Fulfilled dexTokens) (Fulfilled jupiterTokens)
                 (with_page options l c) ttl' now')
          = Fulfilled (Cached (toJSON page)))
    /\ (ttl <= 0 ->
        snd (aggregateTokens redis (Rejected reason1) (Rejected reason2)
               options ttl now) = redis).
Proof.
  intros Hmiss. rewrite (aggregateTokens_miss _ _ _ _ _ _ Hmiss).
  cbn [fetched_of app fst snd]. eexists. split; [| split; [| split; [| split]]].
  3: reflexivity.
  - unfold pipeline, applyPagination. cbn [tokens].
    change (mergeTokens []) with (@nil Token).
    rewrite applyFilters_filter. apply slice_nil.
  - unfold pipeline, applyPagination. cbn [total_count].
    change (mergeTokens []) with (@nil Token).
    now rewrite applyFilters_filter.
  - intros Hr Httl l c dexTokens jupiterTokens ttl' now'.
    rewrite (aggregateTokens_hit _ _ _ _ _ _ (toJSON (pipeline [] options now)));
      [reflexivity | | reflexivity].
    change (generateCacheKey (with_page options l c))
      with (generateCacheKey options).
    rewrite get_after_set, Hr. apply Z.ltb_lt in Httl. rewrite Httl.
    cbn [andb]. now rewrite String.eqb_refl.
  - intros Httl. unfold Cache.set.
    destruct (0 <? ttl) eqn:E; [lia |]. now rewrite andb_false_r.
Qed.

End WithEngine.

Lemma aggregateTokens_cached_witness :
  exists served : Served,
    fst (@aggregateTokens ascii_engine redis_up (Fulfilled mockTokens)
           (Rejected unavailable) no_options 30 0)
    = Fulfilled served
    /\ @aggregateTokens ascii_engine
         (snd (@aggregateTokens ascii_engine redis_up (Fulfilled mockTokens)
                 (Rejected unavailable) no_options 30 0))
         (Rejected unavailable) (Fulfilled [])
         (with_page no_options (Some (of_Z 1)) (Some "MQ==")) 30 5
       = (Fulfilled (Cached (json_of served)),
          snd (@aggregateTokens ascii_engine redis_up (Fulfilled mockTokens)
                 (Rejected unavailable) no_options 30 0)).
Proof.
  destruct (@aggregateTokens_cached ascii_engine redis_up
              (Fulfilled mockTokens) (Rejected unavailable) no_options 30 0
              eq_refl ltac:(lia)) as (served & Hfirst & Hlater & _).
  exists served. split; [exact Hfirst | apply Hlater].
Defined.

Lemma aggregateTokens_fresh_witness :
  exists page : TokenResponse,
    fst (@aggregateTokens ascii_engine redis_down (Fulfilled mockTokens)
           (Fulfilled [listed_token]) no_options 30 0)
    = Fulfilled (Computed page)
    /\ NoDup (map (@key_of ascii_engine) (tokens page))
    /\ (forall t, In t (tokens page) ->
          meets (min_volume no_options) (volume_sol t)
          /\ meets (min_liquidity no_options) (liquidity_sol t))
    /\ (total_count page
        <= List.length (fetched_of (Fulfilled mockTokens)
                        ++ fetched_of (Fulfilled [listed_token])))%nat.
Proof.
  apply (@aggregateTokens_fresh ascii_engine redis_down (Fulfilled mockTokens)
           (Fulfilled [listed_token]) no_options 30 0 eq_refl).
Defined.


Lemma aggregateTokens_outage_witness :
  exists page : TokenResponse,
    tokens page = [] /\ total_count page = 0%nat
    /\ fst (@aggregateTokens ascii_engine redis_up (Rejected unavailable)
              (Rejected not_found) no_options 30 0)
       = Fulfilled (Computed page).
Proof.
  destruct (@aggregateTokens_outage ascii_engine redis_up unavailable
              not_found no_options 30 0 eq_refl)
    as (page & Hnone & Htotal & Hfirst & _).
  exists page. auto.
Defined.

End CacheFacts.

(* ================================================================= *)
(** ** Aggregation under the failure of one source *)

Module Aggregate.
Import JSNum JSString Types Json AggregationService Spec SpecMore Samples.
Import JSNumFacts Builtins FilterSort Pages CacheFacts.


Section WithEngine.
Context `{JSEngine}.



End WithEngine.


End Aggregate.

(* ================================================================= *)
(** ** The events of a tick *)

Module Ticks.
Import JSNum JSString Types AggregationService SocketManager Spec SpecMore.
Import Samples JSNumFacts JSMapFacts MergeAlgebra Broadcaster Pages CacheFacts.

Lemma spikes_detect (previousTokens : JSMap.t Token)
    (entries : list (string * Token)) (acc : Tick) :
  volumeSpikes (fold_left (detect previousTokens) entries acc)
  = volumeSpikes acc
    ++ map snd (filter (volume_spiked previousTokens) entries).
Proof.
  revert acc. induction entries as [| [address current] r IH]; intros acc.
  - simpl. now rewrite app_nil_r.
  - cbn [fold_left filter]. rewrite IH. unfold detect, volume_spiked at 2.
    cbn [fst snd].
    destruct (JSMap.get address previousTokens) as [previous |]; [| reflexivity].
    cbn [volumeSpikes].
    destruct (gt (volumeIncrease current previous) (of_Z 50)); [| reflexivity].
    cbn [map]. now rewrite <- app_assoc.
Qed.

Lemma rooms_detect (previousTokens : JSMap.t Token)
    (entries : list (string * Token)) (acc : Tick) :
  roomEvents (fold_left (detect previousTokens) entries acc)
  = roomEvents acc
    ++ map room_event
         (filter (fun e => JSMap.has (fst e) previousTokens) entries).
Proof.
  revert acc. induction entries as [| [address current] r IH]; intros acc.
  - simpl. now rewrite app_nil_r.
  - cbn [fold_left filter]. rewrite IH. unfold detect, JSMap.has at 2.
    cbn [fst snd].
    destruct (JSMap.get address previousTokens) as [previous |]; [| reflexivity].
    cbn [roomEvents map]. now rewrite <- app_assoc.
Qed.

(** *** Volume spikes *)

(** On a previous volume that is not negative, the increase exceeds 50
    per cent exactly when the new volume exceeds one and a half times the
    previous one. *)
Lemma volumeIncrease_spike (c p : Q) (current previous : Token) :
  volume_sol current = Fin c -> volume_sol previous = Fin p -> (0 <= p)%Q ->
  gt (volumeIncrease current previous) (of_Z 50) = true
  <-> ((3 # 2) * p < c)%Q.
Proof.
  intros Hc Hp Hpos. unfold volumeIncrease, gt. rewrite Hc, Hp.
  unfold sub, neg, add, div.
  destruct (Qzero p) eqn:Hz.
  - apply Qzero_spec in Hz.
    destruct (Qzero (c + - p)) eqn:Hd.
    + apply Qzero_spec in Hd. cbn [mul]. split; [discriminate |].
      intros Hlt. exfalso. rewrite Hz in *. lra.
    + assert (Hne : ~ (c + - p == 0)%Q)
        by (intros E; apply Qzero_spec in E; congruence).
      destruct (Qnegative (c + - p)) eqn:Hn; cbn [signed_inf mul].
      * apply Qnegative_spec in Hn. split; [discriminate |].
        intros Hlt. exfalso. rewrite Hz in *. lra.
      * change (Qzero (inject_Z 100)) with false. cbn [lt of_Z].
        split; [| reflexivity]. intros _.
        assert (Hge : ~ (c + - p < 0)%Q)
          by (intros E; apply Qnegative_spec in E; congruence).
        rewrite Hz in *. lra.
  - assert (Hne : ~ (p == 0)%Q)
      by (intros E; apply Qzero_spec in E; congruence).
    assert (Hp0 : (0 < p)%Q) by lra.
    cbn [mul]. unfold of_Z. rewrite lt_Fin.
    change (inject_Z 50) with 50%Q. change (inject_Z 100) with 100%Q.
    set (x := ((c + - p) / p)%Q).
    assert (Hx : (x * p == c + - p)%Q)
      by (unfold x; field; exact Hne).
    split; intros Hlt.
    + assert (H1 : ((1 # 2) * p < x * p)%Q)
        by (apply Qmult_lt_compat_r; [exact Hp0 | lra]).
      rewrite Hx in H1. lra.
    + assert (H1 : ((1 # 2) * p < x * p)%Q) by (rewrite Hx; lra).
      apply Qmult_lt_r in H1; [| exact Hp0]. lra.
Qed.

(** X22.  On a tick, a record filed in the new snapshot under an address
    that the previous snapshot also holds joins the batch of volume spikes
    exactly when [(new.volume - prev.volume) / prev.volume * 100] exceeds
    50; for a previous volume that is not negative this is when the new
    volume exceeds one and a half times the previous one, so that a volume
    that did not grow is no spike. *)
Theorem spikeBatch_membership (previousTokens : JSMap.t Token)
    (data : TokenResponse) (address : string) (current previous : Token) :
  In (address, current) (JSMap.entries (snapshot data)) ->
  JSMap.get address previousTokens = Some previous ->
  (In current (spikeBatch previousTokens data)
   <-> gt (volumeIncrease current previous) (of_Z 50) = true)
  /\ (forall c p : Q,
        volume_sol current = Fin c -> volume_sol previous = Fin p ->
        (0 <= p)%Q ->
        (In current (spikeBatch previousTokens data) <-> ((3 # 2) * p < c)%Q)
        /\ ((c <= p)%Q -> ~ In current (spikeBatch previousTokens data))).
Proof.
  intros Hentry Hprev.
  assert (Hiff : In current (spikeBatch previousTokens data)
                 <-> gt (volumeIncrease current previous) (of_Z 50) = true).
  { unfold spikeBatch, detectAll. rewrite spikes_detect. simpl.
    destruct (snapshot_entries (tokens data)) as [Hnd Hkey].
    fold (snapshot data) in Hnd, Hkey. unfold JSMap.entries in *.
    rewrite in_map_iff. split.
    - intros ([a c] & Hc & Hin). simpl in Hc. subst c.
      apply filter_In in Hin as [Hin Hmoved].
      rewrite (Hkey _ _ Hin) in Hmoved.
      rewrite <- (Hkey _ _ Hentry) in Hmoved.
      unfold volume_spiked in Hmoved. simpl in Hmoved.
      now rewrite Hprev in Hmoved.
    - intros Hgt. exists (address, current). split; [reflexivity |].
      apply filter_In. split; [exact Hentry |].
      unfold volume_spiked. simpl. now rewrite Hprev. }
  split; [exact Hiff |].
  intros c p Hc Hp Hpos.
  pose proof (volumeIncrease_spike c p current previous Hc Hp Hpos) as Hs.
  split; [now rewrite Hiff |].
  intros Hle Hin. apply Hiff, Hs in Hin. lra.
Qed.

(** *** A tick over an unchanged snapshot *)

Lemma Qzero_self (q : Q) : Qzero (q + - q) = true.
Proof. apply Qzero_spec. lra. Qed.

Lemma unchanged_price (t : Token) : gt (priceChange t t) (of_Z 1) = false.
Proof.
  unfold priceChange, gt, sub, neg, add, div.
  destruct (price_sol t) as [| | q |]; try reflexivity.
  rewrite Qzero_self. destruct (Qzero q) eqn:Hz; [reflexivity |].
  cbn [mul Math_abs]. unfold of_Z. apply lt_Fin_false.
  assert (Hne : ~ (q == 0)%Q)
    by (intros E; apply Qzero_spec in E; congruence).
  assert (E : ((q + - q) / q * inject_Z 100 == 0)%Q) by (field; exact Hne).
  rewrite E. discriminate.
Qed.

Lemma unchanged_volume (t : Token) :
  gt (volumeIncrease t t) (of_Z 50) = false.
Proof.
  unfold volumeIncrease, gt, sub, neg, add, div.
  destruct (volume_sol t) as [| | q |]; try reflexivity.
  rewrite Qzero_self. destruct (Qzero q) eqn:Hz; [reflexivity |].
  cbn [mul]. unfold of_Z. apply lt_Fin_false.
  assert (Hne : ~ (q == 0)%Q)
    by (intros E; apply Qzero_spec in E; congruence).
  assert (E : ((q + - q) / q * inject_Z 100 == 0)%Q) by (field; exact Hne).
  rewrite E. discriminate.
Qed.

Lemma filter_none {A : Type} (p : A -> bool) (l : list A) :
  (forall x, In x l -> p x = false) -> filter p l = [].
Proof.
  induction l as [| x r IH]; intros Hall; simpl; trivial.
  rewrite (Hall x) by now left. apply IH. intros y Hy. apply Hall. now right.
Qed.

Lemma filter_all {A : Type} (p : A -> bool) (l : list A) :
  (forall x, In x l -> p x = true) -> filter p l = l.
Proof.
  induction l as [| x r IH]; intros Hall; simpl; trivial.
  rewrite (Hall x) by now left. f_equal. apply IH.
  intros y Hy. apply Hall. now right.
Qed.

(** X23.  A tick whose aggregate holds the records of the previous tick
    unchanged broadcasts neither price updates nor volume spikes, whatever
    the prices and volumes are; it sends one [token_update] to the room of
    each record. *)
Theorem checkForUpdates_unchanged (data : TokenResponse) :
  checkForUpdates (snapshot data) (Fulfilled data)
  = (map room_event (JSMap.entries (snapshot data)), snapshot data).
Proof.
  unfold checkForUpdates, detectAll.
  destruct (snapshot_entries (tokens data)) as [Hnd _].
  fold (snapshot data) in Hnd.
  assert (Hget : forall e, In e (JSMap.entries (snapshot data)) ->
            JSMap.get (fst e) (snapshot data) = Some (snd e)).
  { intros [k t] Hin. now apply In_get_NoDup. }
  rewrite updates_detect, spikes_detect, rooms_detect. cbn [updates
    volumeSpikes roomEvents app].
  rewrite (filter_none (price_moved (snapshot data))).
  - rewrite (filter_none (volume_spiked (snapshot data))).
    + rewrite filter_all.
      * cbn [map List.length Nat.ltb Nat.leb]. now rewrite app_nil_r.
      * intros e He. unfold JSMap.has. now rewrite (Hget e He).
    + intros e He. unfold volume_spiked. rewrite (Hget e He).
      apply unchanged_volume.
  - intros e He. unfold price_moved. rewrite (Hget e He).
    apply unchanged_price.
Qed.

(** X24.  A tick sends [token_update] to the room [token:<address>] of the
    records whose address the previous snapshot holds, and to no other
    room; the first tick, and every tick after a snapshot without records,
    emits nothing. *)
Theorem checkForUpdates_rooms (previousTokens : JSMap.t Token)
    (data : TokenResponse) :
  (forall (room : string) (t : Token),
     In (token_update room t)
        (fst (checkForUpdates previousTokens (Fulfilled data)))
     <-> exists address : string,
           room = ("token:" ++ address)%string
           /\ In (address, t) (JSMap.entries (snapshot data))
           /\ JSMap.has address previousTokens = true)
  /\ fst (checkForUpdates JSMap.empty (Fulfilled data)) = [].
Proof.
  split.
  - intros room t. unfold checkForUpdates, detectAll. cbn [fst].
    rewrite rooms_detect. cbn [roomEvents app].
    rewrite in_app_iff, in_map_iff. split.
    + intros [([address t'] & [= <- <-] & Hin) | Hin].
      * apply filter_In in Hin as [Hin Hhas]. exists address. auto.
      * exfalso. apply in_app_or in Hin.
        destruct Hin as [Hin | Hin];
          match type of Hin with
          | In _ (if ?b then _ else _) =>
              destruct b; simpl in Hin; [destruct Hin as [E | []] | tauto];
              discriminate
          end.
    + intros (address & -> & Hin & Hhas). left.
      exists (address, t). split; [reflexivity |].
      apply filter_In. now split.
  - unfold checkForUpdates, detectAll. cbn [fst].
    rewrite updates_detect, spikes_detect, rooms_detect.
    cbn [updates volumeSpikes roomEvents app].
    rewrite !filter_none by (intros e _; reflexivity).
    reflexivity.
Qed.

Lemma spikeBatch_membership_witness :
  let previous := with_volume (priced "mintA" (Fin 1)) (of_Z 100) in
  let current := with_volume (priced "mintA" (Fin 1)) (of_Z 151) in
  In current
    (spikeBatch (snapshot (page_of [previous])) (page_of [current])).
Proof.
  intros previous current.
  destruct (spikeBatch_membership (snapshot (page_of [previous]))
              (page_of [current]) "mintA" current previous) as [Hiff _].
  - simpl. now left.
  - reflexivity.
  - now apply Hiff.
Defined.

End Ticks.

(* ================================================================= *)
(** ** Successful retries, delays and the window of the limiter *)

Module RetryMore.
Import JSNum Types Retry Spec SpecMore Samples JSNumFacts RetryFacts.
Import MergeAlgebra Pagination.

(** *** Runs that succeed *)

Lemma attempts_schedule (config : RetryConfig) (more first : nat) :
  attempts (schedule config first more) = S more.
Proof.
  revert first. induction more as [| m IH]; intros first; [reflexivity |].
  cbn [schedule]. unfold attempts in *. cbn [filter List.length].
  now rewrite IH.
Qed.

(** X26.  When attempt [k <= maxRetries] is the first to succeed, the
    failures before it allowing a retry, [retryWithBackoff] fulfils with
    the value of that attempt after [k + 1] invocations, having slept the
    back-off delay between each two of them; a success of the first attempt
    returns without a sleep. *)
Theorem retryWithBackoff_fulfils {T : Type} (fn : nat -> Promise T)
    (config : RetryConfig) (k : nat) (v : T) :
  (k <= maxRetries config)%nat ->
  (forall i, (i < k)%nat -> retryable_failure fn i) ->
  fn k = Fulfilled v ->
  retryWithBackoff fn config = (Fulfilled v, schedule config 0 k)
  /\ attempts (snd (retryWithBackoff fn config)) = S k
  /\ (k = 0%nat -> snd (retryWithBackoff fn config) = [Invoke 0]).
Proof.
  intros Hk Hretry Hfn.
  rewrite (retryWithBackoff_success fn config k v Hk Hretry Hfn).
  cbn [snd]. split; [reflexivity |]. split; [apply attempts_schedule |].
  now intros ->.
Qed.

(** *** Delays *)

Lemma Math_pow_finite (b : Q) (n : nat) :
  (1 <= b)%Q ->
  exists p : Q, Math_pow (Fin b) n = Fin p /\ (1 <= p)%Q.
Proof.
  intros Hb. induction n as [| n (p & Hp & H1)]; cbn [Math_pow].
  - exists 1%Q. split; [reflexivity | lra].
  - rewrite Hp. exists (b * p)%Q. split; [reflexivity |]. nra.
Qed.

Lemma Math_min_mono (x y m : number) :
  isNaN m = false -> le x y = true -> le (Math_min x m) (Math_min y m) = true.
Proof.
  intros Hm Hxy.
  assert (Hx : isNaN x = false) by (destruct x; trivial; discriminate).
  assert (Hy : isNaN y = false)
    by (destruct y; trivial; destruct x; discriminate).
  destruct (Math_min_least x m Hx Hm) as (_ & Hlx & Hlm).
  destruct (Math_min_least y m Hy Hm) as ([-> | ->] & _ & _); trivial.
  now apply Pagination.le_trans with x.
Qed.

(** X27.  For an initial delay that is not negative, a multiplier of at least
    1 and a finite cap, the delay before the next attempt never exceeds
    [maxDelay] and never shrinks from one attempt to the next. *)
Theorem backoffDelay_capped (config : RetryConfig) (i b m : Q) (attempt : nat) :
  initialDelay config = Fin i -> (0 <= i)%Q ->
  backoffMultiplier config = Fin b -> (1 <= b)%Q ->
  maxDelay config = Fin m ->
  le (backoffDelay config attempt) (maxDelay config) = true
  /\ le (backoffDelay config attempt) (backoffDelay config (S attempt)) = true.
Proof.
  intros Hi Hi0 Hb Hb1 Hm. unfold backoffDelay. rewrite Hi, Hb, Hm.
  destruct (Math_pow_finite b attempt Hb1) as (p & Hp & Hp1).
  cbn [Math_pow]. rewrite Hp. cbn [mul]. split.
  - now destruct (Math_min_least (Fin (i * p)) (Fin m) eq_refl eq_refl)
      as (_ & _ & Hle).
  - apply Math_min_mono; [reflexivity |].
    apply le_of_Qle.
    assert (H1 : (0 <= i * p)%Q) by (apply Qmult_le_0_compat; lra).
    assert (H2 : (0 <= (i * p) * (b - 1))%Q)
      by (apply Qmult_le_0_compat; lra).
    lra.
Qed.

(** *** The window of the outbound limiter *)

Lemma enter_granted (l : RateLimiter) (now : Z) :
  now - windowStart l < windowMs l ->
  requestCount l < maxRequests l ->
  acquire_enter l now
  = (with_window l (requestCount l + 1) (windowStart l), Granted).
Proof.
  intros Hw Hc. unfold acquire_enter.
  destruct (now - windowStart l >=? windowMs l) eqn:E; [lia |].
  destruct (requestCount l <? maxRequests l) eqn:E'; [reflexivity | lia].
Qed.

Lemma enters_granted (times : list Z) :
  forall l : RateLimiter,
    (forall t, In t times -> t - windowStart l < windowMs l) ->
    requestCount l + Z.of_nat (List.length times) <= maxRequests l ->
    forall sleeping : nat,
      limiter_run (l, sleeping) (map Enter times)
      = Some (with_window l (requestCount l + Z.of_nat (List.length times))
                (windowStart l), sleeping).
Proof.
  induction times as [| t r IH]; intros l Hw Hc sleeping.
  - cbn [map limiter_run List.length Z.of_nat]. rewrite Z.add_0_r.
    now destruct l.
  - cbn [map limiter_run limiter_step].
    rewrite enter_granted;
      [| apply Hw; now left | cbn [List.length] in Hc; lia].
    rewrite IH.
    + cbn [with_window requestCount windowStart maxRequests windowMs].
      replace (Z.of_nat (List.length (t :: r)))
        with (1 + Z.of_nat (List.length r)) by (cbn [List.length]; lia).
      now rewrite Z.add_assoc.
    + intros t' Ht'. cbn [with_window windowStart windowMs]. apply Hw.
      now right.
    + cbn [with_window requestCount maxRequests]. cbn [List.length] in Hc.
      lia.
Qed.

(** X28.  On a new limiter, the calls of [acquire] made before the window
    has elapsed proceed at once as long as they are at most [maxRequests];
    they are counted, and the window start stays.  Once [maxRequests]
    calls are counted, a further call in the window sleeps for the time
    that is left of the window, which is positive; a call after the window
    has elapsed proceeds at once and starts a window at its own clock
    reading. *)
Theorem acquire_window (budget window start : Z) (times : list Z) :
  (forall t, In t times -> t - start < window) ->
  Z.of_nat (List.length times) <= budget ->
  let l :=
    with_window (RateLimiter_new budget window start)
      (Z.of_nat (List.length times)) start in
  limiter_run (RateLimiter_new budget window start, 0%nat) (map Enter times)
  = Some (l, 0%nat)
  /\ (forall now : Z,
        Z.of_nat (List.length times) = budget -> now - start < window ->
        acquire_enter l now = (l, Waiting (window - (now - start)))
        /\ 0 < window - (now - start))
  /\ (forall now : Z,
        1 <= budget -> window <= now - start ->
        acquire_enter l now = (with_window l 1 now, Granted)).
Proof.
  intros Hw Hc. cbv zeta. split; [| split].
  - rewrite enters_granted; [reflexivity | exact Hw |].
    cbn [RateLimiter_new requestCount maxRequests]. lia.
  - intros now Hfull Hnow. split; [| lia].
    set (n := Z.of_nat (List.length times)) in *.
    unfold acquire_enter, with_window, RateLimiter_new. simpl.
    destruct (now - start >=? window) eqn:E; [lia |]. simpl.
    destruct (n <? budget) eqn:E'; [lia | reflexivity].
  - intros now Hb Hnow.
    set (n := Z.of_nat (List.length times)) in *.
    unfold acquire_enter, with_window, RateLimiter_new. simpl.
    destruct (now - start >=? window) eqn:E; [| lia]. simpl.
    destruct (0 <? budget) eqn:E'; [reflexivity | lia].
Qed.

Lemma retryWithBackoff_fulfils_witness :
  retryWithBackoff flaky_then_up Config.retry
  = (Fulfilled mockTokens, [Invoke 0; Sleep (of_Z 1000); Invoke 1]).
Proof.
  apply (proj1 (retryWithBackoff_fulfils flaky_then_up Config.retry 1
                  mockTokens ltac:(simpl; lia)
                  ltac:(intros i Hi; apply unavailable_retryable;
                        destruct i; [reflexivity | lia])
                  eq_refl)).
Defined.

Lemma backoffDelay_capped_witness :
  le (backoffDelay Config.retry 5) (maxDelay Config.retry) = true
  /\ le (backoffDelay Config.retry 5) (backoffDelay Config.retry 6) = true.
Proof.
  apply (backoffDelay_capped Config.retry 1000 2 10000 5);
    try reflexivity; lra.
Defined.

Lemma acquire_window_witness :
  limiter_run (RateLimiter_new 2 60000 0, 0%nat) (map Enter [0; 59999])
  = Some (with_window (RateLimiter_new 2 60000 0) 2 0, 0%nat).
Proof.
  apply (proj1 (acquire_window 2 60000 0 [0; 59999]
                  ltac:(intros t [<- | [<- | []]]; lia)
                  ltac:(simpl; lia))).
Defined.

End RetryMore.

(* ================================================================= *)
(** ** The inbound limiter *)

Module InboundLimiter.
Import JSString Types RateLimitMiddleware Spec SpecMore Samples.
Import JSMapFacts MergeAlgebra CacheFacts.

Lemma ceil_div_positive (w : Z) : 0 < w -> 0 < ceil_div w 1000.
Proof.
  intros Hw. unfold ceil_div.
  assert (H : (- w) / 1000 < 0) by (apply Z.div_lt_upper_bound; lia).
  lia.
Qed.

Lemma counter_key_inj (a b : string) : counter_key a = counter_key b -> a = b.
Proof.
  unfold counter_key. intros Heq. apply getKey_inj in Heq.
  simpl in Heq. congruence.
Qed.

(** The counter of a client whose count is 0 is created with the value 1
    and the expiry of a new window. *)
Lemma increment_fresh (s : Cache.Counters) (identifier : string)
    (seconds now : Z) :
  Cache.counters_reachable s = true ->
  count_at s identifier now = 0 ->
  seconds <> 0 ->
  Cache.increment s ("rate-limit:" ++ identifier) (Some seconds) now
  = (1, {| Cache.counters_reachable := true;
           Cache.counters :=
             JSMap.set (counter_key identifier)
               (1, Some (now + 1000 * seconds)) (Cache.counters s) |}).
Proof.
  intros Hr Hcount Hs. unfold Cache.increment, count_at in *. rewrite Hr.
  fold (counter_key identifier).
  assert (Hne : (seconds =? 0) = false) by now apply Z.eqb_neq.
  destruct (JSMap.get (counter_key identifier) (Cache.counters s))
    as [[value expiry] |]; [| now rewrite Hne].
  destruct (Cache.live now (value, expiry)); [| now rewrite Hne].
  cbn [fst] in Hcount. subst value. now rewrite Hne.
Qed.

(** A live counter that is not 0 is incremented and keeps its expiry. *)
Lemma increment_live (s : Cache.Counters) (identifier : string)
    (ttl : option Z) (now value expiry : Z) :
  Cache.counters_reachable s = true ->
  JSMap.get (counter_key identifier) (Cache.counters s)
  = Some (value, Some expiry) ->
  now < expiry -> 0 < value ->
  Cache.increment s ("rate-limit:" ++ identifier) ttl now
  = (value + 1,
     {| Cache.counters_reachable := true;
        Cache.counters :=
          JSMap.set (counter_key identifier) (value + 1, Some expiry)
            (Cache.counters s) |}).
Proof.
  intros Hr Hget Hnow Hvalue. unfold Cache.increment. rewrite Hr.
  fold (counter_key identifier). rewrite Hget.
  unfold Cache.live. cbn [snd].
  destruct (now <? expiry) eqn:E; [| lia].
  destruct (value + 1 =? 1) eqn:E1; [lia |].
  now destruct ttl.
Qed.

Lemma rateLimiter_response (w m : Z) (store store' : Cache.Counters)
    (req : Request) (now : Z) (k : nat) :
  Cache.increment store ("rate-limit:" ++ identifierOf req)
    (Some (ceil_div w 1000)) now = (Z.of_nat k, store') ->
  rateLimiter w m store req now = (kth_response w m k, store').
Proof.
  intros Hinc. unfold rateLimiter, kth_response. rewrite Hinc.
  now destruct (Z.of_nat k >? m).
Qed.

(** The requests of a client whose counter is live. *)
Lemma serve_live (w m : Z) (req : Request) (expiry : Z) (times : list Z) :
  forall (store : Cache.Counters) (k : nat),
    Cache.counters_reachable store = true ->
    JSMap.get (counter_key (identifierOf req)) (Cache.counters store)
    = Some (Z.of_nat (S k), Some expiry) ->
    (forall t, In t times -> t < expiry) ->
    fst (serve w m store (map (pair req) times))
    = map (kth_response w m) (seq (S (S k)) (List.length times)).
Proof.
  induction times as [| t r IH]; intros store k Hr Hget Hlive;
    [reflexivity |].
  cbn [map serve List.length seq].
  pose proof (increment_live store (identifierOf req)
                (Some (ceil_div w 1000)) t (Z.of_nat (S k)) expiry Hr Hget
                (Hlive t (or_introl eq_refl)) ltac:(lia)) as Hinc.
  replace (Z.of_nat (S k) + 1) with (Z.of_nat (S (S k))) in Hinc by lia.
  rewrite (rateLimiter_response _ _ _ _ _ _ _ Hinc).
  match goal with
  | |- context [serve w m ?s _] =>
      specialize (IH s (S k) eq_refl)
  end.
  cbn [Cache.counters] in IH. rewrite get_set_same in IH.
  specialize (IH eq_refl (fun t' Ht' => Hlive t' (or_intror Ht'))).
  destruct (serve w m _ (map (pair req) r)) as [responses store2].
  cbn [fst] in *. now rewrite IH.
Qed.

(** X29.  While Redis is reachable, the requests of a client are counted
    from the first one that finds no live counter, and for the window that
    this request opens, [ceil (windowMs / 1000)] seconds long: the [k]-th
    of them is passed on exactly when [k <= maxRequests] and is answered
    with status 429 otherwise, and it carries the headers
    [X-RateLimit-Limit = maxRequests] and
    [X-RateLimit-Remaining = max 0 (maxRequests - k)]. *)
Theorem rateLimiter_window (w m : Z) (store : Cache.Counters) (req : Request)
    (first : Z) (times : list Z) :
  0 < w ->
  Cache.counters_reachable store = true ->
  count_at store (identifierOf req) first = 0 ->
  (forall t, In t times -> t < first + 1000 * ceil_div w 1000) ->
  fst (serve w m store (map (pair req) (first :: times)))
  = map (kth_response w m) (seq 1 (S (List.length times))).
Proof.
  intros Hw Hr Hcount Hlive.
  cbn [map serve List.length seq].
  pose proof (ceil_div_positive w Hw) as Hpos.
  pose proof (increment_fresh store (identifierOf req) (ceil_div w 1000)
                first Hr Hcount ltac:(lia)) as Hinc.
  rewrite (rateLimiter_response w m _ _ _ _ 1 Hinc).
  match goal with
  | |- context [serve w m ?s _] =>
      pose proof (serve_live w m req (first + 1000 * ceil_div w 1000)
                    times s 0 eq_refl) as Hrest
  end.
  cbn [Cache.counters] in Hrest. rewrite get_set_same in Hrest.
  specialize (Hrest eq_refl Hlive).
  destruct (serve w m _ (map (pair req) times)) as [responses store2].
  cbn [fst] in *. now rewrite Hrest.
Qed.

(** X30.  The limiter fails open and keeps the clients apart: while Redis
    is unreachable every request is passed on, with the whole budget as
    [X-RateLimit-Remaining], for a budget that is not negative; and a
    request leaves the count of every other client as it was. *)
Theorem rateLimiter_fail_open (w m : Z) (store : Cache.Counters)
    (req : Request) (now : Z) :
  (Cache.counters_reachable store = false -> 0 <= m ->
   rateLimiter w m store req now
   = ({| rateLimit_Limit := m; rateLimit_Remaining := m; outcome := Next |},
      store))
  /\ (forall (other : string) (t : Z),
        other <> identifierOf req ->
        count_at (snd (rateLimiter w m store req now)) other t
        = count_at store other t).
Proof.
  split.
  - intros Hr Hm. unfold rateLimiter, Cache.increment. rewrite Hr.
    destruct (0 >? m) eqn:E; [lia |].
    rewrite Z.sub_0_r, Z.max_r by lia. reflexivity.
  - intros other t Hother. unfold rateLimiter, Cache.increment.
    destruct (Cache.counters_reachable store) eqn:Hr.
    + fold (counter_key (identifierOf req)).
      destruct (match JSMap.get (counter_key (identifierOf req))
                        (Cache.counters store) with
                | Some c => if Cache.live now c then c else (0, None)
                | None => (0, None)
                end) as [old expiry].
      assert (Hget : forall v,
                JSMap.get (counter_key other)
                  (JSMap.set (counter_key (identifierOf req)) v
                     (Cache.counters store))
                = JSMap.get (counter_key other) (Cache.counters store)).
      { intros v. apply get_set_other. intros Heq.
        apply Hother. now apply counter_key_inj. }
      destruct (old + 1 >? m); cbn [snd]; unfold count_at;
        cbn [Cache.counters]; now rewrite Hget.
    + now destruct (0 >? m).
Qed.

(** Three requests of one client within a second and a budget of two. *)
Lemma rateLimiter_window_witness :
  fst (serve 60000 2 counters_up
         (map (pair from_client) [1000; 1200; 1900]))
  = [ {| rateLimit_Limit := 2; rateLimit_Remaining := 1; outcome := Next |};
      {| rateLimit_Limit := 2; rateLimit_Remaining := 0; outcome := Next |};
      {| rateLimit_Limit := 2; rateLimit_Remaining := 0;
         outcome := TooManyRequests 60 |} ].
Proof.
  apply (rateLimiter_window 60000 2 counters_up from_client 1000 [1200; 1900]
           ltac:(lia) eq_refl eq_refl).
  intros t [<- | [<- | []]]; reflexivity.
Defined.

Lemma rateLimiter_fail_open_witness :
  rateLimiter 60000 100 counters_down from_client 1000
  = ({| rateLimit_Limit := 100; rateLimit_Remaining := 100;
        outcome := Next |}, counters_down).
Proof.
  apply (proj1 (rateLimiter_fail_open 60000 100 counters_down from_client
                  1000) eq_refl).
  lia.
Defined.

End InboundLimiter.

(* ================================================================= *)
(** ** The model on the inputs of the repository's unit tests *)

Module UnitTests.
Import JSNum JSString Types AggregationService Spec Samples.

#[local] Existing Instance ascii_engine.

Example parseInt_prefix : parseInt "12abc" = of_Z 12.
Proof. reflexivity. Qed.

Example parseInt_signed_hex : parseInt "  -0x1F" = of_Z (-31).
Proof. reflexivity. Qed.

Example parseInt_no_digit : parseInt "abc" = NaN.
Proof. reflexivity. Qed.

Example base64_round_trip :
  base64_encode "10" = "MTA=" /\ base64_decode "MTA=" = "10".
Proof. split; reflexivity. Qed.

Example base64_skips_white_space : base64_decode "YWJj ZGU=" = "abcde".
Proof. reflexivity. Qed.

(** "should merge duplicate tokens" *)
Example merge_duplicates :
  let first := hd listed_token mockTokens in
  map volume_sol
    (mergeTokens [with_volume first (of_Z 100); with_volume first (of_Z 500)])
  = [of_Z 500].
Proof. reflexivity. Qed.

(** "should keep unique tokens separate" *)
Example merge_unique : List.length (mergeTokens mockTokens) = 2%nat.
Proof. reflexivity. Qed.

(** "should filter by minimum volume", "should filter by minimum
    liquidity", "should apply multiple filters" *)
Example filter_volume :
  map token_ticker
    (applyFilters mockTokens (filtered_by (Some (of_Z 750)) None)) = ["TKB"].
Proof. reflexivity. Qed.

Example filter_liquidity :
  map token_ticker
    (applyFilters mockTokens (filtered_by None (Some (of_Z 300)))) = ["TKB"].
Proof. reflexivity. Qed.

Example filter_both :
  List.length
    (applyFilters mockTokens
       (filtered_by (Some (of_Z 250)) (Some (of_Z 150)))) = 2%nat.
Proof. reflexivity. Qed.

(** "should sort by volume descending", "should sort by volume ascending",
    "should sort by market cap" *)
Example sort_volume_desc :
  map token_ticker (applySort mockTokens (sorted_by by_volume desc))
  = ["TKB"; "TKA"].
Proof. reflexivity. Qed.

Example sort_volume_asc :
  map token_ticker (applySort mockTokens (sorted_by by_volume asc))
  = ["TKA"; "TKB"].
Proof. reflexivity. Qed.

Example sort_market_cap :
  map market_cap_sol (applySort mockTokens (sorted_by by_market_cap desc))
  = [of_Z 2000; of_Z 1000].
Proof. reflexivity. Qed.

(** "should paginate results", "should not have next cursor on last page",
    "should respect cursor for pagination" *)
Example paginate_first :
  let result :=
    applyPagination mockTokens (with_page no_options (Some (of_Z 1)) None) 0 in
  List.length (tokens result) = 1%nat
  /\ next_cursor result = Some "MQ=="
  /\ total_count result = 2%nat.
Proof. repeat split. Qed.

Example paginate_last :
  let result :=
    applyPagination mockTokens (with_page no_options (Some (of_Z 10)) None) 0 in
  List.length (tokens result) = 2%nat /\ next_cursor result = None.
Proof. repeat split. Qed.

Example paginate_cursor :
  map token_ticker
    (tokens (applyPagination mockTokens
               (with_page no_options (Some (of_Z 1))
                  (Some (base64_encode "1"))) 0))
  = ["TKB"].
Proof. reflexivity. Qed.

(** "should generate consistent cache keys", "should generate different
    keys for different options" *)
Example cache_key_default :
  generateCacheKey (sorted_by by_volume desc)
  = "tokens::aggregate:volume:desc:0:0".
Proof. reflexivity. Qed.

Example cache_key_differs :
  generateCacheKey (sorted_by by_volume desc)
  <> generateCacheKey (sorted_by by_market_cap desc).
Proof. discriminate. Qed.

(** The back-off delays of the configured policy are 1 s, 2 s, 4 s, 8 s
    and then the cap of 10 s. *)
Example configured_delays :
  map (Retry.backoffDelay Config.retry) [0; 1; 2; 3; 4]%nat
  = [Fin (1000 # 1); Fin (2000 # 1); Fin (4000 # 1); Fin (8000 # 1);
     of_Z 10000].
Proof. reflexivity. Qed.

End UnitTests.
